(** * Base-Jase Sound Board: the audio playback coordinator and the WAV wrapper

    A shallow embedding of [utils/audio.ts] (the playback coordinator:
    [getAudioContext], [setMasterVolume], [stopAllSounds],
    [fadeOutAllSounds], [playAudioBlob]) and of [createWavFile] /
    [writeString] from the speech service, together with the properties
    the specification states about them. The rest of the speech
    service ([generateSpeech]), [base64ToBlob] and the handlers of the
    components that call them ([App], [Pad], [EditModal]) follow, with
    properties of their own.

    JavaScript numbers are modelled by rationals [Q]: every arithmetic
    operation the code performs on them (sums, products, division by 8,
    comparison with 0.05) is exact on the values considered; NaN and the
    infinities are outside the model. *)

From Stdlib Require Import ZArith QArith Qabs Strings.Byte String Ascii Lia Lqa.
From Stdlib Require DecimalString.
From stdpp Require Import gmap list.

Local Open Scope Z_scope.

(** ** Exceptions and results *)

Inductive Exception :=
| RangeError
| InvalidStateError
| EncodingError      (* decodeAudioData rejects *)
| NotAllowedError    (* AudioContext.resume rejects *)
| NotReadableError   (* Blob.arrayBuffer rejects *)
| NotSupportedError. (* node creation or wiring fails *)

Inductive Result (A : Type) :=
| Ok (a : A)
| Throw (e : Exception).
Arguments Ok {A} a.
Arguments Throw {A} e.

#[global] Instance Result_ret : MRet Result := fun A a => Ok a.
#[global] Instance Result_bind : MBind Result := fun A B f m =>
  match m with
  | Ok a => f a
  | Throw e => Throw e
  end.

(** ** Numbers, bytes and the DataView *)

(** ECMAScript [ToIntegerOrInfinity] on a finite number: truncation
    toward zero. *)
Definition ToInteger (q : Q) : Z := Z.quot (Qnum q) (Z.pos (Qden q)).

(** [ToUint8], [ToUint16], [ToUint32]: truncate, then reduce modulo
    [2^w]. *)
Definition ToUint (w : Z) (q : Q) : Z := ToInteger q mod 2 ^ w.

Definition byte_of_Z (z : Z) : byte :=
  default "000"%byte (Byte.of_N (Z.to_N (z mod 256))).

Definition Z_of_byte (b : byte) : Z := Z.of_N (Byte.to_N b).

#[global] Instance byte_eq_decision : EqDecision byte := Byte.byte_eq_dec.

(** An [ArrayBuffer] is its sequence of bytes. *)
Abbreviation ArrayBuffer := (list byte).

(** The [n] low-order bytes of [z], least significant first. *)
Fixpoint le_bytes (n : nat) (z : Z) : list byte :=
  match n with
  | O => []
  | S n' => byte_of_Z z :: le_bytes n' (z / 256)
  end.

(** [NumericToRawBytes] for the unsigned integer element types. *)
Definition NumericToRawBytes (n : nat) (q : Q) (littleEndian : bool) : list byte :=
  let raw := le_bytes n (ToUint (8 * Z.of_nat n) q) in
  if littleEndian then raw else reverse raw.

(** Store [bs] at consecutive indices starting at [off]. *)
Fixpoint write_bytes (buf : ArrayBuffer) (off : nat) (bs : list byte) : ArrayBuffer :=
  match bs with
  | [] => buf
  | b :: bs' => write_bytes (<[off := b]> buf) (S off) bs'
  end.

(** [SetViewValue]: a write that does not fit the view throws
    [RangeError]. *)
Definition SetViewValue (view : ArrayBuffer) (byteOffset n : nat)
    (littleEndian : bool) (value : Q) : Result ArrayBuffer :=
  if decide (byteOffset + n ≤ length view)%nat
  then Ok (write_bytes view byteOffset (NumericToRawBytes n value littleEndian))
  else Throw RangeError.

Definition setUint8 (view : ArrayBuffer) (byteOffset : nat) (value : Q) :=
  SetViewValue view byteOffset 1 true value.
Definition setUint16 (view : ArrayBuffer) (byteOffset : nat) (value : Q) (littleEndian : bool) :=
  SetViewValue view byteOffset 2 littleEndian value.
Definition setUint32 (view : ArrayBuffer) (byteOffset : nat) (value : Q) (littleEndian : bool) :=
  SetViewValue view byteOffset 4 littleEndian value.

(** [new Uint8Array(buffer, byteOffset).set(source)]. *)
Definition Uint8Array_set (buffer : ArrayBuffer) (byteOffset : nat) (source : list byte)
    : Result ArrayBuffer :=
  if decide (byteOffset + length source ≤ length buffer)%nat
  then Ok (write_bytes buffer byteOffset source)
  else Throw RangeError.

Definition charCodeAt (c : ascii) : Q := inject_Z (Z.of_N (N_of_ascii c)).

(** ** The WAV wrapper *)

Record Blob := { blob_bytes : list byte; blob_type : string }.

(** [writeString]: the loop [for (i = 0; i < string.length; i++)
    view.setUint8(offset + i, string.charCodeAt(i))]. *)
Fixpoint writeString_loop (view : ArrayBuffer) (offset i : nat) (chars : list ascii)
    : Result ArrayBuffer :=
  match chars with
  | [] => Ok view
  | c :: cs =>
      view' ← setUint8 view (offset + i) (charCodeAt c);
      writeString_loop view' offset (S i) cs
  end.

Definition writeString (view : ArrayBuffer) (offset : nat) (s : string) : Result ArrayBuffer :=
  writeString_loop view offset 0 (list_ascii_of_string s).

Definition samples_length (samples : list byte) : Q :=
  inject_Z (Z.of_nat (length samples)).

Definition createWavFile (samples : list byte) (sampleRate numChannels bitDepth : Q)
    : Result Blob :=
  let buffer : ArrayBuffer := replicate (44 + length samples) "000"%byte in
  let view := buffer in
  (* RIFF identifier *)
  view ← writeString view 0 "RIFF";
  (* RIFF chunk length *)
  view ← setUint32 view 4 (36 + samples_length samples)%Q true;
  (* RIFF type *)
  view ← writeString view 8 "WAVE";
  (* format chunk identifier *)
  view ← writeString view 12 "fmt ";
  (* format chunk length *)
  view ← setUint32 view 16 16%Q true;
  (* sample format (raw) *)
  view ← setUint16 view 20 1%Q true;
  (* channel count *)
  view ← setUint16 view 22 numChannels true;
  (* sample rate *)
  view ← setUint32 view 24 sampleRate true;
  (* byte rate (sample rate * block align) *)
  view ← setUint32 view 28 (sampleRate * numChannels * (bitDepth / 8))%Q true;
  (* block align (channel count * bytes per sample) *)
  view ← setUint16 view 32 (numChannels * (bitDepth / 8))%Q true;
  (* bits per sample *)
  view ← setUint16 view 34 bitDepth true;
  (* data chunk identifier *)
  view ← writeString view 36 "data";
  (* data chunk length *)
  view ← setUint32 view 40 (samples_length samples) true;
  (* write the PCM samples *)
  buffer ← Uint8Array_set view 44 samples;
  Ok {| blob_bytes := buffer; blob_type := "audio/wav" |}.

(** *** Reading a container back *)

(** The unsigned value of a little-endian byte sequence. *)
Fixpoint le_decode (bs : list byte) : Z :=
  match bs with
  | [] => 0
  | b :: bs' => Z_of_byte b + 256 * le_decode bs'
  end.

(** The [n]-byte little-endian field at [off]. *)
Definition field (out : list byte) (off n : nat) : Z :=
  le_decode (take n (drop off out)).

Definition tag (s : string) : list byte :=
  map (fun c => byte_of_Z (Z.of_N (N_of_ascii c))) (list_ascii_of_string s).

(** The value [q] is stored in a [w]-bit unsigned field without loss. *)
Definition fits (w : Z) (q : Q) : Prop := (inject_Z (ToUint w q) == q)%Q.

(** The container layout table of the specification (section 6), for
    an output [out] claimed to wrap [samples] with the given triple. *)
Definition header_matches_table (out samples : list byte)
    (sampleRate numChannels bitDepth : Q) : Prop :=
  length out = (44 + length samples)%nat ∧
  take 4 out = tag "RIFF" ∧
  (inject_Z (field out 4 4) == 36 + samples_length samples)%Q ∧
  take 4 (drop 8 out) = tag "WAVE" ∧
  take 4 (drop 12 out) = tag "fmt " ∧
  field out 16 4 = 16 ∧
  field out 20 2 = 1 ∧
  (inject_Z (field out 22 2) == numChannels)%Q ∧
  (inject_Z (field out 24 4) == sampleRate)%Q ∧
  (inject_Z (field out 28 4) == sampleRate * numChannels * bitDepth / 8)%Q ∧
  (inject_Z (field out 32 2) == numChannels * bitDepth / 8)%Q ∧
  (inject_Z (field out 34 2) == bitDepth)%Q ∧
  take 4 (drop 36 out) = tag "data" ∧
  (inject_Z (field out 40 4) == samples_length samples)%Q ∧
  drop 44 out = samples.

(** The header [createWavFile] writes, as one byte sequence. *)
Definition wav_header (samples : list byte) (sampleRate numChannels bitDepth : Q)
    : list byte :=
  tag "RIFF"
  ++ le_bytes 4 (ToUint 32 (36 + samples_length samples)%Q)
  ++ tag "WAVE"
  ++ tag "fmt "
  ++ le_bytes 4 (ToUint 32 16%Q)
  ++ le_bytes 2 (ToUint 16 1%Q)
  ++ le_bytes 2 (ToUint 16 numChannels)
  ++ le_bytes 4 (ToUint 32 sampleRate)
  ++ le_bytes 4 (ToUint 32 (sampleRate * numChannels * (bitDepth / 8))%Q)
  ++ le_bytes 2 (ToUint 16 (numChannels * (bitDepth / 8))%Q)
  ++ le_bytes 2 (ToUint 16 bitDepth)
  ++ tag "data"
  ++ le_bytes 4 (ToUint 32 (samples_length samples)).

(** ** The Web Audio platform, as far as the coordinator uses it *)

Inductive AutomationEvent :=
| SetValueAtTime (value startTime : Q)
| LinearRampToValueAtTime (value endTime : Q)
| SetTargetAtTime (target startTime timeConstant : Q).

Definition event_time (e : AutomationEvent) : Q :=
  match e with
  | SetValueAtTime _ t => t
  | LinearRampToValueAtTime _ t => t
  | SetTargetAtTime _ t _ => t
  end.

(** An [AudioParam]: the value last assigned or rendered, and the
    automation events scheduled on it, oldest first. *)
Record AudioParam := { param_value : Q; param_events : list AutomationEvent }.

Definition negative (t : Q) : bool := negb (Qle_bool 0 t).

(** The automation methods throw [RangeError] on a negative time. *)
Definition cancelScheduledValues (cancelTime : Q) (p : AudioParam) : Result AudioParam :=
  if negative cancelTime then Throw RangeError
  else Ok {| param_value := param_value p;
             param_events :=
               List.filter (fun e => negb (Qle_bool cancelTime (event_time e)))
                           (param_events p) |}.

Definition schedule (e : AutomationEvent) (p : AudioParam) : AudioParam :=
  {| param_value := param_value p; param_events := param_events p ++ [e] |}.

Definition setValueAtTime (value startTime : Q) (p : AudioParam) : Result AudioParam :=
  if negative startTime then Throw RangeError
  else Ok (schedule (SetValueAtTime value startTime) p).

Definition linearRampToValueAtTime (value endTime : Q) (p : AudioParam) : Result AudioParam :=
  if negative endTime then Throw RangeError
  else Ok (schedule (LinearRampToValueAtTime value endTime) p).

Definition setTargetAtTime (target startTime timeConstant : Q) (p : AudioParam)
    : Result AudioParam :=
  if negative startTime || negative timeConstant then Throw RangeError
  else Ok (schedule (SetTargetAtTime target startTime timeConstant) p).

(** [param.value = v]. *)
Definition assign_value (v : Q) (p : AudioParam) : AudioParam :=
  {| param_value := v; param_events := param_events p |}.

Inductive ContextState := Suspended | Running.
Record AudioContext := { ctx_state : ContextState; currentTime : Q }.

Inductive Destination := MasterGain | ContextDestination.
Record GainNode := { gain_param : AudioParam; gain_output : option Destination }.

(** A decoded buffer: sample rate, channel count and length in sample
    frames. *)
Record AudioBuffer := { sampleRate : Z; numberOfChannels : Z; buffer_length : Z }.

Definition duration (b : AudioBuffer) : Q :=
  (inject_Z (buffer_length b) / inject_Z (sampleRate b))%Q.

Inductive PlaybackState := Unscheduled | Playing | Finished.

(** An entry of the registry is the pair of references
    [{ source, gain }]; both nodes live in the stores below. *)
Abbreviation AudioSourceEntry := (nat * nat)%type.

Record SourceNode := {
  src_buffer : option AudioBuffer;
  src_playback : PlaybackState;
  src_output : option nat;                (* the gain node it feeds *)
  src_onended : option AudioSourceEntry   (* the entry its handler deletes *)
}.

(** One invocation of [playAudioBlob], suspended at an [await] or
    settled. *)
Inductive PlayTask :=
| AwaitResume (blob : Blob) (volume : Q)
| AwaitArrayBuffer (blob : Blob) (volume : Q)
| AwaitDecode (arrayBuffer : list byte) (volume : Q)
| Settled (outcome : Result unit).

(** ** The state of the module and of the platform around it *)

Record State := {
  (* module-level variables of audio.ts *)
  audioContext : option AudioContext;
  masterGainNode : option GainNode;
  activeSources : gset AudioSourceEntry;
  fadeTimeout : option positive;
  (* the platform: nodes created so far, active timers (handle to
     delay in milliseconds; the only callback ever scheduled is
     [stopAllSounds]), the console, pending invocations of
     [playAudioBlob], and what the platform currently allows *)
  sources : gmap nat SourceNode;
  gains : gmap nat GainNode;
  next_node : nat;
  timers : gmap positive Q;
  next_timer : positive;
  console : list Exception;
  tasks : gmap nat PlayTask;
  next_task : nat;
  autoplay_allowed : bool;
  nodes_available : bool
}.

Definition initial (autoplay nodes : bool) : State :=
  {| audioContext := None; masterGainNode := None; activeSources := ∅;
     fadeTimeout := None; sources := ∅; gains := ∅; next_node := 0%nat;
     timers := ∅; next_timer := 1%positive; console := []; tasks := ∅;
     next_task := 0%nat; autoplay_allowed := autoplay; nodes_available := nodes |}.

Definition set_context (c : option AudioContext) (m : option GainNode) (s : State) : State :=
  {| audioContext := c; masterGainNode := m; activeSources := activeSources s;
     fadeTimeout := fadeTimeout s; sources := sources s; gains := gains s;
     next_node := next_node s; timers := timers s; next_timer := next_timer s;
     console := console s; tasks := tasks s; next_task := next_task s;
     autoplay_allowed := autoplay_allowed s; nodes_available := nodes_available s |}.

Definition set_activeSources (a : gset AudioSourceEntry) (s : State) : State :=
  {| audioContext := audioContext s; masterGainNode := masterGainNode s; activeSources := a;
     fadeTimeout := fadeTimeout s; sources := sources s; gains := gains s;
     next_node := next_node s; timers := timers s; next_timer := next_timer s;
     console := console s; tasks := tasks s; next_task := next_task s;
     autoplay_allowed := autoplay_allowed s; nodes_available := nodes_available s |}.

Definition set_fadeTimeout (t : option positive) (s : State) : State :=
  {| audioContext := audioContext s; masterGainNode := masterGainNode s;
     activeSources := activeSources s;
     fadeTimeout := t; sources := sources s; gains := gains s;
     next_node := next_node s; timers := timers s; next_timer := next_timer s;
     console := console s; tasks := tasks s; next_task := next_task s;
     autoplay_allowed := autoplay_allowed s; nodes_available := nodes_available s |}.

Definition set_nodes (ss : gmap nat SourceNode) (gs : gmap nat GainNode) (n : nat)
    (s : State) : State :=
  {| audioContext := audioContext s; masterGainNode := masterGainNode s;
     activeSources := activeSources s;
     fadeTimeout := fadeTimeout s; sources := ss; gains := gs;
     next_node := n; timers := timers s; next_timer := next_timer s;
     console := console s; tasks := tasks s; next_task := next_task s;
     autoplay_allowed := autoplay_allowed s; nodes_available := nodes_available s |}.

Definition set_timers (ts : gmap positive Q) (n : positive) (s : State) : State :=
  {| audioContext := audioContext s; masterGainNode := masterGainNode s;
     activeSources := activeSources s;
     fadeTimeout := fadeTimeout s; sources := sources s; gains := gains s;
     next_node := next_node s; timers := ts; next_timer := n;
     console := console s; tasks := tasks s; next_task := next_task s;
     autoplay_allowed := autoplay_allowed s; nodes_available := nodes_available s |}.

Definition set_console (c : list Exception) (s : State) : State :=
  {| audioContext := audioContext s; masterGainNode := masterGainNode s;
     activeSources := activeSources s;
     fadeTimeout := fadeTimeout s; sources := sources s; gains := gains s;
     next_node := next_node s; timers := timers s; next_timer := next_timer s;
     console := c; tasks := tasks s; next_task := next_task s;
     autoplay_allowed := autoplay_allowed s; nodes_available := nodes_available s |}.

Definition set_tasks (ts : gmap nat PlayTask) (n : nat) (s : State) : State :=
  {| audioContext := audioContext s; masterGainNode := masterGainNode s;
     activeSources := activeSources s;
     fadeTimeout := fadeTimeout s; sources := sources s; gains := gains s;
     next_node := next_node s; timers := timers s; next_timer := next_timer s;
     console := console s; tasks := ts; next_task := n;
     autoplay_allowed := autoplay_allowed s; nodes_available := nodes_available s |}.

Definition set_platform (autoplay nodes : bool) (s : State) : State :=
  {| audioContext := audioContext s; masterGainNode := masterGainNode s;
     activeSources := activeSources s;
     fadeTimeout := fadeTimeout s; sources := sources s; gains := gains s;
     next_node := next_node s; timers := timers s; next_timer := next_timer s;
     console := console s; tasks := tasks s; next_task := next_task s;
     autoplay_allowed := autoplay; nodes_available := nodes |}.

(** ** State and exceptions: the monad the module's functions run in *)

Definition M (A : Type) : Type := State → Result A * State.

#[global] Instance M_ret : MRet M := fun A a s => (Ok a, s).
#[global] Instance M_bind : MBind M := fun A B f m s =>
  match m s with
  | (Ok a, s') => f a s'
  | (Throw e, s') => (Throw e, s')
  end.

Definition get {A} (f : State → A) : M A := fun s => (Ok (f s), s).
Definition modify (f : State → State) : M unit := fun s => (Ok (), f s).
Definition throw {A} (e : Exception) : M A := fun s => (Throw e, s).
Definition lift {A} (r : Result A) : M A := fun s => (r, s).

(** [try { body } catch (e) { handler e }]: what [body] did to the
    state before it threw stays done. *)
Definition try_catch {A} (body : M A) (handler : Exception → M A) : M A := fun s =>
  match body s with
  | (Ok a, s') => (Ok a, s')
  | (Throw e, s') => handler e s'
  end.

(** [set.forEach(f)]. *)
Definition forEach (X : gset AudioSourceEntry) (f : AudioSourceEntry → M unit) : M unit :=
  foldr (fun k rest => f k ;; rest) (mret ()) (elements X).

Definition console_error (e : Exception) : M unit :=
  modify (fun s => set_console (console s ++ [e]) s).

(** *** Window timers *)

(** [window.setTimeout(() => stopAllSounds(), delay)]: handles are
    integers greater than zero, so the test [if (fadeTimeout)] of the
    source is the test against [null]. *)
Definition setTimeout (delay : Q) : M positive := fun s =>
  let handle := next_timer s in
  (Ok handle, set_timers (<[handle := delay]> (timers s)) (Pos.succ handle) s).

Definition clearTimeout (handle : positive) : M unit :=
  modify (fun s => set_timers (delete handle (timers s)) (next_timer s) s).

(** *** Operations on nodes, through their references *)

Definition update_gain (g : nat) (f : AudioParam → Result AudioParam) : M unit := fun s =>
  match gains s !! g with
  | Some node =>
      match f (gain_param node) with
      | Ok p =>
          (Ok (), set_nodes (sources s)
                    (<[g := {| gain_param := p; gain_output := gain_output node |}]> (gains s))
                    (next_node s) s)
      | Throw e => (Throw e, s)
      end
  | None => (Throw InvalidStateError, s)
  end.

Definition gain_value (g : nat) : M Q := fun s =>
  match gains s !! g with
  | Some node => (Ok (param_value (gain_param node)), s)
  | None => (Throw InvalidStateError, s)
  end.

Definition gain_connect (g : nat) (d : Destination) : M unit := fun s =>
  match gains s !! g with
  | Some node =>
      (Ok (), set_nodes (sources s)
                (<[g := {| gain_param := gain_param node; gain_output := Some d |}]> (gains s))
                (next_node s) s)
  | None => (Throw InvalidStateError, s)
  end.

Definition update_source (src : nat) (f : SourceNode → Result SourceNode) : M unit := fun s =>
  match sources s !! src with
  | Some node =>
      match f node with
      | Ok node' => (Ok (), set_nodes (<[src := node']> (sources s)) (gains s) (next_node s) s)
      | Throw e => (Throw e, s)
      end
  | None => (Throw InvalidStateError, s)
  end.

(** [source.stop()]: a source that is not playing (never started, or
    already stopped or ended) throws [InvalidStateError]. *)
Definition stop (node : SourceNode) : Result SourceNode :=
  match src_playback node with
  | Playing =>
      Ok {| src_buffer := src_buffer node; src_playback := Finished;
            src_output := src_output node; src_onended := src_onended node |}
  | _ => Throw InvalidStateError
  end.

(** [source.start(0)]: a second start throws [InvalidStateError]. *)
Definition start (node : SourceNode) : Result SourceNode :=
  match src_playback node with
  | Unscheduled =>
      Ok {| src_buffer := src_buffer node; src_playback := Playing;
            src_output := src_output node; src_onended := src_onended node |}
  | _ => Throw InvalidStateError
  end.

Definition set_buffer (b : AudioBuffer) (node : SourceNode) : Result SourceNode :=
  Ok {| src_buffer := Some b; src_playback := src_playback node;
        src_output := src_output node; src_onended := src_onended node |}.

Definition connect (g : nat) (node : SourceNode) : Result SourceNode :=
  Ok {| src_buffer := src_buffer node; src_playback := src_playback node;
        src_output := Some g; src_onended := src_onended node |}.

Definition set_onended (entry : AudioSourceEntry) (node : SourceNode) : Result SourceNode :=
  Ok {| src_buffer := src_buffer node; src_playback := src_playback node;
        src_output := src_output node; src_onended := Some entry |}.

(** [ctx.createBufferSource()] and [ctx.createGain()] allocate a fresh
    node, or throw when the platform cannot create nodes. *)
Definition createBufferSource : M nat := fun s =>
  if nodes_available s then
    let id := next_node s in
    (Ok id, set_nodes (<[id := {| src_buffer := None; src_playback := Unscheduled;
                                  src_output := None; src_onended := None |}]> (sources s))
              (gains s) (S id) s)
  else (Throw NotSupportedError, s).

Definition createGain : M nat := fun s =>
  if nodes_available s then
    let id := next_node s in
    (Ok id, set_nodes (sources s)
              (<[id := {| gain_param := {| param_value := 1; param_events := [] |};
                          gain_output := None |}]> (gains s))
              (S id) s)
  else (Throw NotSupportedError, s).

(** ** utils/audio.ts *)

(** The lazily created singleton. A new context is running when the
    platform allows autoplay and suspended otherwise; the master gain
    node is created with it, at gain 1, wired to the destination. *)
Definition getAudioContext : M AudioContext := fun s =>
  match audioContext s with
  | Some ctx => (Ok ctx, s)
  | None =>
      let ctx := {| ctx_state := if autoplay_allowed s then Running else Suspended;
                    currentTime := 0 |} in
      let master := {| gain_param := {| param_value := 1; param_events := [] |};
                       gain_output := Some ContextDestination |} in
      (Ok ctx, set_context (Some ctx) (Some master) s)
  end.

Definition setMasterVolume (volume : Q) : M unit :=
  ctx ← getAudioContext;
  master ← get masterGainNode;
  match master with
  | Some node =>
      (* Smooth transition to prevent clicks *)
      p ← lift (setTargetAtTime volume (currentTime ctx) (2 # 100) (gain_param node));
      modify (fun s => set_context (audioContext s)
                         (Some {| gain_param := p; gain_output := gain_output node |}) s)
  | None => mret ()
  end.

Definition cancel_pending_fade : M unit :=
  t ← get fadeTimeout;
  match t with
  | Some handle => clearTimeout handle ;; modify (set_fadeTimeout None)
  | None => mret ()
  end.

(** The callback [stopAllSounds] passes to [forEach]. *)
Definition stop_entry : AudioSourceEntry → M unit := fun '(source, gain) =>
  try_catch
    ((* Cancel any scheduled ramps *)
     update_gain gain (cancelScheduledValues 0) ;;
     update_source source stop)
    (fun _ => (* Ignore errors if already stopped *) mret ()).

Definition stopAllSounds : M unit :=
  (* Cancel any pending fade stop *)
  cancel_pending_fade ;;
  active ← get activeSources;
  forEach active stop_entry ;;
  modify (set_activeSources ∅).

(** The callback [fadeOutAllSounds] passes to [forEach]. *)
Definition ramp_entry (ctx : AudioContext) (endTime : Q) : AudioSourceEntry → M unit :=
  fun '(_, gain) =>
    try_catch
      ((* Cancel current scheduled values to start fresh *)
       update_gain gain (cancelScheduledValues (currentTime ctx)) ;;
       (* Set value explicitly to current value to prevent jumping *)
       v ← gain_value gain;
       update_gain gain (setValueAtTime v (currentTime ctx)) ;;
       (* Linear ramp to 0 *)
       update_gain gain (linearRampToValueAtTime 0 endTime))
      (fun e => console_error e).

Definition fadeOutAllSounds (duration : Q) : M unit :=
  ctx ← getAudioContext;
  active ← get activeSources;
  if decide (size active = 0%nat) then mret ()
  else if Qle_bool duration (5 # 100) then
    (* If duration is effectively 0, just stop immediately *)
    stopAllSounds
  else
    (* Clear any existing fade timeout to avoid overlapping stops *)
    cancel_pending_fade ;;
    (* Ramp down all active gains *)
    let endTime := (currentTime ctx + duration)%Q in
    forEach active (ramp_entry ctx endTime) ;;
    (* Schedule the hard stop after the fade completes *)
    handle ← setTimeout (duration * 1000)%Q;
    modify (set_fadeTimeout (Some handle)).

(** The whole body of [playAudioBlob] sits in [try { ... } catch
    (error) { console.error(...) }]; after the handler the function
    returns normally, so its promise is fulfilled. *)
Definition catch_all (body : M PlayTask) : M PlayTask :=
  try_catch body (fun error => console_error error ;; mret (Settled (Ok ()))).

(** [playAudioBlob] up to its first [await]. *)
Definition playAudioBlob (blob : Blob) (volume : Q) : M PlayTask :=
  catch_all (
    ctx ← getAudioContext;
    match ctx_state ctx with
    | Suspended => mret (AwaitResume blob volume)
    | Running => mret (AwaitArrayBuffer blob volume)
    end).

(** What the platform answers at the three [await]s of one
    invocation. *)
Record Outcomes := {
  resume_outcome : Result unit;
  arrayBuffer_outcome : Result unit;
  decode_outcome : Result AudioBuffer
}.

(** [ctx.resume()] fulfilled: the context is running. *)
Definition context_resumed : M unit := fun s =>
  match audioContext s with
  | Some ctx =>
      (Ok (), set_context (Some {| ctx_state := Running; currentTime := currentTime ctx |})
                 (masterGainNode s) s)
  | None => (Ok (), s)
  end.

(** The part of [playAudioBlob] after [decodeAudioData] has
    fulfilled; it runs without suspension. *)
Definition play_decoded (audioBuffer : AudioBuffer) (volume : Q) : M PlayTask :=
  (* Enforce Solo Mode: Stop all other sounds before starting this one *)
  stopAllSounds ;;
  source ← createBufferSource;
  update_source source (set_buffer audioBuffer) ;;
  padGainNode ← createGain;
  update_gain padGainNode (fun p => Ok (assign_value volume p)) ;;
  (* Signal chain: Source -> Pad Gain -> Master Gain -> Destination *)
  update_source source (connect padGainNode) ;;
  master ← get masterGainNode;
  match master with
  | Some _ => gain_connect padGainNode MasterGain
  | None => gain_connect padGainNode ContextDestination
  end ;;
  let entry : AudioSourceEntry := (source, padGainNode) in
  update_source source (set_onended entry) ;;
  modify (fun s => set_activeSources ({[entry]} ∪ activeSources s) s) ;;
  update_source source start ;;
  mret (Settled (Ok ())).

(** Resumption of a suspended invocation when the promise it awaits
    settles. *)
Definition respond (task : PlayTask) (o : Outcomes) : M PlayTask :=
  match task with
  | AwaitResume blob volume =>
      catch_all (
        match resume_outcome o with
        | Ok _ => context_resumed ;; mret (AwaitArrayBuffer blob volume)
        | Throw e => throw e
        end)
  | AwaitArrayBuffer blob volume =>
      catch_all (
        match arrayBuffer_outcome o with
        | Ok _ => mret (AwaitDecode (blob_bytes blob) volume)
        | Throw e => throw e
        end)
  | AwaitDecode arrayBuffer volume =>
      catch_all (
        match decode_outcome o with
        | Ok audioBuffer => play_decoded audioBuffer volume
        | Throw e => throw e
        end)
  | Settled outcome => mret (Settled outcome)
  end.

(** One invocation run to completion with nothing else in between. *)
Definition playAudioBlob_uninterrupted (blob : Blob) (volume : Q) (o : Outcomes)
    : M PlayTask :=
  task ← playAudioBlob blob volume;
  task ← respond task o;
  task ← respond task o;
  respond task o.

(** ** The event loop *)

(** The audio thread reaches the end of the buffer of a playing
    source. *)
Definition source_finishes (src : nat) : M unit := fun s =>
  match update_source src stop s with
  | (_, s') => (Ok (), s')
  end.

(** The platform dispatches [ended] on a source that has finished
    (naturally or through [stop]): its [onended] handler, if any,
    runs. *)
Definition source_ended (src : nat) : M unit := fun s =>
  match sources s !! src with
  | Some node =>
      match src_playback node, src_onended node with
      | Finished, Some entry => (Ok (), set_activeSources (activeSources s ∖ {[entry]}) s)
      | _, _ => (Ok (), s)
      end
  | None => (Ok (), s)
  end.

(** A timer that is still active fires: it leaves the list of active
    timers and its callback, [stopAllSounds], runs. *)
Definition timer_fires (handle : positive) : M unit := fun s =>
  match timers s !! handle with
  | Some _ => (clearTimeout handle ;; stopAllSounds) s
  | None => (Ok (), s)
  end.

(** The clock of a running context advances. *)
Definition tick (dt : Q) : M unit := fun s =>
  match audioContext s with
  | Some ctx =>
      match ctx_state ctx with
      | Running =>
          if negative dt then (Ok (), s)
          else (Ok (), set_context
                         (Some {| ctx_state := Running;
                                  currentTime := (currentTime ctx + dt)%Q |})
                         (masterGainNode s) s)
      | Suspended => (Ok (), s)
      end
  | None => (Ok (), s)
  end.

(** The audio thread publishes the computed value of a gain. *)
Definition rendered (g : nat) (v : Q) : M unit := fun s =>
  match update_gain g (fun p => Ok (assign_value v p)) s with
  | (_, s') => (Ok (), s')
  end.

Inductive Event :=
| CallSetMasterVolume (volume : Q)
| CallStopAllSounds
| CallFadeOutAllSounds (duration : Q)
| CallPlayAudioBlob (blob : Blob) (volume : Q)
| Settle (task : nat) (o : Outcomes)
| SourceFinishes (source : nat)
| SourceEnded (source : nat)
| TimerFires (handle : positive)
| Tick (dt : Q)
| Rendered (gain : nat) (value : Q)
| Platform (autoplay nodes : bool).

Definition store_task (id : nat) (r : Result PlayTask * State) : State :=
  match r with
  | (Ok task, s) => set_tasks (<[id := task]> (tasks s)) (next_task s) s
  | (Throw e, s) => set_tasks (<[id := Settled (Throw e)]> (tasks s)) (next_task s) s
  end.

Definition step (s : State) (ev : Event) : State :=
  match ev with
  | CallSetMasterVolume volume => snd (setMasterVolume volume s)
  | CallStopAllSounds => snd (stopAllSounds s)
  | CallFadeOutAllSounds d => snd (fadeOutAllSounds d s)
  | CallPlayAudioBlob blob volume =>
      let id := next_task s in
      store_task id (playAudioBlob blob volume (set_tasks (tasks s) (S id) s))
  | Settle id o =>
      match tasks s !! id with
      | Some task => store_task id (respond task o s)
      | None => s
      end
  | SourceFinishes src => snd (source_finishes src s)
  | SourceEnded src => snd (source_ended src s)
  | TimerFires handle => snd (timer_fires handle s)
  | Tick dt => snd (tick dt s)
  | Rendered g v => snd (rendered g v s)
  | Platform autoplay nodes => set_platform autoplay nodes s
  end.

Definition run (s : State) (trace : list Event) : State := foldl step s trace.

(** ** The decoder *)

(** Modelled from the spec: the Decoder of section 4.1 is the
    platform's [decodeAudioData], which is not part of the sources.
    For the container of section 6 it is the function below: it fails
    with a decode error unless the four tags, the PCM format code and
    the sizes of the header are present and consistent (chunk size =
    36 + data size, byte rate = sample rate x block align, block align
    = channels x bits / 8, data within the payload), and otherwise
    yields a buffer at the header's sample rate with one frame per
    block of the data chunk. *)
Definition decode (payload : list byte) : Result AudioBuffer :=
  let channels := field payload 22 2 in
  let rate := field payload 24 4 in
  let byteRate := field payload 28 4 in
  let blockAlign := field payload 32 2 in
  let bits := field payload 34 2 in
  let dataSize := field payload 40 4 in
  if bool_decide (take 4 payload = tag "RIFF"
                  ∧ field payload 4 4 = 36 + dataSize
                  ∧ take 4 (drop 8 payload) = tag "WAVE"
                  ∧ take 4 (drop 12 payload) = tag "fmt "
                  ∧ field payload 16 4 = 16
                  ∧ field payload 20 2 = 1
                  ∧ 0 < channels ∧ 0 < rate ∧ 0 < blockAlign
                  ∧ 8 * blockAlign = channels * bits
                  ∧ byteRate = rate * blockAlign
                  ∧ take 4 (drop 36 payload) = tag "data"
                  ∧ 44 + dataSize ≤ Z.of_nat (length payload))
  then Ok {| sampleRate := rate; numberOfChannels := channels;
             buffer_length := dataSize / blockAlign |}
  else Throw EncodingError.

(** ** Properties stated about states *)

(** [s'] differs from [s] at most in the nodes and the console. *)
Definition same_control (s s' : State) : Prop :=
  audioContext s' = audioContext s ∧ masterGainNode s' = masterGainNode s ∧
  activeSources s' = activeSources s ∧ fadeTimeout s' = fadeTimeout s ∧
  timers s' = timers s ∧ next_timer s' = next_timer s ∧ next_node s' = next_node s ∧
  tasks s' = tasks s ∧ next_task s' = next_task s ∧
  autoplay_allowed s' = autoplay_allowed s ∧ nodes_available s' = nodes_available s.

(** Every entry of the registry refers to a gain node of the store. *)
Definition entries_valid (s : State) : Prop :=
  ∀ source gain, (source, gain) ∈ activeSources s → is_Some (gains s !! gain).

(** A voice is silenced: its source is not playing and nothing is
    scheduled on its gain from time 0 on. *)
Definition silenced (s : State) (entry : AudioSourceEntry) : Prop :=
  (∀ node, sources s !! entry.1 = Some node → src_playback node ≠ Playing) ∧
  (∀ node e, gains s !! entry.2 = Some node →
             e ∈ param_events (gain_param node) → (event_time e < 0)%Q).

(** The source node after [source.stop()] inside a [try] whose [catch]
    ignores the exception: a playing source has finished, any other is
    as it was. *)
Definition stopped (node : SourceNode) : SourceNode :=
  match stop node with
  | Ok node' => node'
  | Throw _ => node
  end.

(** The gain node after [gain.gain.cancelScheduledValues(0)]. *)
Definition cancelled (node : GainNode) : GainNode :=
  match cancelScheduledValues 0 (gain_param node) with
  | Ok p => {| gain_param := p; gain_output := gain_output node |}
  | Throw _ => node
  end.

(** From [s] to [s'] the voices of the registry [X] have been stopped
    and nothing else has happened to the nodes: the source of every
    entry of [X] is the source it was, stopped, its gain node is the
    gain node it was, with its schedule cancelled; every other node is
    as it was; no node has been created and nothing has been
    logged. *)
Definition voices_stopped (X : gset AudioSourceEntry) (s s' : State) : Prop :=
  (∀ source gain, (source, gain) ∈ X →
     sources s' !! source = stopped <$> sources s !! source ∧
     gains s' !! gain = cancelled <$> gains s !! gain) ∧
  (∀ source, (∀ gain, (source, gain) ∉ X) → sources s' !! source = sources s !! source) ∧
  (∀ gain, (∀ source, (source, gain) ∉ X) → gains s' !! gain = gains s !! gain) ∧
  next_node s' = next_node s ∧ console s' = console s.

(** Every voice of the registry has a source node, which has been
    started. *)
Definition voices_started (s : State) : Prop :=
  ∀ source gain, (source, gain) ∈ activeSources s →
    ∃ node, sources s !! source = Some node ∧ src_playback node ≠ Unscheduled.

(** The invariant of the reachable states. *)
Record Inv (s : State) : Prop := {
  inv_solo : (size (activeSources s) ≤ 1)%nat;
  inv_pending : ∀ h, is_Some (timers s !! h) → fadeTimeout s = Some h;
  inv_handles : ∀ h, is_Some (timers s !! h) → (h < next_timer s)%positive;
  inv_entries : ∀ source gain, (source, gain) ∈ activeSources s →
                  (source < next_node s)%nat ∧ (gain < next_node s)%nat;
  inv_clock : ∀ ctx, audioContext s = Some ctx → (0 <= currentTime ctx)%Q;
  inv_master : is_Some (audioContext s) → is_Some (masterGainNode s);
  inv_tasks : ∀ id e, tasks s !! id ≠ Some (Settled (Throw e))
}.

(** A change of a parameter that is a smoothed approach to [level]:
    the value itself is not assigned, and one [setTargetAtTime] event
    with the time constant 0.02 s is appended. *)
Definition smooth_transition (p p' : AudioParam) (level now : Q) : Prop :=
  param_value p' = param_value p ∧
  param_events p' = param_events p ++ [SetTargetAtTime level now (2 # 100)] ∧
  (0 < 2 # 100)%Q.

(** The target the parameter is currently heading to. *)
Definition scheduled_target (p : AudioParam) : option Q :=
  match last (param_events p) with
  | Some (SetTargetAtTime v _ _) => Some v
  | Some (SetValueAtTime v _) => Some v
  | Some (LinearRampToValueAtTime v _) => Some v
  | None => None
  end.

(** An exception reaches the caller of [playAudioBlob]: the call
    throws it, or the promise is rejected with it. *)
Definition surfaces (r : Result PlayTask) (e : Exception) : Prop :=
  r = Throw e ∨ r = Ok (Settled (Throw e)).

(** A computation that touches only nodes and the console. *)
Definition keeps_control {A} (m : M A) : Prop := ∀ s, same_control s (snd (m s)).

(** A computation that always returns normally. *)
Definition returns {A} (m : M A) : Prop := ∀ s, ∃ a, fst (m s) = Ok a.

(** The active timers once the pending fade, if any, is cancelled. *)
Definition cleared (s : State) : gmap positive Q :=
  match fadeTimeout s with
  | Some handle => delete handle (timers s)
  | None => timers s
  end.

(** Where one resumption takes a suspended invocation. *)
Definition next_of (task task' : PlayTask) : Prop :=
  match task with
  | AwaitResume blob volume =>
      task' = AwaitArrayBuffer blob volume ∨ task' = Settled (Ok ())
  | AwaitArrayBuffer blob volume =>
      task' = AwaitDecode (blob_bytes blob) volume ∨ task' = Settled (Ok ())
  | AwaitDecode _ _ => task' = Settled (Ok ())
  | Settled outcome => task' = Settled outcome
  end.

(** The failure a resumption meets, if any: the rejection of the
    promise it awaited or, once the data is decoded, the platform
    being unable to create the nodes. *)
Definition failure_of (task : PlayTask) (o : Outcomes) (s : State) : option Exception :=
  match task with
  | AwaitResume _ _ =>
      match resume_outcome o with Ok _ => None | Throw e => Some e end
  | AwaitArrayBuffer _ _ =>
      match arrayBuffer_outcome o with Ok _ => None | Throw e => Some e end
  | AwaitDecode _ _ =>
      match decode_outcome o with
      | Ok _ => if nodes_available s then None else Some NotSupportedError
      | Throw e => Some e
      end
  | Settled _ => None
  end.

(** ** Sample inputs *)

Definition sample_blob : Blob := {| blob_bytes := []; blob_type := "audio/wav" |}.

Definition sample_buffer : AudioBuffer :=
  {| sampleRate := 48000; numberOfChannels := 1; buffer_length := 96000 |}.

(** Raw samples of 2^32 bytes: their length does not fit the 32-bit
    size fields of the header. *)
Definition long_samples : list byte := repeat "000"%byte (Z.to_nat (2 ^ 32)).

(** The platform fulfils every promise. *)
Definition all_fulfilled : Outcomes :=
  {| resume_outcome := Ok (); arrayBuffer_outcome := Ok ();
     decode_outcome := Ok sample_buffer |}.

(** The platform rejects the decoding. *)
Definition decode_rejected : Outcomes :=
  {| resume_outcome := Ok (); arrayBuffer_outcome := Ok ();
     decode_outcome := Throw EncodingError |}.

(** One sound is started and a five second fade is under way. *)
Definition fading_state : State :=
  run (initial true true)
    [CallPlayAudioBlob sample_blob 1; Settle 0 all_fulfilled; Settle 0 all_fulfilled;
     CallFadeOutAllSounds 5].

(** The sound has reached its end during the fade, and its [ended]
    event is not dispatched yet: the registry holds a finished source. *)
Definition racing_state : State := step fading_state (SourceFinishes 0).

(** The [ended] event is dispatched: the registry is empty while the
    fade's timer is still pending. *)
Definition drained_state : State := step racing_state (SourceEnded 0).

(** ** The stores of nodes along a run *)

(** Every [onended] handler installed on a source deletes the entry
    made of that source and of the gain node created right after it. *)
Definition handlers_own (s : State) : Prop :=
  ∀ id node entry,
    sources s !! id = Some node → src_onended node = Some entry → entry = (id, S id).

(** From [s] to [s'] no gain node disappears, and every source of
    [s'] is a source of [s] with the same handler. *)
Definition heap_stable (s s' : State) : Prop :=
  (∀ g, is_Some (gains s !! g) → is_Some (gains s' !! g)) ∧
  (∀ id node', sources s' !! id = Some node' →
     ∃ node, sources s !! id = Some node ∧ src_onended node' = src_onended node).

Definition keeps_heap {A} (m : M A) : Prop := ∀ s, heap_stable s (snd (m s)).

(** What holds of the stores in the reachable states. *)
Record Wired (s : State) : Prop := {
  wired_handlers : handlers_own s;
  wired_entries : entries_valid s;
  wired_master : tasks s ≠ ∅ → is_Some (masterGainNode s)
}.

(** The parameter of a gain after [fadeOutAllSounds] has scheduled its
    ramp at time [now]: what was scheduled from [now] on is cancelled,
    the current value is pinned at [now], and a linear ramp to 0 ends
    at [now + duration]. *)
Definition ramped (now duration : Q) (p : AudioParam) : AudioParam :=
  {| param_value := param_value p;
     param_events :=
       List.filter (fun e => negb (Qle_bool now (event_time e))) (param_events p)
       ++ [SetValueAtTime (param_value p) now;
           LinearRampToValueAtTime 0 (now + duration)%Q] |}.

(** One sound has been started and nothing else has happened. *)
Definition playing_state : State :=
  run (initial true true)
    [CallPlayAudioBlob sample_blob 1; Settle 0 all_fulfilled; Settle 0 all_fulfilled].

(** [s'] differs from [s] at most in the audio context, the master
    gain node and the console: the voices, the registry and the
    pending fade are as they were. *)
Definition untouched (s s' : State) : Prop :=
  activeSources s' = activeSources s ∧ sources s' = sources s ∧ gains s' = gains s ∧
  fadeTimeout s' = fadeTimeout s ∧ timers s' = timers s ∧ next_timer s' = next_timer s ∧
  next_node s' = next_node s ∧ tasks s' = tasks s ∧ next_task s' = next_task s ∧
  autoplay_allowed s' = autoplay_allowed s ∧ nodes_available s' = nodes_available s.

(** ** Binary strings: [base64ToBlob] and [generateSpeech] *)

(** What these functions throw: an [Error] with a message, the
    exception of [atob] on a string that is not base64, the rejection
    of the request to the model, or an exception of the buffer
    operations. *)
Inductive Thrown :=
| JsError (message : string)
| InvalidCharacterError
| RequestRejected (reason : string)
| Raised (e : Exception).

Inductive Outcome (A : Type) :=
| Returned (a : A)
| Threw (t : Thrown).
Arguments Returned {A} a.
Arguments Threw {A} t.

(** The loop [for (i = 0; i < s.length; i++) byteNumbers[i] =
    s.charCodeAt(i)] on an array; [None] is a hole of the array. *)
Fixpoint fill_numbers (chars : list ascii) (i : nat) (byteNumbers : list (option Q))
    : list (option Q) :=
  match chars with
  | [] => byteNumbers
  | c :: rest => fill_numbers rest (S i) (<[i := Some (charCodeAt c)]> byteNumbers)
  end.

(** [new Uint8Array(array)]: each element is converted with
    [ToUint8], a hole counting as 0. *)
Definition Uint8Array_from (array : list (option Q)) : list byte :=
  map (fun x => byte_of_Z (match x with Some q => ToUint 8 q | None => 0 end)) array.

(** The same loop on a [Uint8Array]: the store converts with
    [ToUint8]. *)
Fixpoint fill_bytes (chars : list ascii) (i : nat) (bytes : list byte) : list byte :=
  match chars with
  | [] => bytes
  | c :: rest => fill_bytes rest (S i) (<[i := byte_of_Z (ToUint 8 (charCodeAt c))]> bytes)
  end.

(** The bytes of a binary string. *)
Definition char_bytes (s : string) : list byte :=
  map (fun c => byte_of_Z (Z.of_N (N_of_ascii c))) (list_ascii_of_string s).

(** The response of the model, as far as [generateSpeech] reads it. *)
Record InlineData := { mimeType : option string; data : option string }.
Record Part := { inlineData : option InlineData }.
Record Content := { parts : option (list Part) }.
Record Candidate := { content : option Content }.
Record GenerateContentResponse := { candidates : option (list Candidate) }.

(** The request [generateSpeech] sends. *)
Record GenerateContentRequest := {
  request_apiKey : string;
  request_model : string;
  request_text : string;
  request_voiceName : string
}.

(** [!x] on an optional string: [undefined] and the empty string are
    falsy. *)
Definition falsy (x : option string) : bool :=
  match x with
  | Some s => String.eqb s ""
  | None => true
  end.

(** The callback of [parts.find]:
    [p => p.inlineData?.mimeType?.startsWith('audio')]. *)
Definition is_audio_part (p : Part) : bool :=
  match inlineData p with
  | Some d =>
      match mimeType d with
      | Some m => String.prefix "audio" m
      | None => false
      end
  | None => false
  end.

Section Base64.

(** The platform's [atob]: the binary string a base64 string stands
    for, or [None] when it throws. A binary string has one character
    per byte. *)
Variable atob : string → option string.

(** The platform's answer to a request to the model. *)
Variable generateContent : GenerateContentRequest → Outcome GenerateContentResponse.

(** utils/audio.ts *)
Definition base64ToBlob (base64 : string) (type : option string) : Outcome Blob :=
  match atob base64 with
  | None => Threw InvalidCharacterError
  | Some byteCharacters =>
      let byteNumbers := replicate (String.length byteCharacters) None in
      let byteNumbers := fill_numbers (list_ascii_of_string byteCharacters) 0 byteNumbers in
      let byteArray := Uint8Array_from byteNumbers in
      Returned {| blob_bytes := byteArray; blob_type := default "audio/mp3"%string type |}
  end.

(** services/geminiService.ts *)
Definition generateSpeech (API_KEY : option string) (text : string) (voice : option string)
    : Outcome Blob :=
  let voiceName := default "Kore"%string voice in
  match API_KEY with
  | None => Threw (JsError "API Key is missing. Please check your environment configuration.")
  | Some apiKey =>
    if String.eqb apiKey "" then
      Threw (JsError "API Key is missing. Please check your environment configuration.")
    else
      (* Using the Flash TTS model *)
      let model := "gemini-2.5-flash-preview-tts"%string in
      match generateContent {| request_apiKey := apiKey; request_model := model;
                               request_text := text; request_voiceName := voiceName |} with
      | Threw t => Threw t
      | Returned response =>
        match candidates response with
        | None | Some [] => Threw (JsError "No candidates returned from Gemini API")
        | Some (first :: _) =>
          let audioPart :=
            match content first with
            | Some c => match parts c with Some ps => find is_audio_part ps | None => None end
            | None => None
            end in
          let base64Data :=
            match audioPart with
            | Some p => match inlineData p with Some d => data d | None => None end
            | None => None
            end in
          if falsy base64Data then Threw (JsError "No audio data found in the response.")
          else
            (* Step 1: Decode the base64 to a Uint8Array (PCM data) *)
            match atob (default ""%string base64Data) with
            | None => Threw InvalidCharacterError
            | Some binaryString =>
              let len := String.length binaryString in
              let bytes := replicate len "000"%byte in
              let bytes := fill_bytes (list_ascii_of_string binaryString) 0 bytes in
              (* Step 2: Create a WAV header for the PCM data *)
              match createWavFile bytes 24000 1 16 with
              | Ok wavBlob => Returned wavBlob
              | Throw e => Threw (Raised e)
              end
            end
        end
      end
  end.

End Base64.

(** *** Sample platform answers *)

(** A stand-in for [atob] on two inputs. *)
Definition sample_atob (base64 : string) : option string :=
  if String.eqb base64 "QUJD" then Some "ABC"%string
  else if String.eqb base64 "QQ==" then Some "A"%string
  else None.

Definition sample_part (type base64 : string) : Part :=
  {| inlineData := Some {| mimeType := Some type; data := Some base64 |} |}.

Definition sample_candidate (ps : list Part) : Candidate :=
  {| content := Some {| parts := Some ps |} |}.

(** The model answers with two candidates; only the second one holds
    audio. *)
Definition audio_in_second_candidate (_ : GenerateContentRequest)
    : Outcome GenerateContentResponse :=
  Returned {| candidates := Some [sample_candidate [sample_part "text/plain" "QUJD"];
                                  sample_candidate [sample_part "audio/L16" "QUJD"]] |}.

(** The model answers with one candidate whose second part is
    audio. *)
Definition audio_in_second_part (_ : GenerateContentRequest)
    : Outcome GenerateContentResponse :=
  Returned {| candidates := Some [sample_candidate [sample_part "text/plain" "QQ==";
                                                    sample_part "audio/L16" "QUJD"]] |}.

(** * The user interface

    The components are embedded as state machines. The state of a
    component is the record of its [useState] cells; a handler maps it
    to the next state and to the list, in program order, of what the
    handler asks of the outside: calls into [utils/audio.ts] and
    [utils/db.ts], DOM calls, timers and the callbacks of its props.
    Strings are sequences of code units. *)

(** ** types.ts *)

Module Types.

Record SoundPadData := {
  id : string;
  name : string;
  color : string;
  volume : Q;
  shortcut : option string;
  audioBlob : option Blob   (* The actual audio data *)
}.

Module PadColor.
Definition RED : string := "bg-red-500".
Definition ORANGE : string := "bg-orange-500".
Definition AMBER : string := "bg-amber-500".
Definition GREEN : string := "bg-green-500".
Definition EMERALD : string := "bg-emerald-500".
Definition TEAL : string := "bg-teal-500".
Definition CYAN : string := "bg-cyan-500".
Definition SKY : string := "bg-sky-500".
Definition BLUE : string := "bg-blue-500".
Definition INDIGO : string := "bg-indigo-500".
Definition VIOLET : string := "bg-violet-500".
Definition PURPLE : string := "bg-purple-500".
Definition FUCHSIA : string := "bg-fuchsia-500".
Definition PINK : string := "bg-pink-500".
Definition ROSE : string := "bg-rose-500".
Definition SLATE : string := "bg-slate-500".
End PadColor.

Inductive ModalTab :=
| UPLOAD
| AI_GENERATE.

End Types.

(** ** What a handler asks of the outside *)

(** The two callbacks the code passes to [setTimeout] outside
    [utils/audio.ts]. *)
Inductive Callback :=
| ResetIsPlaying        (* () => setIsPlaying(false) *)
| ResetTriggeredPadId.  (* () => setTriggeredPadId(null) *)

Inductive Request :=
(* utils/audio.ts *)
| PlayAudioBlob (blob : Blob) (volume : Q)
| StopAllSounds
| FadeOutAllSounds (duration : Q)
| SetMasterVolume (volume : Q)
(* utils/db.ts *)
| SavePadToDB (pad : Types.SoundPadData)
| DeletePadFromDB (id : string)
(* the DOM *)
| PreventDefault
| StopPropagation
| Blur
| SetTimeout (callback : Callback) (ms : Z)
| ConsoleError (message : string)
| Alert (message : string)
| AudioElementPlay (blob : Blob)   (* new Audio(URL.createObjectURL(blob)).play() *)
(* the props of the component *)
| OnEdit
| OnDelete
| OnPlay
| OnSave (name color : string) (blob : option Blob) (volume : Q) (shortcut : option string)
| OnClose.

(** The call into [utils/audio.ts] a request stands for, as an event
    of the playback coordinator. *)
Definition audio_call (r : Request) : option Event :=
  match r with
  | PlayAudioBlob blob volume => Some (CallPlayAudioBlob blob volume)
  | StopAllSounds => Some CallStopAllSounds
  | FadeOutAllSounds duration => Some (CallFadeOutAllSounds duration)
  | SetMasterVolume volume => Some (CallSetMasterVolume volume)
  | _ => None
  end.

(** ** Keyboard events *)

Inductive Target :=
| HTMLInputElement
| HTMLTextAreaElement
| OtherTarget.

Record KeyboardEvent := {
  key : string;
  ctrlKey : bool;
  shiftKey : bool;
  altKey : bool;
  metaKey : bool;
  target : Target
}.

(** [array.includes(s)] on an array of strings. *)
Definition includes (array : list string) (s : string) : bool :=
  existsb (String.eqb s) array.

(** [!s] on a string. *)
Definition blank (s : string) : bool := String.eqb s "".

(** ** components/EditModal.tsx *)

Module EditModal.

(** A [File] is a [Blob] with a name. *)
Record File := { file_name : string; file_blob : Blob }.

Record Props := {
  isOpen : bool;
  initialName : option string;
  initialColor : option string;
  initialVolume : option Q;
  initialShortcut : option string
}.

Record Modal := {
  name : string;
  color : string;
  volume : Q;
  shortcut : string;
  activeTab : Types.ModalTab;
  (* File Upload State *)
  selectedFile : option File;
  (* AI Gen State *)
  prompt : string;
  isGenerating : bool;
  generatedBlob : option Blob;
  aiError : option string;
  selectedVoice : string;
  (* Shortcut Recording *)
  isRecordingShortcut : bool
}.

Definition setName (x : string) (st : Modal) : Modal :=
  {| name := x; color := color st; volume := volume st; shortcut := shortcut st;
     activeTab := activeTab st; selectedFile := selectedFile st; prompt := prompt st;
     isGenerating := isGenerating st; generatedBlob := generatedBlob st;
     aiError := aiError st; selectedVoice := selectedVoice st;
     isRecordingShortcut := isRecordingShortcut st |}.

Definition setColor (x : string) (st : Modal) : Modal :=
  {| name := name st; color := x; volume := volume st; shortcut := shortcut st;
     activeTab := activeTab st; selectedFile := selectedFile st; prompt := prompt st;
     isGenerating := isGenerating st; generatedBlob := generatedBlob st;
     aiError := aiError st; selectedVoice := selectedVoice st;
     isRecordingShortcut := isRecordingShortcut st |}.

Definition setVolume (x : Q) (st : Modal) : Modal :=
  {| name := name st; color := color st; volume := x; shortcut := shortcut st;
     activeTab := activeTab st; selectedFile := selectedFile st; prompt := prompt st;
     isGenerating := isGenerating st; generatedBlob := generatedBlob st;
     aiError := aiError st; selectedVoice := selectedVoice st;
     isRecordingShortcut := isRecordingShortcut st |}.

Definition setShortcut (x : string) (st : Modal) : Modal :=
  {| name := name st; color := color st; volume := volume st; shortcut := x;
     activeTab := activeTab st; selectedFile := selectedFile st; prompt := prompt st;
     isGenerating := isGenerating st; generatedBlob := generatedBlob st;
     aiError := aiError st; selectedVoice := selectedVoice st;
     isRecordingShortcut := isRecordingShortcut st |}.

Definition setActiveTab (x : Types.ModalTab) (st : Modal) : Modal :=
  {| name := name st; color := color st; volume := volume st; shortcut := shortcut st;
     activeTab := x; selectedFile := selectedFile st; prompt := prompt st;
     isGenerating := isGenerating st; generatedBlob := generatedBlob st;
     aiError := aiError st; selectedVoice := selectedVoice st;
     isRecordingShortcut := isRecordingShortcut st |}.

Definition setSelectedFile (x : option File) (st : Modal) : Modal :=
  {| name := name st; color := color st; volume := volume st; shortcut := shortcut st;
     activeTab := activeTab st; selectedFile := x; prompt := prompt st;
     isGenerating := isGenerating st; generatedBlob := generatedBlob st;
     aiError := aiError st; selectedVoice := selectedVoice st;
     isRecordingShortcut := isRecordingShortcut st |}.

Definition setPrompt (x : string) (st : Modal) : Modal :=
  {| name := name st; color := color st; volume := volume st; shortcut := shortcut st;
     activeTab := activeTab st; selectedFile := selectedFile st; prompt := x;
     isGenerating := isGenerating st; generatedBlob := generatedBlob st;
     aiError := aiError st; selectedVoice := selectedVoice st;
     isRecordingShortcut := isRecordingShortcut st |}.

Definition setIsGenerating (x : bool) (st : Modal) : Modal :=
  {| name := name st; color := color st; volume := volume st; shortcut := shortcut st;
     activeTab := activeTab st; selectedFile := selectedFile st; prompt := prompt st;
     isGenerating := x; generatedBlob := generatedBlob st;
     aiError := aiError st; selectedVoice := selectedVoice st;
     isRecordingShortcut := isRecordingShortcut st |}.

Definition setGeneratedBlob (x : option Blob) (st : Modal) : Modal :=
  {| name := name st; color := color st; volume := volume st; shortcut := shortcut st;
     activeTab := activeTab st; selectedFile := selectedFile st; prompt := prompt st;
     isGenerating := isGenerating st; generatedBlob := x;
     aiError := aiError st; selectedVoice := selectedVoice st;
     isRecordingShortcut := isRecordingShortcut st |}.

Definition setAiError (x : option string) (st : Modal) : Modal :=
  {| name := name st; color := color st; volume := volume st; shortcut := shortcut st;
     activeTab := activeTab st; selectedFile := selectedFile st; prompt := prompt st;
     isGenerating := isGenerating st; generatedBlob := generatedBlob st;
     aiError := x; selectedVoice := selectedVoice st;
     isRecordingShortcut := isRecordingShortcut st |}.

Definition setSelectedVoice (x : string) (st : Modal) : Modal :=
  {| name := name st; color := color st; volume := volume st; shortcut := shortcut st;
     activeTab := activeTab st; selectedFile := selectedFile st; prompt := prompt st;
     isGenerating := isGenerating st; generatedBlob := generatedBlob st;
     aiError := aiError st; selectedVoice := x;
     isRecordingShortcut := isRecordingShortcut st |}.

Definition setIsRecordingShortcut (x : bool) (st : Modal) : Modal :=
  {| name := name st; color := color st; volume := volume st; shortcut := shortcut st;
     activeTab := activeTab st; selectedFile := selectedFile st; prompt := prompt st;
     isGenerating := isGenerating st; generatedBlob := generatedBlob st;
     aiError := aiError st; selectedVoice := selectedVoice st;
     isRecordingShortcut := x |}.

(** The state on the first render: the [useState] initial values, the
    props taking their defaults. *)
Definition mount (props : Props) : Modal :=
  {| name := default ""%string (initialName props);
     color := default Types.PadColor.BLUE (initialColor props);
     volume := default 1%Q (initialVolume props);
     shortcut := default ""%string (initialShortcut props);
     activeTab := Types.UPLOAD;
     selectedFile := None;
     prompt := "";
     isGenerating := false;
     generatedBlob := None;
     aiError := None;
     selectedVoice := "Kore";
     isRecordingShortcut := false |}.

(** The effect that resets the state when the modal opens. *)
Definition resetOnOpen (props : Props) (st : Modal) : Modal :=
  if isOpen props then
    let st := setName (default ""%string (initialName props)) st in
    let st := setColor (default Types.PadColor.BLUE (initialColor props)) st in
    let st := setVolume (default 1%Q (initialVolume props)) st in
    let st := setShortcut (default ""%string (initialShortcut props)) st in
    let st := setSelectedFile None st in
    let st := setGeneratedBlob None st in
    let st := setPrompt "" st in
    setAiError None st
  else st.

(** The regular expression [/\.[^/.]+$/] matches at the very start of
    [s]: a dot, then one or more characters other than [/] and [.],
    up to the end of the string. *)
Definition extension_here (s : string) : bool :=
  match s with
  | String "." (String c rest) =>
      forallb (fun c => negb (Ascii.eqb c "/") && negb (Ascii.eqb c "."))
              (list_ascii_of_string (String c rest))
  | _ => false
  end.

(** [s.replace(/\.[^/.]+$/, "")]: the leftmost match, which runs to
    the end of the string, is replaced by the empty string. *)
Fixpoint remove_extension (s : string) : string :=
  if extension_here s then ""%string
  else
    match s with
    | EmptyString => EmptyString
    | String c rest => String c (remove_extension rest)
    end.

Definition handleFileChange (files : option (list File)) (st : Modal) : Modal :=
  match files with
  | Some (file :: _) =>
      let st' := setSelectedFile (Some file) st in
      (* Auto-set name if empty *)
      if blank (name st) then setName (remove_extension (file_name file)) st' else st'
  | _ => st
  end.

(** What an invocation of [handleGenerate] holds in its closure while
    it waits for [generateSpeech]: the values of the render in which
    the button was clicked. *)
Record Generation := {
  rendered_name : string;
  rendered_prompt : string;
  rendered_voice : string
}.

(** [handleGenerate] up to its [await]. *)
Definition handleGenerate (st : Modal) : Modal * option Generation :=
  if blank (prompt st) then (st, None)
  else
    let st' := setIsGenerating true st in
    let st' := setAiError None st' in
    (st', Some {| rendered_name := name st; rendered_prompt := prompt st;
                  rendered_voice := selectedVoice st |}).

Section Generate.

(** [err.message] of an exception that was not built with
    [new Error(message)]. *)
Variable platform_message : Thrown → option string.

Definition message (err : Thrown) : option string :=
  match err with
  | JsError m => Some m
  | _ => platform_message err
  end.

(** [handleGenerate] after its [await]: [generateSpeech] has settled
    with [outcome]. *)
Definition handleGenerate_settled (g : Generation) (outcome : Outcome Blob) (st : Modal)
    : Modal :=
  let st :=
    match outcome with
    | Returned blob =>
        let st := setGeneratedBlob (Some blob) st in
        if blank (rendered_name g) then
          setName (String.append (String.substring 0 15 (rendered_prompt g))
                     (if (15 <? String.length (rendered_prompt g))%nat then "..." else ""))
                  st
        else st
    | Threw err =>
        setAiError (Some (if falsy (message err) then "Failed to generate speech"%string
                          else default ""%string (message err))) st
    end in
  setIsGenerating false st.

(** A click on Generate with nothing happening in the modal until
    [generateSpeech] has settled. *)
Definition handleGenerate_uninterrupted (atob : string → option string)
    (generateContent : GenerateContentRequest → Outcome GenerateContentResponse)
    (API_KEY : option string) (st : Modal) : Modal :=
  match handleGenerate st with
  | (st', Some g) =>
      handleGenerate_settled g
        (generateSpeech atob generateContent API_KEY (rendered_prompt g)
                        (Some (rendered_voice g))) st'
  | (st', None) => st'
  end.

End Generate.

Definition handleSave (st : Modal) : Modal * list Request :=
  let blobToSave :=
    match activeTab st, selectedFile st with
    | Types.UPLOAD, Some file => Some (file_blob file)
    | _, _ =>
        match activeTab st, generatedBlob st with
        | Types.AI_GENERATE, Some blob => Some blob
        | _, _ => None
        end
    end in
  (st, [OnSave (name st) (color st) blobToSave (volume st) (Some (shortcut st)); OnClose]).

(** The Preview button. It is rendered on the AI tab once a blob has
    been generated; its [onClick] plays the blob through an audio
    element of its own, outside [utils/audio.ts]. [None]: the button
    is not rendered. *)
Definition handlePreviewClick (st : Modal) : option (list Request) :=
  match activeTab st, generatedBlob st with
  | Types.AI_GENERATE, Some generatedBlob =>
      (* Quick preview *)
      Some [AudioElementPlay generatedBlob]
  | _, _ => None
  end.

Section Shortcut.

(** The platform's [String.prototype.toUpperCase]. *)
Variable toUpperCase : string → string.

Definition handleShortcutKeyDown (e : KeyboardEvent) (st : Modal) : Modal * list Request :=
  (* Ignore standalone modifier keys *)
  if includes ["Control"; "Shift"; "Alt"; "Meta"]%string (key e) then
    (st, [PreventDefault; StopPropagation])
  (* Handle Backspace/Delete to clear *)
  else if String.eqb (key e) "Backspace" || String.eqb (key e) "Delete" then
    let st := setShortcut "" st in
    let st := setIsRecordingShortcut false st in
    (st, [PreventDefault; StopPropagation; Blur])
  else
    let parts := [] in
    let parts := if ctrlKey e then parts ++ ["Ctrl"%string] else parts in
    let parts := if shiftKey e then parts ++ ["Shift"%string] else parts in
    let parts := if altKey e then parts ++ ["Alt"%string] else parts in
    let parts := if metaKey e then parts ++ ["Meta"%string] else parts in
    (* Normalize key *)
    let key := key e in
    let key := if String.eqb key " " then "Space"%string else key in
    let key := if (String.length key =? 1)%nat then toUpperCase key else key in
    let parts := parts ++ [key] in
    let st := setShortcut (String.concat "+" parts) st in
    (* Stop recording after capturing valid combo *)
    let st := setIsRecordingShortcut false st in
    (st, [PreventDefault; StopPropagation; Blur]).

End Shortcut.

End EditModal.

(** ** components/Pad.tsx *)

Module Pad.

Record Props := {
  data : Types.SoundPadData;
  isEditMode : bool
}.

Record Local := {
  isPlaying : bool;
  isHovered : bool
}.

Definition setIsPlaying (x : bool) (st : Local) : Local :=
  {| isPlaying := x; isHovered := isHovered st |}.

Definition handlePlayClick (props : Props) (st : Local) : Local * list Request :=
  if isEditMode props then (st, [])
  else
    match Types.audioBlob (data props) with
    | None => (st, [])
    | Some audioBlob =>
        (setIsPlaying true st,
         [SetTimeout ResetIsPlaying 200;
          OnPlay;   (* Notify parent to coordinate play *)
          PlayAudioBlob audioBlob (Types.volume (data props))])
    end.

Definition handleClick (props : Props) (st : Local) : Local * list Request :=
  if isEditMode props then (st, [OnEdit])
  else handlePlayClick props st.

(** The delete button is rendered in edit mode on a pad that has
    audio. *)
Definition delete_rendered (props : Props) : bool :=
  isEditMode props && bool_decide (is_Some (Types.audioBlob (data props))).

(** Its [onClick]. *)
Definition handleDeleteClick : list Request := [StopPropagation; OnDelete].

End Pad.

(** ** App.tsx *)

Module App.
Import Types.

Definition TOTAL_PADS : nat := 16.  (* 4x4 Grid *)

Record AppState := {
  pads : list SoundPadData;
  isEditMode : bool;
  (* Audio State *)
  masterVolume : Q;
  fadeDuration : Q;
  (* Visual Trigger State (for keyboard feedback) *)
  triggeredPadId : option string;
  (* Modal State *)
  isModalOpen : bool;
  editingPadId : option string;
  (* Ref for pads to access in event listeners *)
  padsRef : list SoundPadData
}.

Definition setPads (x : list SoundPadData) (app : AppState) : AppState :=
  {| pads := x; isEditMode := isEditMode app; masterVolume := masterVolume app;
     fadeDuration := fadeDuration app; triggeredPadId := triggeredPadId app;
     isModalOpen := isModalOpen app; editingPadId := editingPadId app;
     padsRef := padsRef app |}.

Definition setIsEditMode (x : bool) (app : AppState) : AppState :=
  {| pads := pads app; isEditMode := x; masterVolume := masterVolume app;
     fadeDuration := fadeDuration app; triggeredPadId := triggeredPadId app;
     isModalOpen := isModalOpen app; editingPadId := editingPadId app;
     padsRef := padsRef app |}.

Definition setMasterVolumeState (x : Q) (app : AppState) : AppState :=
  {| pads := pads app; isEditMode := isEditMode app; masterVolume := x;
     fadeDuration := fadeDuration app; triggeredPadId := triggeredPadId app;
     isModalOpen := isModalOpen app; editingPadId := editingPadId app;
     padsRef := padsRef app |}.

Definition setFadeDuration (x : Q) (app : AppState) : AppState :=
  {| pads := pads app; isEditMode := isEditMode app; masterVolume := masterVolume app;
     fadeDuration := x; triggeredPadId := triggeredPadId app;
     isModalOpen := isModalOpen app; editingPadId := editingPadId app;
     padsRef := padsRef app |}.

Definition setTriggeredPadId (x : option string) (app : AppState) : AppState :=
  {| pads := pads app; isEditMode := isEditMode app; masterVolume := masterVolume app;
     fadeDuration := fadeDuration app; triggeredPadId := x;
     isModalOpen := isModalOpen app; editingPadId := editingPadId app;
     padsRef := padsRef app |}.

Definition setIsModalOpen (x : bool) (app : AppState) : AppState :=
  {| pads := pads app; isEditMode := isEditMode app; masterVolume := masterVolume app;
     fadeDuration := fadeDuration app; triggeredPadId := triggeredPadId app;
     isModalOpen := x; editingPadId := editingPadId app;
     padsRef := padsRef app |}.

Definition setEditingPadId (x : option string) (app : AppState) : AppState :=
  {| pads := pads app; isEditMode := isEditMode app; masterVolume := masterVolume app;
     fadeDuration := fadeDuration app; triggeredPadId := triggeredPadId app;
     isModalOpen := isModalOpen app; editingPadId := x;
     padsRef := padsRef app |}.

(** The effect [padsRef.current = pads], run after a render in which
    [pads] changed. *)
Definition commit (app : AppState) : AppState :=
  {| pads := pads app; isEditMode := isEditMode app; masterVolume := masterVolume app;
     fadeDuration := fadeDuration app; triggeredPadId := triggeredPadId app;
     isModalOpen := isModalOpen app; editingPadId := editingPadId app;
     padsRef := pads app |}.

(** The state on the first render. *)
Definition mount : AppState :=
  {| pads := []; isEditMode := false; masterVolume := 1; fadeDuration := 2;
     triggeredPadId := None; isModalOpen := false; editingPadId := None;
     padsRef := [] |}.

(** The decimal digits of [i], as a template literal prints a
    number. *)
Definition decimal (i : nat) : string :=
  DecimalString.NilEmpty.string_of_uint (Nat.to_uint i).

(** Create skeleton pads *)
Definition skeletonPads : list SoundPadData :=
  map (fun i => {| id := String.append "pad-" (decimal i);
                   name := "Empty";
                   color := PadColor.SLATE;
                   volume := 1;
                   shortcut := None;
                   audioBlob := None |})
      (seq 0 TOTAL_PADS).

(** [initPads] once [getPadsFromDB] has settled with [answer]. *)
Definition initPads (answer : Outcome (list SoundPadData)) (app : AppState)
    : AppState * list Request :=
  match answer with
  | Returned storedPads =>
      (* Merge stored pads into skeleton *)
      let merged :=
        map (fun sk =>
               match find (fun sp => String.eqb (id sp) (id sk)) storedPads with
               | Some found => found
               | None => sk
               end) skeletonPads in
      (setPads merged app, [])
  | Threw e =>
      (setPads skeletonPads app, [ConsoleError "Failed to load pads from DB"])
  end.

Section Keyboard.

(** The platform's [String.prototype.toUpperCase]. *)
Variable toUpperCase : string → string.

(** Global Keyboard Listener *)
Definition handleGlobalKeyDown (e : KeyboardEvent) (app : AppState)
    : AppState * list Request :=
  (* Ignore if user is typing in an input/textarea *)
  match target e with
  | HTMLInputElement | HTMLTextAreaElement => (app, [])
  | OtherTarget =>
    (* Ignore standalone modifiers *)
    if includes ["Control"; "Shift"; "Alt"; "Meta"]%string (key e) then (app, [])
    else
      let parts := [] in
      let parts := if ctrlKey e then parts ++ ["Ctrl"%string] else parts in
      let parts := if shiftKey e then parts ++ ["Shift"%string] else parts in
      let parts := if altKey e then parts ++ ["Alt"%string] else parts in
      let parts := if metaKey e then parts ++ ["Meta"%string] else parts in
      let key := key e in
      let key := if String.eqb key " " then "Space"%string else key in
      let key := if (String.length key =? 1)%nat then toUpperCase key else key in
      let parts := parts ++ [key] in
      let combo := String.concat "+" parts in
      let pad := find (fun p => match shortcut p with
                                | Some s => String.eqb s combo
                                | None => false
                                end) (padsRef app) in
      (* If we found a pad with this shortcut and it has audio *)
      match pad with
      | Some pad =>
          match audioBlob pad with
          | Some blob =>
              (setTriggeredPadId (Some (id pad)) app,
               [PreventDefault;
                SetTimeout ResetTriggeredPadId 200;
                (* Play Sound (Solo Logic is built into playAudioBlob) *)
                PlayAudioBlob blob (volume pad)])
          | None => (app, [])
          end
      | None => (app, [])
      end
  end.

End Keyboard.

Definition handleEditPad (id : string) (app : AppState) : AppState :=
  let app := setEditingPadId (Some id) app in
  setIsModalOpen true app.

(** [handleSavePad] up to its [await]; [or_else] is [a || b] on
    optional blobs. *)
Definition or_else (a b : option Blob) : option Blob :=
  match a with
  | Some _ => a
  | None => b
  end.

Definition handleSavePad (name color : string) (blob : option Blob) (volume : Q)
    (shortcut : option string) (app : AppState) : AppState * list Request :=
  if falsy (editingPadId app) then (app, [])
  else
    let editingPadId := default ""%string (editingPadId app) in
    (* Determine if we are updating an existing pad with data or creating new *)
    let existingPad := find (fun p => String.eqb (id p) editingPadId) (pads app) in
    (* If no blob is provided and we are just changing name/color/volume, keep old blob *)
    let finalBlob := or_else blob (existingPad ≫= audioBlob) in
    match finalBlob with
    | None => (app, [])
    | Some finalBlob =>
        let newPadData :=
          {| id := editingPadId;
             name := name;
             color := color;
             volume := volume;
             shortcut := shortcut;   (* Save shortcut *)
             audioBlob := Some finalBlob |} in
        (* Optimistic Update *)
        let app := setPads (map (fun p => if String.eqb (id p) editingPadId
                                          then newPadData else p) (pads app)) app in
        (* Persist *)
        (app, [SavePadToDB newPadData])
    end.

(** The [catch] of [handleSavePad]: [savePadToDB] has rejected. *)
Definition handleSavePad_rejected : list Request :=
  [ConsoleError "Failed to save to DB";
   Alert "Could not save sound. Storage might be full."].

(** [handleDeletePad] up to its [await]; [confirmed] is the answer of
    [window.confirm]. *)
Definition handleDeletePad (id : string) (confirmed : bool) (app : AppState)
    : AppState * list Request :=
  if negb confirmed then (app, [])
  else
    (* Reset to empty state *)
    let emptyPad :=
      {| Types.id := id;
         name := "Empty";
         color := PadColor.SLATE;
         volume := 1;
         shortcut := None;
         audioBlob := None |} in
    let app := setPads (map (fun p => if String.eqb (Types.id p) id then emptyPad else p)
                            (pads app)) app in
    (app, [DeletePadFromDB id]).

(** The [catch] of [handleDeletePad]. *)
Definition handleDeletePad_rejected : list Request :=
  [ConsoleError "Failed to delete from DB"].

(** [val] is what [parseFloat(e.target.value)] gave. *)
Definition handleMasterVolumeChange (val : Q) (app : AppState) : AppState * list Request :=
  (setMasterVolumeState val app, [SetMasterVolume val]).

Definition handleFadeOut (app : AppState) : AppState * list Request :=
  (app, [FadeOutAllSounds (fadeDuration app)]).

(** *** The component as a whole *)

(** How the requests of a child reach [App]: the callbacks it passes
    as props run, everything else goes on to the outside. [pad] is
    the identifier of the pad whose [Pad] made the request. *)
Fixpoint deliver (pad : string) (confirmed : bool) (requests : list Request)
    (app : AppState) : AppState * list Request :=
  match requests with
  | [] => (app, [])
  | r :: rest =>
      let '(app, out) :=
        match r with
        | OnEdit => (handleEditPad pad app, [])
        | OnDelete => handleDeletePad pad confirmed app
        | OnPlay => (app, [])   (* Local play is handled by Pad click, logic is in Pad *)
        | OnSave name color blob volume shortcut =>
            handleSavePad name color blob volume shortcut app
        | OnClose => (setIsModalOpen false app, [])
        | _ => (app, [r])
        end in
      let '(app, out') := deliver pad confirmed rest app in
      (app, out ++ out')
  end.

(** What can happen to the page. The state of the modal is not part
    of the page: the actions on the modal that reach the page or play
    audio ([ClickSave], [ClickPreview]) come with the state the
    modal is in, which can be any; its other controls change that
    state only. *)
Inductive Action :=
| PadsLoaded (answer : Outcome (list SoundPadData))
| KeyDown (e : KeyboardEvent)
| ClickPad (i : nat) (local : Pad.Local)
| ClickDelete (i : nat) (confirmed : bool)
| ClickSave (modal : EditModal.Modal)
| ClickPreview (modal : EditModal.Modal)
| ClickCancel
| ClickMode (edit : bool)
| ChangeMasterVolume (val : Q)
| ChangeFadeDuration (val : Q)
| ClickFade
| ClickStopAll
| SavePadRejected
| DeletePadRejected
| TimerElapsed (callback : Callback).

Section Page.

Variable toUpperCase : string → string.

Definition handle (a : Action) (app : AppState) : AppState * list Request :=
  match a with
  | PadsLoaded answer => initPads answer app
  | KeyDown e => handleGlobalKeyDown toUpperCase e app
  | ClickPad i local =>
      match pads app !! i with
      | Some pad =>
          let props := {| Pad.data := pad; Pad.isEditMode := isEditMode app |} in
          deliver (id pad) false (snd (Pad.handleClick props local)) app
      | None => (app, [])
      end
  | ClickDelete i confirmed =>
      match pads app !! i with
      | Some pad =>
          let props := {| Pad.data := pad; Pad.isEditMode := isEditMode app |} in
          if Pad.delete_rendered props
          then deliver (id pad) confirmed Pad.handleDeleteClick app
          else (app, [])
      | None => (app, [])
      end
  | ClickSave modal =>
      if isModalOpen app
      then deliver ""%string false (snd (EditModal.handleSave modal)) app
      else (app, [])
  | ClickPreview modal =>
      if isModalOpen app
      then (app, default [] (EditModal.handlePreviewClick modal))
      else (app, [])
  | ClickCancel =>
      if isModalOpen app then (setIsModalOpen false app, []) else (app, [])
  | ClickMode edit => (setIsEditMode edit app, [])
  | ChangeMasterVolume val => handleMasterVolumeChange val app
  | ChangeFadeDuration val => (setFadeDuration val app, [])
  | ClickFade => handleFadeOut app
  | ClickStopAll => (app, [StopAllSounds])
  | SavePadRejected => (app, handleSavePad_rejected)
  | DeletePadRejected => (app, handleDeletePad_rejected)
  | TimerElapsed ResetTriggeredPadId => (setTriggeredPadId None app, [])
  | TimerElapsed ResetIsPlaying => (app, [])
  end.

(** *** The page: the component and the playback coordinator *)

Inductive PageEvent :=
| User (a : Action)
| Audio (ev : Event).

(** The page: the component, the playback coordinator, and the blobs
    handed to audio elements by the Preview button, oldest first. The
    page keeps no reference to these elements: they play outside the
    coordinator. *)
Record Page := { app : AppState; audio : State; previews : list Blob }.

(** The calls into [utils/audio.ts] among the requests, in order. *)
Definition audio_calls (requests : list Request) : list Event :=
  omap audio_call requests.

(** The blobs handed to audio elements among the requests, in
    order. *)
Definition element_plays (requests : list Request) : list Blob :=
  omap (fun r => match r with AudioElementPlay blob => Some blob | _ => None end) requests.

Definition page_step (p : Page) (ev : PageEvent) : Page :=
  match ev with
  | User a =>
      let '(app', requests) := handle a (app p) in
      {| app := commit app'; audio := run (audio p) (audio_calls requests);
         previews := previews p ++ element_plays requests |}
  | Audio ev => {| app := app p; audio := step (audio p) ev; previews := previews p |}
  end.

Definition page_run (p : Page) (trace : list PageEvent) : Page := foldl page_step p trace.

Definition page_initial (autoplay nodes : bool) : Page :=
  {| app := mount; audio := initial autoplay nodes; previews := [] |}.

End Page.

End App.

(** *** Sample inputs of the interface *)

(** [toUpperCase] on the letters a, b and c. *)
Definition sample_toUpperCase (s : string) : string :=
  if String.eqb s "a" then "A"%string
  else if String.eqb s "b" then "B"%string
  else if String.eqb s "c" then "C"%string
  else s.

(** The combination both keyboard handlers build for a key press:
    the modifiers held, in the order Ctrl, Shift, Alt, Meta, then the
    normalised key, joined by [+]. *)
Definition combination (toUpperCase : string → string) (e : KeyboardEvent) : string :=
  let parts := [] in
  let parts := if ctrlKey e then parts ++ ["Ctrl"%string] else parts in
  let parts := if shiftKey e then parts ++ ["Shift"%string] else parts in
  let parts := if altKey e then parts ++ ["Alt"%string] else parts in
  let parts := if metaKey e then parts ++ ["Meta"%string] else parts in
  let key := key e in
  let key := if String.eqb key " " then "Space"%string else key in
  let key := if (String.length key =? 1)%nat then toUpperCase key else key in
  let parts := parts ++ [key] in
  String.concat "+" parts.

(** The press of Ctrl and the letter a in the recorder of the modal,
    a freshly opened modal, a pad and a component state showing the
    given pads. *)
Definition sample_press : KeyboardEvent :=
  {| key := "a"; ctrlKey := true; shiftKey := false; altKey := false; metaKey := false;
     target := HTMLInputElement |}.

Definition sample_modal : EditModal.Modal :=
  EditModal.mount {| EditModal.isOpen := true; EditModal.initialName := None;
                     EditModal.initialColor := None; EditModal.initialVolume := None;
                     EditModal.initialShortcut := None |}.

Definition sample_pad (i : nat) (shortcut : option string) (blob : option Blob)
    : Types.SoundPadData :=
  {| Types.id := String.append "pad-" (App.decimal i); Types.name := "Sound";
     Types.color := Types.PadColor.BLUE; Types.volume := 1;
     Types.shortcut := shortcut; Types.audioBlob := blob |}.

Definition sample_app (pads : list Types.SoundPadData) : App.AppState :=
  App.commit (App.setPads pads App.mount).

(** A string without [/] and [.]: what [[^/.]*] matches. *)
Definition plain (s : string) : bool :=
  forallb (fun c => negb (Ascii.eqb c "/") && negb (Ascii.eqb c "."))
          (list_ascii_of_string s).

(** ** Properties of the grid *)

(** The pads are those of the skeleton, as far as their identifiers
    go: sixteen pads, [pad-0] to [pad-15] in this order. *)
Definition grid_shaped (pads : list Types.SoundPadData) : Prop :=
  map Types.id pads = map Types.id App.skeletonPads.

(** Every pad that has a shortcut has audio. *)
Definition audible_shortcuts (pads : list Types.SoundPadData) : Prop :=
  Forall (fun p => is_Some (Types.shortcut p) → is_Some (Types.audioBlob p)) pads.

(** Whenever the database answers with stored pads, those with a
    shortcut have audio. *)
Definition stored_audible (ev : App.PageEvent) : Prop :=
  match ev with
  | App.User (App.PadsLoaded (Returned storedPads)) => audible_shortcuts storedPads
  | _ => True
  end.

(** [pads.map(p => p.id === id ? pad : p)]. *)
Definition replace_pad (id : string) (pad : Types.SoundPadData)
    (pads : list Types.SoundPadData) : list Types.SoundPadData :=
  map (fun p => if String.eqb (Types.id p) id then pad else p) pads.

(** * Proofs *)

(** ** Bytes and little-endian fields *)

Lemma Z_of_byte_of_Z (z : Z) : Z_of_byte (byte_of_Z z) = z mod 256.
Proof.
  unfold Z_of_byte, byte_of_Z.
  assert (0 ≤ z mod 256 < 256) as Hrange by (apply Z.mod_pos_bound; lia).
  destruct (Byte.of_N (Z.to_N (z mod 256))) as [b|] eqn:E; simpl.
  - apply Byte.to_of_N in E. rewrite E. lia.
  - apply Byte.of_N_None_iff in E. lia.
Qed.

Lemma byte_of_Z_mod (z : Z) : byte_of_Z (z mod 256) = byte_of_Z z.
Proof. unfold byte_of_Z. now rewrite Z.mod_mod by lia. Qed.

Lemma length_le_bytes (n : nat) : ∀ z, length (le_bytes n z) = n.
Proof. induction n as [|n IH]; intros z; simpl; [reflexivity | now rewrite IH]. Qed.

Lemma le_decode_le_bytes (n : nat) : ∀ z, le_decode (le_bytes n z) = z mod 2 ^ (8 * Z.of_nat n).
Proof.
  induction n as [|n IH]; intros z.
  - simpl. now rewrite Z.mod_1_r.
  - cbn [le_bytes le_decode]. rewrite Z_of_byte_of_Z, IH.
    replace (8 * Z.of_nat (S n)) with (8 + 8 * Z.of_nat n) by lia.
    rewrite Z.pow_add_r by lia. change (2 ^ 8) with 256.
    rewrite Z.rem_mul_r; [reflexivity | lia | ].
    apply Z.pow_pos_nonneg; lia.
Qed.

Lemma ToInteger_inject_Z (z : Z) : ToInteger (inject_Z z) = z.
Proof. unfold ToInteger. simpl. apply Z.quot_1_r. Qed.

Lemma ToUint_range (w : Z) (q : Q) : 0 ≤ w → 0 ≤ ToUint w q < 2 ^ w.
Proof. intros Hw. unfold ToUint. apply Z.mod_pos_bound. apply Z.pow_pos_nonneg; lia. Qed.

Lemma le_decode_ToUint32 (q : Q) : le_decode (le_bytes 4 (ToUint 32 q)) = ToUint 32 q.
Proof.
  rewrite le_decode_le_bytes. change (8 * Z.of_nat 4) with 32.
  apply Z.mod_small, ToUint_range. lia.
Qed.

Lemma le_decode_ToUint16 (q : Q) : le_decode (le_bytes 2 (ToUint 16 q)) = ToUint 16 q.
Proof.
  rewrite le_decode_le_bytes. change (8 * Z.of_nat 2) with 16.
  apply Z.mod_small, ToUint_range. lia.
Qed.

(** ** Writes into a buffer *)

Lemma length_write_bytes (bs : list byte) :
  ∀ buf off, length (write_bytes buf off bs) = length buf.
Proof.
  induction bs as [|b bs IH]; intros buf off; cbn [write_bytes]; [reflexivity|].
  rewrite IH. apply length_insert.
Qed.

Lemma write_bytes_app_l (bs : list byte) :
  ∀ (h t : list byte) off, (off + length bs ≤ length h)%nat →
    write_bytes (h ++ t) off bs = write_bytes h off bs ++ t.
Proof.
  induction bs as [|b bs IH]; intros h t off Hlen; cbn [write_bytes length] in *;
    [reflexivity|].
  rewrite insert_app_l by lia. apply IH. rewrite length_insert. lia.
Qed.

Lemma write_bytes_app_r (bs : list byte) :
  ∀ (h t : list byte), length t = length bs →
    write_bytes (h ++ t) (length h) bs = h ++ bs.
Proof.
  induction bs as [|b bs IH]; intros h t Hlen; cbn [write_bytes length] in *.
  - destruct t; [now rewrite app_nil_r | discriminate].
  - destruct t as [|x t]; [discriminate|].
    rewrite insert_app_r_alt by lia. rewrite Nat.sub_diag.
    change (<[0%nat:=b]> (x :: t)) with (b :: t).
    replace (h ++ b :: t) with ((h ++ [b]) ++ t) by now rewrite <- app_assoc.
    replace (S (length h)) with (length (h ++ [b])) by (rewrite length_app; simpl; lia).
    rewrite IH by (simpl in Hlen; lia). now rewrite <- app_assoc.
Qed.

Lemma write_bytes_at_end (bs h t : list byte) (off : nat) :
  length h = off ∧ length t = length bs → write_bytes (h ++ t) off bs = h ++ bs.
Proof. intros [<- Ht]. now apply write_bytes_app_r. Qed.

Lemma length_NumericToRawBytes (n : nat) (q : Q) (le : bool) :
  length (NumericToRawBytes n q le) = n.
Proof.
  unfold NumericToRawBytes. destruct le.
  - apply length_le_bytes.
  - rewrite length_reverse. apply length_le_bytes.
Qed.

Lemma SetViewValue_app (h t : list byte) (off n : nat) (le : bool) (q : Q) :
  (off + n ≤ length h)%nat →
  SetViewValue (h ++ t) off n le q = Ok (write_bytes h off (NumericToRawBytes n q le) ++ t).
Proof.
  intros Hlen. unfold SetViewValue.
  rewrite decide_True by (rewrite length_app; lia).
  now rewrite write_bytes_app_l by (rewrite length_NumericToRawBytes; lia).
Qed.

Lemma setUint32_app (h t : list byte) (off : nat) (q : Q) :
  (off + 4 ≤ length h)%nat →
  setUint32 (h ++ t) off q true = Ok (write_bytes h off (le_bytes 4 (ToUint 32 q)) ++ t).
Proof. apply SetViewValue_app. Qed.

Lemma setUint16_app (h t : list byte) (off : nat) (q : Q) :
  (off + 2 ≤ length h)%nat →
  setUint16 (h ++ t) off q true = Ok (write_bytes h off (le_bytes 2 (ToUint 16 q)) ++ t).
Proof. apply SetViewValue_app. Qed.

Lemma writeString_loop_app (chars : list ascii) :
  ∀ (h t : list byte) offset i, (offset + i + length chars ≤ length h)%nat →
    writeString_loop (h ++ t) offset i chars
    = Ok (write_bytes h (offset + i)
            (map (fun c => byte_of_Z (Z.of_N (N_of_ascii c))) chars) ++ t).
Proof.
  induction chars as [|c cs IH]; intros h t offset i Hlen; simpl in *; [reflexivity|].
  unfold setUint8. rewrite SetViewValue_app by lia. cbn [mbind Result_bind].
  rewrite IH by (rewrite length_write_bytes; lia).
  unfold NumericToRawBytes, charCodeAt, ToUint. cbn [le_bytes write_bytes].
  rewrite ToInteger_inject_Z. change (2 ^ (8 * Z.of_nat 1)) with 256.
  rewrite byte_of_Z_mod. now rewrite Nat.add_succ_r.
Qed.

Lemma writeString_app (h t : list byte) (offset : nat) (s : string) :
  (offset + length (list_ascii_of_string s) ≤ length h)%nat →
  writeString (h ++ t) offset s = Ok (write_bytes h offset (tag s) ++ t).
Proof.
  intros Hlen. unfold writeString. rewrite writeString_loop_app by lia.
  now rewrite Nat.add_0_r.
Qed.

(** ** What [createWavFile] returns *)

Lemma createWavFile_bytes (samples : list byte) (sampleRate numChannels bitDepth : Q) :
  createWavFile samples sampleRate numChannels bitDepth
  = Ok {| blob_bytes := wav_header samples sampleRate numChannels bitDepth ++ samples;
          blob_type := "audio/wav" |}.
Proof.
  unfold createWavFile. rewrite replicate_add.
  set (t := replicate (length samples) "000"%byte).
  assert (length t = length samples) as Ht by apply length_replicate.
  repeat (first [ rewrite writeString_app | rewrite setUint32_app | rewrite setUint16_app ];
          [ cbn [mbind Result_bind]
          | rewrite ?length_write_bytes, length_replicate; simpl; lia ]).
  unfold Uint8Array_set.
  rewrite decide_True
    by (rewrite length_app, ?length_write_bytes, length_replicate; lia).
  cbn [mbind Result_bind]. do 2 f_equal.
  match goal with |- write_bytes (?h ++ t) 44 samples = _ =>
    rewrite (write_bytes_at_end samples h t 44)
      by (split; [rewrite ?length_write_bytes; apply length_replicate | exact Ht])
  end.
  reflexivity.
Qed.

Lemma length_wav_header (samples : list byte) (sampleRate numChannels bitDepth : Q) :
  length (wav_header samples sampleRate numChannels bitDepth) = 44%nat.
Proof. reflexivity. Qed.

(** The fields of the output, read back: each numeric field holds the
    value converted to the unsigned integer type of its width. *)
Lemma wav_fields (samples : list byte) (sampleRate numChannels bitDepth : Q) :
  let out := wav_header samples sampleRate numChannels bitDepth ++ samples in
  length out = (44 + length samples)%nat ∧
  take 4 out = tag "RIFF" ∧
  field out 4 4 = ToUint 32 (36 + samples_length samples)%Q ∧
  take 4 (drop 8 out) = tag "WAVE" ∧
  take 4 (drop 12 out) = tag "fmt " ∧
  field out 16 4 = 16 ∧
  field out 20 2 = 1 ∧
  field out 22 2 = ToUint 16 numChannels ∧
  field out 24 4 = ToUint 32 sampleRate ∧
  field out 28 4 = ToUint 32 (sampleRate * numChannels * (bitDepth / 8))%Q ∧
  field out 32 2 = ToUint 16 (numChannels * (bitDepth / 8))%Q ∧
  field out 34 2 = ToUint 16 bitDepth ∧
  take 4 (drop 36 out) = tag "data" ∧
  field out 40 4 = ToUint 32 (samples_length samples) ∧
  drop 44 out = samples.
Proof.
  intros out. subst out.
  split; [now rewrite length_app, length_wav_header|].
  split; [reflexivity|].
  split; [exact (le_decode_ToUint32 _)|].
  split; [reflexivity|].
  split; [reflexivity|].
  split; [reflexivity|].
  split; [reflexivity|].
  split; [exact (le_decode_ToUint16 _)|].
  split; [exact (le_decode_ToUint32 _)|].
  split; [exact (le_decode_ToUint32 _)|].
  split; [exact (le_decode_ToUint16 _)|].
  split; [exact (le_decode_ToUint16 _)|].
  split; [reflexivity|].
  split; [exact (le_decode_ToUint32 _)|].
  reflexivity.
Qed.

Lemma ToInteger_plus_inject_Z (a b : Z) : ToInteger (inject_Z a + inject_Z b) = a + b.
Proof.
  unfold ToInteger, Qplus, inject_Z. cbn [Qnum Qden].
  change (Z.pos (1 * 1)) with 1. rewrite Z.quot_1_r. lia.
Qed.

Lemma inject_Z_eq (a b : Z) : (inject_Z a == inject_Z b)%Q → a = b.
Proof. unfold Qeq, inject_Z. cbn [Qnum Qden]. lia. Qed.

(** When header length and chunk size fit 32 bits, so does the data
    size. *)
Lemma fits_chunk_size (samples : list byte) :
  fits 32 (36 + samples_length samples)%Q →
  ToUint 32 (36 + samples_length samples)%Q = 36 + Z.of_nat (length samples) ∧
  ToUint 32 (samples_length samples) = Z.of_nat (length samples).
Proof.
  unfold fits, samples_length. intros Hfit.
  change 36%Q with (inject_Z 36) in *. rewrite <- inject_Z_plus in Hfit.
  apply inject_Z_eq in Hfit. revert Hfit. unfold ToUint.
  rewrite ToInteger_plus_inject_Z, !ToInteger_inject_Z. intros Hfit.
  split; [exact Hfit|].
  apply Z.mod_small.
  assert (0 ≤ (36 + Z.of_nat (length samples)) mod 2 ^ 32 < 2 ^ 32)
    by (apply Z.mod_pos_bound; lia).
  lia.
Qed.

(** ** The container layout (claim C6) *)

(** C6, as stated, fails: the triple is arbitrary, but the header has
    16-bit and 32-bit fields. With 65536 channels the channel field at
    offset 22 holds 0, so the output does not match the table. *)
Lemma createWavFile_channel_count_wraps :
  ∃ out, createWavFile [] 24000 65536 16
         = Ok {| blob_bytes := out; blob_type := "audio/wav" |}
         ∧ field out 22 2 = 0
         ∧ ¬ header_matches_table out [] 24000 65536 16.
Proof.
  eexists. split; [vm_compute; reflexivity|]. split; [reflexivity|].
  intros (_ & _ & _ & _ & _ & _ & _ & Hchannels & _).
  vm_compute in Hchannels. discriminate.
Qed.

(** C6 (amended): for every sample sequence and every triple whose
    table values are integers that fit their header fields (chunk
    size, sample rate and byte rate in 32 bits; channel count, block
    align and bits per sample in 16 bits), [createWavFile] returns a
    blob of type audio/wav of 44 + L bytes whose header matches the
    layout table field by field, followed by the samples unmodified. *)
Theorem createWavFile_layout (samples : list byte) (sampleRate numChannels bitDepth : Q) :
  fits 32 (36 + samples_length samples)%Q →
  fits 16 numChannels →
  fits 32 sampleRate →
  fits 32 (sampleRate * numChannels * (bitDepth / 8))%Q →
  fits 16 (numChannels * (bitDepth / 8))%Q →
  fits 16 bitDepth →
  ∃ out, createWavFile samples sampleRate numChannels bitDepth
         = Ok {| blob_bytes := out; blob_type := "audio/wav" |}
         ∧ header_matches_table out samples sampleRate numChannels bitDepth.
Proof.
  intros Hchunk Hch Hrate Hbyterate Halign Hbits.
  eexists. split; [apply createWavFile_bytes|].
  destruct (wav_fields samples sampleRate numChannels bitDepth)
    as (Hlen & Hriff & Hsize & Hwave & Hfmt & H16 & H1 & Hc & Hr & Hbr & Hba & Hb &
        Hdata & Hd & Hsamples).
  destruct (fits_chunk_size samples Hchunk) as [Hsize' Hd'].
  unfold header_matches_table. unfold fits in *.
  rewrite Hsize, Hc, Hr, Hbr, Hba, Hb, Hd.
  repeat split; try assumption.
  - rewrite Hbyterate. unfold Qdiv. ring.
  - rewrite Halign. unfold Qdiv. ring.
  - rewrite Hd'. reflexivity.
Qed.

Lemma createWavFile_layout_witness :
  ∃ out, createWavFile ["001"; "002"; "003"; "004"]%byte 24000 1 16
         = Ok {| blob_bytes := out; blob_type := "audio/wav" |}
         ∧ header_matches_table out ["001"; "002"; "003"; "004"]%byte 24000 1 16.
Proof.
  apply (createWavFile_layout ["001"; "002"; "003"; "004"]%byte 24000 1 16);
    reflexivity.
Defined.

(** ** The round trip through the decoder (claim C7) *)

Lemma half_frame_bound (n : Z) :
  (Qabs (inject_Z (n / 2) / inject_Z 24000 - inject_Z n / (24000 * 1 * 2)) <= 1 # 48000)%Q.
Proof.
  pose proof (Z.div_mod n 2 ltac:(lia)) as Hn.
  pose proof (Z.mod_pos_bound n 2 ltac:(lia)) as Hr.
  set (q := n / 2) in *. set (r := n mod 2) in *.
  rewrite Hn, inject_Z_plus, inject_Z_mult.
  assert (0 <= inject_Z r)%Q as Hr0
    by (change 0%Q with (inject_Z 0); rewrite <- Zle_Qle; lia).
  assert (inject_Z r <= 1)%Q as Hr1 by (change 1%Q with (inject_Z 1); rewrite <- Zle_Qle; lia).
  apply Qabs_Qle_condition.
  change (inject_Z 24000) with 24000%Q. change (inject_Z 2) with 2%Q.
  generalize dependent (inject_Z r). generalize (inject_Z q). intros x y Hy0 Hy1.
  assert (x / 24000 - (2 * x + y) / (24000 * 1 * 2) == - y * (1 # 48000))%Q as ->
    by (field; split; discriminate).
  split; lra.
Qed.

Lemma oversized_samples_decode_empty (X : list byte) :
  Z.of_nat (length X) = 2 ^ 32 →
  ∃ blob buf,
    createWavFile X 24000 1 16 = Ok blob ∧
    decode (blob_bytes blob) = Ok buf ∧
    buffer_length buf = 0 ∧
    ¬ (Qabs (duration buf - samples_length X / (24000 * 1 * 2)) <= 1 # 48000)%Q.
Proof.
  intros Hlength.
  destruct (wav_fields X 24000 1 16)
    as (Hlen & Hriff & Hsz & Hwave & Hfmt & H16 & H1 & Hc & Hr & Hbr & Hba & Hb &
        Hdata & Hds & _).
  assert (ToUint 32 (36 + samples_length X)%Q = 36) as Hchunk.
  { unfold samples_length, ToUint. change 36%Q with (inject_Z 36).
    rewrite ToInteger_plus_inject_Z, Hlength. reflexivity. }
  assert (ToUint 32 (samples_length X) = 0) as Hsize.
  { unfold samples_length, ToUint. rewrite ToInteger_inject_Z, Hlength. reflexivity. }
  rewrite Hchunk in Hsz. rewrite Hsize in Hds.
  change (ToUint 16 1) with 1 in Hc. change (ToUint 32 24000) with 24000 in Hr.
  change (ToUint 32 (24000 * 1 * (16 / 8))) with 48000 in Hbr.
  change (ToUint 16 (1 * (16 / 8))) with 2 in Hba.
  change (ToUint 16 16) with 16 in Hb.
  eexists _, _. split; [apply createWavFile_bytes|].
  cbn [blob_bytes]. unfold decode.
  rewrite Hsz, Hc, Hr, Hbr, Hba, Hb, Hds.
  rewrite bool_decide_eq_true_2.
  - split; [reflexivity|]. split; [reflexivity|].
    unfold duration, samples_length. cbn [buffer_length sampleRate]. rewrite Hlength.
    intros Hclose. vm_compute in Hclose. now apply Hclose.
  - rewrite Hlen. repeat split; try assumption; lia.
Qed.

(** C7, as stated for every byte sequence, fails when the length does
    not fit the 32-bit size fields: for samples of 2^32 bytes the
    header says that the data chunk is empty (its size wraps to 0 and
    the chunk size to 36, so the header is consistent), the decoded
    buffer has no frame, and its duration, 0 s, is far from
    2^32 / 48000 s. *)
Lemma wrap_then_decode_oversized_samples :
  Z.of_nat (length long_samples) = 2 ^ 32 ∧
  ∃ blob buf,
    createWavFile long_samples 24000 1 16 = Ok blob ∧
    decode (blob_bytes blob) = Ok buf ∧
    buffer_length buf = 0 ∧
    ¬ (Qabs (duration buf - samples_length long_samples / (24000 * 1 * 2)) <= 1 # 48000)%Q.
Proof.
  assert (Z.of_nat (length long_samples) = 2 ^ 32) as Hlength.
  { unfold long_samples. rewrite repeat_length. apply Z2Nat.id. lia. }
  split; [exact Hlength|]. apply oversized_samples_decode_empty, Hlength.
Qed.

(** C7 (amended): when the data and chunk sizes fit their 32-bit
    header fields, wrapping raw PCM bytes [X] with (24000, 1, 16) and
    decoding the wrapped payload succeeds, and the duration of the
    decoded buffer is len(X) / (24000 x 1 x 2) seconds up to the
    rounding of the length to whole sample frames (at most half a
    sample period). *)
Theorem wrap_then_decode_duration (X : list byte) :
  Z.of_nat (length X) + 36 < 2 ^ 32 →
  ∃ blob buf,
    createWavFile X 24000 1 16 = Ok blob ∧
    decode (blob_bytes blob) = Ok buf ∧
    (Qabs (duration buf - samples_length X / (24000 * 1 * 2)) <= 1 # 48000)%Q.
Proof.
  intros Hsmall.
  assert (fits 32 (36 + samples_length X)%Q) as Hfit.
  { unfold fits, samples_length, ToUint. change 36%Q with (inject_Z 36).
    rewrite ToInteger_plus_inject_Z, <- inject_Z_plus, Z.mod_small by lia. reflexivity. }
  destruct (fits_chunk_size X Hfit) as [Hsize Hd].
  destruct (wav_fields X 24000 1 16)
    as (Hlen & Hriff & Hsz & Hwave & Hfmt & H16 & H1 & Hc & Hr & Hbr & Hba & Hb &
        Hdata & Hds & _).
  rewrite Hsize in Hsz. rewrite Hd in Hds.
  change (ToUint 16 1) with 1 in Hc. change (ToUint 32 24000) with 24000 in Hr.
  change (ToUint 32 (24000 * 1 * (16 / 8))) with 48000 in Hbr.
  change (ToUint 16 (1 * (16 / 8))) with 2 in Hba.
  change (ToUint 16 16) with 16 in Hb.
  eexists _, _. split; [apply createWavFile_bytes|].
  cbn [blob_bytes]. unfold decode.
  rewrite Hsz, Hc, Hr, Hbr, Hba, Hb, Hds.
  rewrite bool_decide_eq_true_2.
  - split; [reflexivity|]. unfold duration, samples_length.
    cbn [buffer_length sampleRate]. apply half_frame_bound.
  - rewrite Hlen. repeat split; try assumption; lia.
Qed.

Lemma wrap_then_decode_duration_witness :
  ∃ blob buf,
    createWavFile ["001"; "002"; "003"]%byte 24000 1 16 = Ok blob ∧
    decode (blob_bytes blob) = Ok buf ∧
    (Qabs (duration buf - samples_length ["001"; "002"; "003"]%byte / (24000 * 1 * 2))
     <= 1 # 48000)%Q.
Proof.
  apply (wrap_then_decode_duration ["001"; "002"; "003"]%byte). simpl. lia.
Defined.

(** ** Reasoning in the monad *)

Lemma bind_ok {A B} (m : M A) (f : A → M B) (s s1 : State) (a : A) :
  m s = (Ok a, s1) → (m ≫= f) s = f a s1.
Proof. intros H. unfold mbind, M_bind. now rewrite H. Qed.

Lemma bind_throw {A B} (m : M A) (f : A → M B) (s s1 : State) (e : Exception) :
  m s = (Throw e, s1) → (m ≫= f) s = (Throw e, s1).
Proof. intros H. unfold mbind, M_bind. now rewrite H. Qed.

Lemma try_ok {A} (body : M A) (h : Exception → M A) (s s1 : State) (a : A) :
  body s = (Ok a, s1) → try_catch body h s = (Ok a, s1).
Proof. intros H. unfold try_catch. now rewrite H. Qed.

Lemma try_throw {A} (body : M A) (h : Exception → M A) (s s1 : State) (e : Exception) :
  body s = (Throw e, s1) → try_catch body h s = h e s1.
Proof. intros H. unfold try_catch. now rewrite H. Qed.

Lemma state_eta (s : State) :
  s = {| audioContext := audioContext s; masterGainNode := masterGainNode s;
         activeSources := activeSources s; fadeTimeout := fadeTimeout s;
         sources := sources s; gains := gains s; next_node := next_node s;
         timers := timers s; next_timer := next_timer s; console := console s;
         tasks := tasks s; next_task := next_task s;
         autoplay_allowed := autoplay_allowed s; nodes_available := nodes_available s |}.
Proof. now destruct s. Qed.

#[global] Instance same_control_refl : Reflexive same_control.
Proof. intros s. repeat split. Qed.

#[global] Instance same_control_trans : Transitive same_control.
Proof. intros s1 s2 s3 H12 H23. unfold same_control in *. intuition congruence. Qed.

Lemma keeps_control_bind {A B} (m : M A) (f : A → M B) :
  keeps_control m → (∀ a, keeps_control (f a)) → keeps_control (m ≫= f).
Proof.
  intros Hm Hf s. specialize (Hm s). unfold mbind, M_bind.
  destruct (m s) as [[a|e] s1]; simpl in *; [|exact Hm].
  etransitivity; [exact Hm | apply Hf].
Qed.

Lemma keeps_control_try {A} (body : M A) (h : Exception → M A) :
  keeps_control body → (∀ e, keeps_control (h e)) → keeps_control (try_catch body h).
Proof.
  intros Hm Hh s. specialize (Hm s). unfold try_catch.
  destruct (body s) as [[a|e] s1]; simpl in *; [exact Hm|].
  etransitivity; [exact Hm | apply Hh].
Qed.

Lemma keeps_control_ret {A} (a : A) : keeps_control (mret a).
Proof. intros s. reflexivity. Qed.

Lemma keeps_control_update_gain (g : nat) (f : AudioParam → Result AudioParam) :
  keeps_control (update_gain g f).
Proof.
  intros s. unfold update_gain.
  destruct (gains s !! g) as [node|]; [destruct (f (gain_param node))|]; simpl;
    repeat split.
Qed.

Lemma keeps_control_update_source (src : nat) (f : SourceNode → Result SourceNode) :
  keeps_control (update_source src f).
Proof.
  intros s. unfold update_source.
  destruct (sources s !! src) as [node|]; [destruct (f node)|]; simpl; repeat split.
Qed.

Lemma keeps_control_gain_value (g : nat) : keeps_control (gain_value g).
Proof. intros s. unfold gain_value. destruct (gains s !! g); simpl; repeat split. Qed.

Lemma keeps_control_gain_connect (g : nat) (d : Destination) : keeps_control (gain_connect g d).
Proof. intros s. unfold gain_connect. destruct (gains s !! g); simpl; repeat split. Qed.

Lemma keeps_control_console_error (e : Exception) : keeps_control (console_error e).
Proof. intros s. repeat split. Qed.

Lemma keeps_control_stop_entry (entry : AudioSourceEntry) : keeps_control (stop_entry entry).
Proof.
  destruct entry as [src g]. apply keeps_control_try.
  - apply keeps_control_bind; [apply keeps_control_update_gain|].
    intros _. apply keeps_control_update_source.
  - intros _. apply keeps_control_ret.
Qed.

Lemma keeps_control_ramp_entry ctx endTime (entry : AudioSourceEntry) :
  keeps_control (ramp_entry ctx endTime entry).
Proof.
  destruct entry as [src g]. apply keeps_control_try.
  - repeat first [ apply keeps_control_bind; [|intros ?]
                 | apply keeps_control_update_gain
                 | apply keeps_control_gain_value ].
  - intros e. apply keeps_control_console_error.
Qed.

Lemma returns_stop_entry (entry : AudioSourceEntry) : returns (stop_entry entry).
Proof.
  destruct entry as [src g]. intros s. unfold stop_entry, try_catch.
  match goal with |- context [match ?b with _ => _ end] => destruct b as [[[]|e] s1] end;
    eexists; reflexivity.
Qed.

Lemma returns_ramp_entry ctx endTime (entry : AudioSourceEntry) :
  returns (ramp_entry ctx endTime entry).
Proof.
  destruct entry as [src g]. intros s. unfold ramp_entry, try_catch.
  match goal with |- context [match ?b with _ => _ end] => destruct b as [[[]|e] s1] end;
    eexists; reflexivity.
Qed.

(** [forEach] with a callback that returns normally: an invariant [I]
    the callback keeps is kept, and what each call establishes for its
    own element, and no call destroys, holds for every element. *)
Lemma forEach_establishes (I : State → Prop) (Q : AudioSourceEntry → State → Prop)
    (X : gset AudioSourceEntry) (f : AudioSourceEntry → M unit) :
  (∀ k s, k ∈ X → I s →
     fst (f k s) = Ok () ∧ I (snd (f k s)) ∧ Q k (snd (f k s)) ∧
     ∀ k', Q k' s → Q k' (snd (f k s))) →
  ∀ s, I s →
    fst (forEach X f s) = Ok () ∧ I (snd (forEach X f s)) ∧
    ∀ k, k ∈ X → Q k (snd (forEach X f s)).
Proof.
  intros Hf. unfold forEach.
  set (loop := foldr (fun k rest => f k ;; rest) (mret ())).
  assert (∀ l, (∀ k, k ∈ l → k ∈ X) → ∀ s, I s →
            fst (loop l s) = Ok () ∧ I (snd (loop l s)) ∧
            (∀ k, Q k s → Q k (snd (loop l s))) ∧
            ∀ k, k ∈ l → Q k (snd (loop l s))) as Hlist.
  { induction l as [|k l IH]; intros Hl s Hs.
    - simpl. repeat split; auto. intros k Hk. inversion Hk.
    - destruct (Hf k s) as (Hok & HI & HQ & Hkeep); [apply Hl; left | exact Hs |].
      assert (loop (k :: l) s = loop l (snd (f k s))) as ->.
      { unfold loop at 1. cbn [foldr]. fold loop. unfold mbind, M_bind.
        destruct (f k s) as [[[]|e] s1]; simpl in *; [reflexivity | discriminate]. }
      destruct (IH (fun k' Hk' => Hl k' (list_elem_of_further _ _ _ Hk')) _ HI)
        as (Hok' & HI' & Hkeep' & HQ').
      split; [exact Hok'|]. split; [exact HI'|]. split.
      + intros k' Hk'. apply Hkeep', Hkeep, Hk'.
      + intros k' Hk'. apply elem_of_cons in Hk' as [->|Hk']; auto. }
  intros s Hs.
  destruct (Hlist (elements X) (fun k Hk => proj1 (elem_of_elements X k) Hk) s Hs)
    as (Hok & HI & _ & HQ).
  repeat split; auto. intros k Hk. apply HQ. now apply elem_of_elements.
Qed.

Lemma forEach_frame (X : gset AudioSourceEntry) (f : AudioSourceEntry → M unit) :
  (∀ k, keeps_control (f k)) → (∀ k, returns (f k)) →
  ∀ s, fst (forEach X f s) = Ok () ∧ same_control s (snd (forEach X f s)).
Proof.
  intros Hkeep Hret s.
  destruct (forEach_establishes (same_control s) (fun _ _ => True) X f) with (s := s)
    as (Hok & Hsame & _); [|reflexivity|auto].
  intros k s1 _ Hs1. destruct (Hret k s1) as [[] Hr].
  split; [exact Hr|]. split; [etransitivity; [exact Hs1 | apply Hkeep]|]. auto.
Qed.

(** ** [stopAllSounds] *)

Lemma cancel_pending_fade_eq (s : State) :
  cancel_pending_fade s
  = (Ok (), set_fadeTimeout None (set_timers (cleared s) (next_timer s) s)).
Proof.
  unfold cancel_pending_fade, cleared, get, mbind, M_bind.
  destruct s as [? ? ? [h|] ? ? ? ? ? ? ? ? ? ?]; reflexivity.
Qed.

Lemma cancelled_events_negative (p p' : AudioParam) (e : AutomationEvent) :
  cancelScheduledValues 0 p = Ok p' → e ∈ param_events p' → (event_time e < 0)%Q.
Proof.
  unfold cancelScheduledValues. change (negative 0) with false. cbv iota.
  intros [= <-]. cbn [param_events]. rewrite list_elem_of_In, filter_In.
  intros [_ Hneg]. apply negb_true_iff in Hneg.
  apply Qnot_le_lt. intros Hle. apply Qle_bool_iff in Hle. congruence.
Qed.

Lemma stop_not_playing (node node' : SourceNode) :
  stop node = Ok node' → src_playback node' ≠ Playing.
Proof. unfold stop. destruct (src_playback node); intros [= <-]; discriminate. Qed.

Lemma update_gain_ok (g : nat) (f : AudioParam → Result AudioParam) (s : State)
    (node : GainNode) (p : AudioParam) :
  gains s !! g = Some node → f (gain_param node) = Ok p →
  update_gain g f s
  = (Ok (), set_nodes (sources s)
              (<[g := {| gain_param := p; gain_output := gain_output node |}]> (gains s))
              (next_node s) s).
Proof. intros Hg Hf. unfold update_gain. now rewrite Hg, Hf. Qed.

Lemma update_source_ok (src : nat) (f : SourceNode → Result SourceNode) (s : State)
    (node node' : SourceNode) :
  sources s !! src = Some node → f node = Ok node' →
  update_source src f s
  = (Ok (), set_nodes (<[src := node']> (sources s)) (gains s) (next_node s) s).
Proof. intros Hs Hf. unfold update_source. now rewrite Hs, Hf. Qed.

Lemma update_source_throws (src : nat) (f : SourceNode → Result SourceNode) (s : State) :
  (∀ node, sources s !! src = Some node → ∃ e, f node = Throw e) →
  ∃ e, update_source src f s = (Throw e, s).
Proof.
  intros Hf. unfold update_source. destruct (sources s !! src) as [node|].
  - destruct (Hf node eq_refl) as [e ->]. eauto.
  - eauto.
Qed.

(** One call of the callback on an entry whose gain node exists. *)
Lemma stop_entry_spec (src g : nat) (s : State) (gnode : GainNode) :
  gains s !! g = Some gnode →
  ∃ p' ss',
    cancelScheduledValues 0 (gain_param gnode) = Ok p' ∧
    stop_entry (src, g) s
    = (Ok (), set_nodes ss'
                (<[g := {| gain_param := p'; gain_output := gain_output gnode |}]> (gains s))
                (next_node s) s) ∧
    (ss' = sources s ∧ (∀ node, sources s !! src = Some node → src_playback node ≠ Playing)
     ∨ ∃ node node', sources s !! src = Some node ∧ stop node = Ok node' ∧
                     ss' = <[src := node']> (sources s)).
Proof.
  intros Hg.
  destruct (cancelScheduledValues 0 (gain_param gnode)) as [p'|e] eqn:Hcancel;
    [|discriminate].
  pose proof (update_gain_ok g _ s gnode p' Hg Hcancel) as Hgain.
  set (s1 := set_nodes (sources s)
               (<[g := {| gain_param := p'; gain_output := gain_output gnode |}]> (gains s))
               (next_node s) s) in *.
  exists p'. unfold stop_entry.
  destruct (sources s !! src) as [node|] eqn:Hsrc;
    [destruct (stop node) as [node'|e] eqn:Hstop|].
  - exists (<[src := node']> (sources s)). split; [reflexivity|]. split; [|right; eauto].
    erewrite try_ok; [reflexivity|]. erewrite bind_ok by exact Hgain.
    now rewrite (update_source_ok src stop s1 node node').
  - exists (sources s). split; [reflexivity|]. split.
    + destruct (update_source_throws src stop s1) as [e' He'].
      { intros n Hn. cbn in Hn. rewrite Hsrc in Hn. injection Hn as <-. eauto. }
      erewrite try_throw; [reflexivity|]. erewrite bind_ok by exact Hgain. exact He'.
    + left. split; [reflexivity|]. intros ? [= <-]. unfold stop in Hstop.
      destruct (src_playback node); [discriminate | discriminate | discriminate].
  - exists (sources s). split; [reflexivity|]. split.
    + destruct (update_source_throws src stop s1) as [e' He'].
      { intros n Hn. cbn in Hn. rewrite Hsrc in Hn. discriminate. }
      erewrite try_throw; [reflexivity|]. erewrite bind_ok by exact Hgain. exact He'.
    + left. split; [reflexivity|]. intros ? [=].
Qed.

Lemma stop_entry_silences (s0 : State) (entry : AudioSourceEntry) (s : State) :
  let valid s := same_control s0 s ∧ ∀ g, is_Some (gains s0 !! g) → is_Some (gains s !! g) in
  is_Some (gains s0 !! entry.2) → valid s →
  fst (stop_entry entry s) = Ok () ∧ valid (snd (stop_entry entry s)) ∧
  silenced (snd (stop_entry entry s)) entry ∧
  ∀ entry', silenced s entry' → silenced (snd (stop_entry entry s)) entry'.
Proof.
  intros valid Hentry [Hsame Hdom]. destruct entry as [src g]. cbn [snd] in Hentry.
  destruct (Hdom g Hentry) as [gnode Hg].
  destruct (stop_entry_spec src g s gnode Hg) as (p' & ss' & Hcancel & -> & Hss).
  cbn [fst snd].
  assert (∀ entry' : AudioSourceEntry,
            (∀ node, sources s !! entry'.1 = Some node → src_playback node ≠ Playing) →
            ∀ node, ss' !! entry'.1 = Some node → src_playback node ≠ Playing) as Hsources.
  { intros entry' Hold node. destruct Hss as [[-> _]|(n & n' & Hn & Hstop & ->)]; [apply Hold|].
    destruct (decide (src = entry'.1)) as [<-|Hne].
    - rewrite lookup_insert_eq. intros [= <-]. eapply stop_not_playing, Hstop.
    - rewrite lookup_insert_ne by exact Hne. apply Hold. }
  split; [reflexivity|]. split; [|split].
  - split.
    + etransitivity; [exact Hsame|]. repeat split.
    + intros g' Hg'. cbn [gains set_nodes].
      destruct (decide (g = g')) as [<-|Hne].
      * rewrite lookup_insert_eq. eauto.
      * rewrite lookup_insert_ne by exact Hne. auto.
  - split; cbn [sources gains set_nodes fst snd].
    + destruct Hss as [[-> Hnp]|(n & n' & Hn & Hstop & ->)]; [exact Hnp|].
      intros node. rewrite lookup_insert_eq. intros [= <-]. eapply stop_not_playing, Hstop.
    + intros node e. rewrite lookup_insert_eq. intros [= <-]. cbn [gain_param].
      eapply cancelled_events_negative, Hcancel.
  - intros entry' [Hsrc' Hgain']. split; cbn [sources gains set_nodes].
    + apply Hsources, Hsrc'.
    + intros node e. destruct (decide (g = entry'.2)) as [<-|Hne].
      * rewrite lookup_insert_eq. intros [= <-]. cbn [gain_param].
        eapply cancelled_events_negative, Hcancel.
      * rewrite lookup_insert_ne by exact Hne. apply Hgain'.
Qed.

(** What [stopAllSounds] does to a state. *)
Lemma stopAllSounds_spec (s : State) :
  ∃ s', stopAllSounds s = (Ok (), s') ∧
    audioContext s' = audioContext s ∧ masterGainNode s' = masterGainNode s ∧
    activeSources s' = ∅ ∧ fadeTimeout s' = None ∧ timers s' = cleared s ∧
    next_timer s' = next_timer s ∧ next_node s' = next_node s ∧
    tasks s' = tasks s ∧ next_task s' = next_task s ∧
    autoplay_allowed s' = autoplay_allowed s ∧ nodes_available s' = nodes_available s ∧
    (entries_valid s → ∀ entry, entry ∈ activeSources s → silenced s' entry).
Proof.
  unfold stopAllSounds.
  rewrite (bind_ok _ _ _ _ _ (cancel_pending_fade_eq s)).
  set (s0 := set_fadeTimeout None (set_timers (cleared s) (next_timer s) s)).
  unfold get at 1. unfold mbind at 1, M_bind at 1. cbv beta iota.
  change (activeSources s0) with (activeSources s).
  destruct (forEach_frame (activeSources s) stop_entry keeps_control_stop_entry
              returns_stop_entry s0) as [Hok Hsame].
  destruct (forEach (activeSources s) stop_entry s0) as [r s1] eqn:Hloop.
  cbn [fst snd] in Hok, Hsame. subst r.
  rewrite (bind_ok _ _ _ s1 _ Hloop).
  eexists. split; [reflexivity|].
  destruct Hsame as (Hc & Hm & Ha & Hf & Ht & Hnt & Hnn & Hts & Hntk & Hap & Hna).
  cbn [audioContext masterGainNode activeSources fadeTimeout timers next_timer next_node
       tasks next_task autoplay_allowed nodes_available set_activeSources].
  rewrite Hc, Hm, Hf, Ht, Hnt, Hnn, Hts, Hntk, Hap, Hna.
  repeat (split; [reflexivity|]).
  intros Hvalid entry Hentry.
  destruct (forEach_establishes
              (fun s' => same_control s0 s' ∧ ∀ g, is_Some (gains s0 !! g) → is_Some (gains s' !! g))
              (fun entry s' => silenced s' entry)
              (activeSources s) stop_entry) with (s := s0) as (_ & _ & Hall).
  - intros k s2 Hk Hs2. apply (stop_entry_silences s0 k s2); [|exact Hs2].
    destruct k as [src g]. apply (Hvalid src g Hk).
  - split; [reflexivity | auto].
  - rewrite Hloop in Hall. specialize (Hall entry Hentry).
    destruct Hall as [Hsrc Hgain]. split; [exact Hsrc | exact Hgain].
Qed.

(** *** The nodes after [stopAllSounds] *)

Lemma stopped_idempotent (node : SourceNode) : stopped (stopped node) = stopped node.
Proof. unfold stopped, stop. now destruct node as [b [] out h]. Qed.

Lemma stopped_not_playing (node : SourceNode) : src_playback (stopped node) ≠ Playing.
Proof. unfold stopped, stop. now destruct node as [b [] out h]. Qed.

Lemma stopped_playback (node : SourceNode) :
  src_playback node ≠ Unscheduled → src_playback (stopped node) = Finished.
Proof. unfold stopped, stop. destruct node as [b [] out h]; cbn; congruence. Qed.

Lemma stop_stopped (node node' : SourceNode) : stop node = Ok node' → node' = stopped node.
Proof. unfold stopped. now intros ->. Qed.

Lemma unstoppable_stopped (node : SourceNode) :
  src_playback node ≠ Playing → stopped node = node.
Proof. unfold stopped, stop. destruct (src_playback node); congruence. Qed.

Lemma filter_idempotent {A} (f : A → bool) (l : list A) :
  List.filter f (List.filter f l) = List.filter f l.
Proof.
  induction l as [|x l IH]; [reflexivity|]. cbn [List.filter].
  destruct (f x) eqn:Hx; [|exact IH]. cbn [List.filter]. now rewrite Hx, IH.
Qed.

Lemma cancelled_idempotent (node : GainNode) : cancelled (cancelled node) = cancelled node.
Proof.
  unfold cancelled, cancelScheduledValues. change (negative 0) with false.
  cbn [gain_param gain_output param_value param_events]. now rewrite filter_idempotent.
Qed.

Lemma cancelled_events (node : GainNode) (e : AutomationEvent) :
  e ∈ param_events (gain_param (cancelled node)) → (event_time e < 0)%Q.
Proof.
  unfold cancelled. destruct (cancelScheduledValues 0 (gain_param node)) as [p|x] eqn:Hcancel.
  - cbn [gain_param]. eapply cancelled_events_negative, Hcancel.
  - unfold cancelScheduledValues in Hcancel. discriminate.
Qed.

(** What one call of the callback does to the nodes. *)
Lemma stop_entry_exact (src g : nat) (s : State) (gnode : GainNode) :
  gains s !! g = Some gnode →
  ∃ s', stop_entry (src, g) s = (Ok (), s') ∧
    (∀ x, sources s' !! x
          = if decide (x = src) then stopped <$> sources s !! x else sources s !! x) ∧
    (∀ y, gains s' !! y = if decide (y = g) then Some (cancelled gnode) else gains s !! y) ∧
    next_node s' = next_node s ∧ console s' = console s.
Proof.
  intros Hg. destruct (stop_entry_spec src g s gnode Hg) as (p' & ss' & Hcancel & -> & Hss).
  eexists. split; [reflexivity|]. cbn [sources gains next_node console set_nodes].
  split; [|split; [|split; reflexivity]].
  - intros x. destruct (decide (x = src)) as [->|Hx].
    + destruct Hss as [[-> Hidle]|(node & node' & Hnode & Hstop & ->)].
      * destruct (sources s !! src) as [node|] eqn:Hnode; [|reflexivity].
        cbn. now rewrite unstoppable_stopped by now apply Hidle.
      * rewrite lookup_insert_eq, Hnode. cbn. f_equal. now apply stop_stopped.
    + destruct Hss as [[-> _]|(node & node' & _ & _ & ->)]; [reflexivity|].
      now rewrite lookup_insert_ne by congruence.
  - intros y. unfold cancelled. rewrite Hcancel. destruct (decide (y = g)) as [->|Hy].
    + now rewrite lookup_insert_eq.
    + now rewrite lookup_insert_ne by congruence.
Qed.

(** [stopAllSounds] stops the voices of the registry and does nothing
    else to the nodes. *)
Lemma stopAllSounds_stops_voices (s : State) :
  entries_valid s → voices_stopped (activeSources s) s (snd (stopAllSounds s)).
Proof.
  intros Hvalid. unfold stopAllSounds.
  rewrite (bind_ok _ _ _ _ _ (cancel_pending_fade_eq s)).
  set (s0 := set_fadeTimeout None (set_timers (cleared s) (next_timer s) s)).
  unfold get at 1. unfold mbind at 1, M_bind at 1. cbv beta iota.
  change (activeSources s0) with (activeSources s).
  set (X := activeSources s).
  set (I := fun s1 : State =>
    (∀ x, sources s1 !! x = sources s !! x ∨ sources s1 !! x = stopped <$> sources s !! x) ∧
    (∀ y, gains s1 !! y = gains s !! y ∨ gains s1 !! y = cancelled <$> gains s !! y) ∧
    (∀ x, (∀ g, (x, g) ∉ X) → sources s1 !! x = sources s !! x) ∧
    (∀ y, (∀ src, (src, y) ∉ X) → gains s1 !! y = gains s !! y) ∧
    next_node s1 = next_node s ∧ console s1 = console s).
  set (Q := fun (k : AudioSourceEntry) (s1 : State) =>
    sources s1 !! k.1 = stopped <$> sources s !! k.1 ∧
    gains s1 !! k.2 = cancelled <$> gains s !! k.2).
  destruct (forEach_establishes I Q X stop_entry) with (s := s0) as (Hok & HI & HQ).
  - intros [src g] s1 Hk (Hsrc & Hgain & Hsrc' & Hgain' & Hnext & Hconsole).
    destruct (Hvalid src g Hk) as [gnode Hgnode].
    assert (∃ gnode1, gains s1 !! g = Some gnode1 ∧ cancelled gnode1 = cancelled gnode)
      as (gnode1 & Hgnode1 & Hsame).
    { destruct (Hgain g) as [Heq|Heq]; rewrite Heq, Hgnode; eexists; split;
        [reflexivity | reflexivity | reflexivity | apply cancelled_idempotent]. }
    destruct (stop_entry_exact src g s1 gnode1 Hgnode1)
      as (s2 & -> & Hsources & Hgains & Hnext2 & Hconsole2).
    cbn [fst snd]. split; [reflexivity|].
    assert (sources s2 !! src = stopped <$> sources s !! src) as Hstopped.
    { rewrite Hsources, decide_True by reflexivity.
      destruct (Hsrc src) as [-> | ->]; [reflexivity|].
      destruct (sources s !! src); cbn; [now rewrite stopped_idempotent | reflexivity]. }
    assert (gains s2 !! g = cancelled <$> gains s !! g) as Hcancelled.
    { rewrite Hgains, decide_True by reflexivity. now rewrite Hsame, Hgnode. }
    split; [|split].
    + repeat split.
      * intros x. destruct (decide (x = src)) as [->|Hne]; [right; exact Hstopped|].
        rewrite Hsources, decide_False by exact Hne. apply Hsrc.
      * intros y. destruct (decide (y = g)) as [->|Hne]; [right; exact Hcancelled|].
        rewrite Hgains, decide_False by exact Hne. apply Hgain.
      * intros x Hx. destruct (decide (x = src)) as [->|Hne]; [now destruct (Hx g)|].
        rewrite Hsources, decide_False by exact Hne. now apply Hsrc'.
      * intros y Hy. destruct (decide (y = g)) as [->|Hne]; [now destruct (Hy src)|].
        rewrite Hgains, decide_False by exact Hne. now apply Hgain'.
      * congruence.
      * congruence.
    + split; [exact Hstopped | exact Hcancelled].
    + intros [src' g'] [Hs' Hg']. cbn [fst snd] in *. split.
      * destruct (decide (src' = src)) as [->|Hne]; [exact Hstopped|].
        rewrite Hsources, decide_False by exact Hne. exact Hs'.
      * destruct (decide (g' = g)) as [->|Hne]; [exact Hcancelled|].
        rewrite Hgains, decide_False by exact Hne. exact Hg'.
  - subst I. cbn beta. repeat split; auto.
  - destruct (forEach X stop_entry s0) as [r s1] eqn:Hloop. cbn [fst snd] in *. subst r.
    rewrite (bind_ok _ _ _ s1 _ Hloop). unfold modify. cbn [snd].
    destruct HI as (_ & _ & Hsrc' & Hgain' & Hnext & Hconsole).
    split; [|split; [|split; [|split]]]; cbn [sources gains next_node console set_activeSources].
    + intros src g Hk. exact (HQ (src, g) Hk).
    + exact Hsrc'.
    + exact Hgain'.
    + exact Hnext.
    + exact Hconsole.
Qed.

(** C2: from every state (the registry may be empty, and may hold
    entries whose source throws when stopped because it is not
    playing), [stopAllSounds] returns normally, cancels the pending
    fade if there is one, stops every voice of the registry and leaves
    the registry empty. Stopping is exact: the source of every
    registered voice is still in the store and is the source it was
    after [stop()] (finished if it was playing, unchanged if the call
    threw), its gain node is still in the store with its schedule
    cancelled, every node outside the registry is as it was, and
    nothing is logged. The registry's entries refer to existing gain
    nodes, as references do. *)
Theorem stopAllSounds_empties_registry (s : State) :
  entries_valid s →
  ∃ s', stopAllSounds s = (Ok (), s') ∧
    activeSources s' = ∅ ∧
    fadeTimeout s' = None ∧
    (∀ handle, fadeTimeout s = Some handle → timers s' !! handle = None) ∧
    (∀ entry, entry ∈ activeSources s → silenced s' entry) ∧
    voices_stopped (activeSources s) s s' ∧
    (∀ source gain, (source, gain) ∈ activeSources s → is_Some (gains s' !! gain)) ∧
    (∀ source gain node, (source, gain) ∈ activeSources s →
       sources s !! source = Some node → src_playback node = Playing →
       ∃ node', sources s' !! source = Some node' ∧ src_playback node' = Finished).
Proof.
  intros Hvalid.
  pose proof (stopAllSounds_stops_voices s Hvalid) as Hstopped.
  destruct (stopAllSounds_spec s)
    as (s' & Hrun & _ & _ & Hactive & Hfade & Htimers & _ & _ & _ & _ & _ & _ & Hsilenced).
  rewrite Hrun in Hstopped. cbn [snd] in Hstopped.
  exists s'. split; [exact Hrun|]. split; [exact Hactive|]. split; [exact Hfade|].
  split; [|split; [exact (Hsilenced Hvalid)|split; [exact Hstopped|split]]].
  - intros handle Hh. rewrite Htimers. unfold cleared. rewrite Hh. apply lookup_delete_eq.
  - intros src g Hk. destruct Hstopped as (Hnodes & _).
    destruct (Hnodes src g Hk) as [_ ->]. destruct (Hvalid src g Hk) as [gnode ->].
    cbn. eauto.
  - intros src g node Hk Hnode Hplaying. destruct Hstopped as (Hnodes & _).
    destruct (Hnodes src g Hk) as [-> _]. rewrite Hnode. cbn.
    eexists. split; [reflexivity|]. apply stopped_playback. congruence.
Qed.

Lemma stopAllSounds_empties_registry_witness :
  ∃ s', stopAllSounds fading_state = (Ok (), s') ∧
    activeSources s' = ∅ ∧
    fadeTimeout s' = None ∧
    (∀ handle, fadeTimeout fading_state = Some handle → timers s' !! handle = None) ∧
    (∀ entry, entry ∈ activeSources fading_state → silenced s' entry) ∧
    voices_stopped (activeSources fading_state) fading_state s' ∧
    (∀ source gain, (source, gain) ∈ activeSources fading_state →
       is_Some (gains s' !! gain)) ∧
    (∀ source gain node, (source, gain) ∈ activeSources fading_state →
       sources fading_state !! source = Some node → src_playback node = Playing →
       ∃ node', sources s' !! source = Some node' ∧ src_playback node' = Finished).
Proof.
  apply (stopAllSounds_empties_registry fading_state).
  intros src g. change (activeSources fading_state) with ({[(0, 1)]} : gset (nat * nat))%nat.
  rewrite elem_of_singleton. intros [= -> ->]. vm_compute. eauto.
Defined.

(** ** [fadeOutAllSounds] with an empty registry (claim C9) *)

(** C9, as stated, fails on first use: [fadeOutAllSounds] obtains the
    audio context before it looks at the registry, so from the initial
    state the call creates the context and the master gain node. *)
Lemma fadeOutAllSounds_first_use_creates_context :
  activeSources (initial true true) = ∅ ∧
  fadeOutAllSounds 1 (initial true true) ≠ (Ok (), initial true true) ∧
  audioContext (snd (fadeOutAllSounds 1 (initial true true)))
  = Some {| ctx_state := Running; currentTime := 0 |}.
Proof.
  split; [reflexivity|]. split; [|reflexivity].
  intros H. apply (f_equal (fun r => audioContext (snd r))) in H.
  vm_compute in H. discriminate.
Qed.

(** C9 (amended): for every duration, if the registry is empty when
    [fadeOutAllSounds] is called, the call returns at once and changes
    nothing except that the audio context and the master gain node
    are created if they did not exist yet: a pending fade timeout is
    not cancelled and stays scheduled, and neither the registry nor
    any node is touched; when the context exists the state is
    unchanged altogether. *)
Theorem fadeOutAllSounds_empty_registry (duration : Q) (s : State) :
  activeSources s = ∅ →
  fadeOutAllSounds duration s = (Ok (), snd (getAudioContext s)) ∧
  (is_Some (audioContext s) → fadeOutAllSounds duration s = (Ok (), s)) ∧
  let s' := snd (fadeOutAllSounds duration s) in
  fadeTimeout s' = fadeTimeout s ∧ timers s' = timers s ∧ next_timer s' = next_timer s ∧
  activeSources s' = activeSources s ∧ sources s' = sources s ∧ gains s' = gains s ∧
  console s' = console s.
Proof.
  intros Hempty.
  assert (fadeOutAllSounds duration s = (Ok (), snd (getAudioContext s))) as Hrun.
  { unfold fadeOutAllSounds, getAudioContext, get, mbind, M_bind.
    destruct (audioContext s); cbn [snd activeSources set_context];
      rewrite Hempty, size_empty; reflexivity. }
  split; [exact Hrun|]. split.
  - intros [ctx Hctx]. rewrite Hrun. unfold getAudioContext. now rewrite Hctx.
  - rewrite Hrun. unfold getAudioContext. destruct (audioContext s); repeat split.
Qed.

Lemma fadeOutAllSounds_empty_registry_witness :
  fadeOutAllSounds 0 drained_state = (Ok (), snd (getAudioContext drained_state)) ∧
  (is_Some (audioContext drained_state) →
   fadeOutAllSounds 0 drained_state = (Ok (), drained_state)) ∧
  let s' := snd (fadeOutAllSounds 0 drained_state) in
  fadeTimeout s' = fadeTimeout drained_state ∧ timers s' = timers drained_state ∧
  next_timer s' = next_timer drained_state ∧
  activeSources s' = activeSources drained_state ∧ sources s' = sources drained_state ∧
  gains s' = gains drained_state ∧ console s' = console drained_state.
Proof. apply (fadeOutAllSounds_empty_registry 0 drained_state). reflexivity. Defined.

(** ** [fadeOutAllSounds] with a negligible duration (claim C5) *)

(** C5, as stated, fails when the registry is empty: in the state
    reached when the only sound ends during a fade, the fade's timer
    is pending; [fadeOutAllSounds 0] returns at its first test and
    leaves it pending, while [stopAllSounds] cancels it. *)
Lemma fadeOutAllSounds_zero_keeps_pending_fade :
  snd (fadeOutAllSounds 0 drained_state) ≠ snd (stopAllSounds drained_state) ∧
  fadeTimeout (snd (fadeOutAllSounds 0 drained_state)) = Some 1%positive ∧
  timers (snd (fadeOutAllSounds 0 drained_state)) !! 1%positive = Some 5000%Q ∧
  fadeTimeout (snd (stopAllSounds drained_state)) = None ∧
  timers (snd (stopAllSounds drained_state)) = ∅.
Proof.
  split; [|repeat split; reflexivity].
  intros H. apply (f_equal fadeTimeout) in H. vm_compute in H. discriminate.
Qed.

(** C5 (amended): for every prior state whose registry is not empty,
    [fadeOutAllSounds] with a duration of at most 0.05 does exactly
    what [stopAllSounds] does in that state (once the audio context
    exists, which it does whenever a voice was started): the registry
    ends empty and no pending fade remains. *)
Theorem fadeOutAllSounds_negligible_duration (duration : Q) (s : State) :
  (duration <= 5 # 100)%Q →
  activeSources s ≠ ∅ →
  fadeOutAllSounds duration s = stopAllSounds (snd (getAudioContext s)) ∧
  (is_Some (audioContext s) → fadeOutAllSounds duration s = stopAllSounds s) ∧
  let s' := snd (fadeOutAllSounds duration s) in
  fst (fadeOutAllSounds duration s) = Ok () ∧
  activeSources s' = ∅ ∧ fadeTimeout s' = None ∧
  ∀ handle, fadeTimeout s = Some handle → timers s' !! handle = None.
Proof.
  intros Hshort Hactive.
  assert (fadeOutAllSounds duration s = stopAllSounds (snd (getAudioContext s))) as Hrun.
  { apply Qle_bool_iff in Hshort.
    assert (size (activeSources s) ≠ 0%nat) as Hsize
      by (intros Hz; apply Hactive, leibniz_equiv, size_empty_inv, Hz).
    unfold fadeOutAllSounds, getAudioContext, get, mbind at 1 2, M_bind at 1 2.
    destruct (audioContext s); cbn [snd activeSources set_context];
      rewrite decide_False by exact Hsize; now rewrite Hshort. }
  split; [exact Hrun|]. split.
  - intros [ctx Hctx]. rewrite Hrun. unfold getAudioContext. now rewrite Hctx.
  - rewrite Hrun. cbv zeta.
    destruct (stopAllSounds_spec (snd (getAudioContext s)))
      as (s' & -> & _ & _ & Ha & Hf & Ht & _).
    cbn [fst snd]. repeat split; [exact Ha | exact Hf |].
    intros handle Hh. rewrite Ht. unfold cleared.
    replace (fadeTimeout (snd (getAudioContext s))) with (fadeTimeout s)
      by (unfold getAudioContext; now destruct (audioContext s)).
    rewrite Hh. apply lookup_delete_eq.
Qed.

Lemma fadeOutAllSounds_negligible_duration_witness :
  fadeOutAllSounds 0 fading_state = stopAllSounds (snd (getAudioContext fading_state)) ∧
  (is_Some (audioContext fading_state) →
   fadeOutAllSounds 0 fading_state = stopAllSounds fading_state) ∧
  let s' := snd (fadeOutAllSounds 0 fading_state) in
  fst (fadeOutAllSounds 0 fading_state) = Ok () ∧
  activeSources s' = ∅ ∧ fadeTimeout s' = None ∧
  ∀ handle, fadeTimeout fading_state = Some handle → timers s' !! handle = None.
Proof.
  apply (fadeOutAllSounds_negligible_duration 0 fading_state).
  - vm_compute. discriminate.
  - intros H. apply (f_equal size) in H. vm_compute in H. discriminate.
Defined.

(** ** [playAudioBlob] swallows every failure (claims C4 and C10) *)

Lemma bind_ok_inv {A B} (m : M A) (f : A → M B) (s s' : State) (b : B) :
  (m ≫= f) s = (Ok b, s') → ∃ a s1, m s = (Ok a, s1) ∧ f a s1 = (Ok b, s').
Proof.
  unfold mbind, M_bind. destruct (m s) as [[a|e] s1]; [eauto | discriminate].
Qed.

Lemma play_decoded_result (audioBuffer : AudioBuffer) (volume : Q) (s s' : State)
    (task : PlayTask) :
  play_decoded audioBuffer volume s = (Ok task, s') → task = Settled (Ok ()).
Proof.
  unfold play_decoded. intros H.
  repeat (apply bind_ok_inv in H as (? & ? & _ & H)).
  now injection H as <- _.
Qed.

Lemma catch_all_ok (body : M PlayTask) (s : State) :
  ∃ task s', catch_all body s = (Ok task, s') ∧
    (body s = (Ok task, s')
     ∨ ∃ e s1, body s = (Throw e, s1) ∧ task = Settled (Ok ())
               ∧ s' = set_console (console s1 ++ [e]) s1).
Proof.
  unfold catch_all, try_catch. destruct (body s) as [[task|e] s1] eqn:Hbody.
  - exists task, s1. eauto.
  - eexists _, _. split; [reflexivity|]. right. eauto.
Qed.

(** Resuming an invocation never throws: it moves the invocation to
    its next [await] or fulfils its promise. *)
Lemma respond_progress (task : PlayTask) (o : Outcomes) (s : State) :
  ∃ task' s', respond task o s = (Ok task', s') ∧ next_of task task'.
Proof.
  destruct task as [blob volume|blob volume|bytes volume|outcome]; cbn [respond next_of].
  - destruct (catch_all_ok
                (match resume_outcome o with
                 | Ok _ => context_resumed ;; mret (AwaitArrayBuffer blob volume)
                 | Throw e => throw e
                 end) s) as (task' & s' & -> & Hcase).
    exists task', s'. split; [reflexivity|].
    destruct Hcase as [Hbody|(e' & s1 & _ & -> & _)]; [|now right].
    destruct (resume_outcome o); [|discriminate].
    apply bind_ok_inv in Hbody as (? & ? & _ & [= <- _]). now left.
  - destruct (catch_all_ok
                (match arrayBuffer_outcome o with
                 | Ok _ => mret (AwaitDecode (blob_bytes blob) volume)
                 | Throw e => throw e
                 end) s) as (task' & s' & -> & Hcase).
    exists task', s'. split; [reflexivity|].
    destruct Hcase as [Hbody|(e' & s1 & _ & -> & _)]; [|now right].
    destruct (arrayBuffer_outcome o); [|discriminate].
    injection Hbody as <- _. now left.
  - destruct (catch_all_ok
                (match decode_outcome o with
                 | Ok audioBuffer => play_decoded audioBuffer volume
                 | Throw e => throw e
                 end) s) as (task' & s' & -> & Hcase).
    exists task', s'. split; [reflexivity|].
    destruct Hcase as [Hbody|(e' & s1 & _ & -> & _)]; [|reflexivity].
    destruct (decode_outcome o); [|discriminate].
    eapply play_decoded_result, Hbody.
  - exists (Settled outcome), s. split; reflexivity.
Qed.

Lemma next_of_not_rejected (task task' : PlayTask) :
  next_of task task' → (∀ e, task ≠ Settled (Throw e)) → ∀ e, task' ≠ Settled (Throw e).
Proof.
  destruct task; cbn [next_of].
  - intros [->| ->] _ e; discriminate.
  - intros [->| ->] _ e; discriminate.
  - intros -> _ e; discriminate.
  - intros -> H. exact H.
Qed.

Lemma respond_ok (task : PlayTask) (o : Outcomes) (s : State) :
  ∃ task' s', respond task o s = (Ok task', s') ∧
    ((∀ e, task ≠ Settled (Throw e)) → ∀ e, task' ≠ Settled (Throw e)).
Proof.
  destruct (respond_progress task o s) as (task' & s' & Hr & Hnext).
  exists task', s'. split; [exact Hr|]. now apply next_of_not_rejected.
Qed.

Lemma playAudioBlob_ok (blob : Blob) (volume : Q) (s : State) :
  ∃ task, playAudioBlob blob volume s = (Ok task, snd (getAudioContext s)) ∧
    (task = AwaitResume blob volume ∨ task = AwaitArrayBuffer blob volume).
Proof.
  unfold playAudioBlob, catch_all, try_catch, mbind, M_bind, getAudioContext.
  destruct (audioContext s) as [[[] t]|]; [| |destruct (autoplay_allowed s)];
    eexists; (split; [reflexivity|]); auto.
Qed.

(** C4, as stated, fails: when the decoding is rejected the promise of
    [playAudioBlob] is fulfilled like any other, so no decode error
    reaches the caller. *)
Lemma decode_failure_is_not_surfaced :
  decode_outcome decode_rejected = Throw EncodingError ∧
  fst (playAudioBlob_uninterrupted sample_blob 1 decode_rejected (initial true true))
  = Ok (Settled (Ok ())) ∧
  ¬ surfaces (fst (playAudioBlob_uninterrupted sample_blob 1 decode_rejected
                     (initial true true))) EncodingError.
Proof.
  split; [reflexivity|]. split; [reflexivity|].
  intros [H|H]; vm_compute in H; discriminate.
Qed.

(** C4 (amended): for every payload whose bytes fail to decode,
    [playAudioBlob] logs the error to the console and its promise is
    fulfilled (no failure is reported to the caller); playback does
    not start and the call has no effect on the voices: no voice is
    registered, the registry, every source and gain node, the pending
    fade and its timer are as before the call. *)
Theorem playAudioBlob_decode_failure (blob : Blob) (volume : Q) (o : Outcomes)
    (e : Exception) (s : State) :
  decode_outcome o = Throw e →
  ∃ s' logged,
    playAudioBlob_uninterrupted blob volume o s = (Ok (Settled (Ok ())), s') ∧
    console s' = console s ++ [logged] ∧
    activeSources s' = activeSources s ∧ sources s' = sources s ∧ gains s' = gains s ∧
    fadeTimeout s' = fadeTimeout s ∧ timers s' = timers s ∧
    masterGainNode s' = masterGainNode (snd (getAudioContext s)).
Proof.
  intros Hdecode. unfold playAudioBlob_uninterrupted.
  destruct o as [resume read decoded]. cbn [decode_outcome] in Hdecode. subst decoded.
  unfold playAudioBlob, respond, catch_all, try_catch, mbind, M_bind, getAudioContext,
    context_resumed, console_error, modify, throw, mret, M_ret.
  destruct s as [[[[] t]|] ? ? ? ? ? ? ? ? ? ? ? [] ?], resume as [[]|?], read as [[]|?];
    cbn; eexists _, _; repeat split.
Qed.

Lemma playAudioBlob_decode_failure_witness :
  ∃ s' logged,
    playAudioBlob_uninterrupted sample_blob 1 decode_rejected fading_state
    = (Ok (Settled (Ok ())), s') ∧
    console s' = console fading_state ++ [logged] ∧
    activeSources s' = activeSources fading_state ∧ sources s' = sources fading_state ∧
    gains s' = gains fading_state ∧
    fadeTimeout s' = fadeTimeout fading_state ∧ timers s' = timers fading_state ∧
    masterGainNode s' = masterGainNode (snd (getAudioContext fading_state)).
Proof.
  apply (playAudioBlob_decode_failure sample_blob 1 decode_rejected EncodingError
           fading_state).
  reflexivity.
Defined.

(** ** The synchronous tail of [playAudioBlob] *)

Ltac norm :=
  cbn [audioContext masterGainNode activeSources fadeTimeout sources gains next_node timers
       next_timer console tasks next_task autoplay_allowed nodes_available
       set_context set_activeSources set_fadeTimeout set_nodes set_timers set_console
       set_tasks set_platform
       src_buffer src_playback src_output src_onended gain_param gain_output
       param_value param_events fst snd].

Ltac mstep tac := erewrite bind_ok by tac; norm.

Lemma set_nodes_twice ss gs n ss' gs' n' (s : State) :
  set_nodes ss gs n (set_nodes ss' gs' n' s) = set_nodes ss gs n s.
Proof. reflexivity. Qed.

Lemma gain_connect_ok (g : nat) (d : Destination) (s : State) (node : GainNode) :
  gains s !! g = Some node →
  gain_connect g d s
  = (Ok (), set_nodes (sources s)
              (<[g := {| gain_param := gain_param node; gain_output := Some d |}]> (gains s))
              (next_node s) s).
Proof. intros Hg. unfold gain_connect. now rewrite Hg. Qed.

Lemma play_decoded_started (audioBuffer : AudioBuffer) (volume : Q) (s : State) :
  nodes_available s = true →
  ∃ s',
    play_decoded audioBuffer volume s = (Ok (Settled (Ok ())), s') ∧
    activeSources s' = {[(next_node s, S (next_node s))]} ∧
    next_node s' = S (S (next_node s)) ∧
    sources s' !! next_node s
    = Some {| src_buffer := Some audioBuffer; src_playback := Playing;
              src_output := Some (S (next_node s));
              src_onended := Some (next_node s, S (next_node s)) |} ∧
    gains s' !! S (next_node s)
    = Some {| gain_param := {| param_value := volume; param_events := [] |};
              gain_output := Some (match masterGainNode s with
                                   | Some _ => MasterGain
                                   | None => ContextDestination
                                   end) |} ∧
    audioContext s' = audioContext s ∧ masterGainNode s' = masterGainNode s ∧
    fadeTimeout s' = None ∧ timers s' = cleared s ∧ next_timer s' = next_timer s ∧
    tasks s' = tasks s ∧ next_task s' = next_task s ∧
    autoplay_allowed s' = autoplay_allowed s ∧ nodes_available s' = nodes_available s.
Proof.
  intros Havail.
  destruct (stopAllSounds_spec s)
    as (s1 & Hstop & Hc & Hm & Ha & Hf & Ht & Hnt & Hnn & Hts & Hntk & Hap & Hna & _).
  unfold play_decoded.
  rewrite (bind_ok _ _ _ _ _ Hstop).
  unfold createBufferSource at 1. unfold mbind at 1, M_bind at 1.
  rewrite Hna, Havail. cbv beta iota zeta.
  mstep ltac:(eapply update_source_ok; [apply lookup_insert_eq | reflexivity]).
  unfold createGain at 1. unfold mbind at 1, M_bind at 1. norm.
  rewrite Hna, Havail. cbv beta iota zeta.
  mstep ltac:(eapply update_gain_ok; [apply lookup_insert_eq | reflexivity]).
  mstep ltac:(eapply update_source_ok; [apply lookup_insert_eq | reflexivity]).
  unfold get at 1. unfold mbind at 1, M_bind at 1. cbv beta iota zeta. norm.
  rewrite !set_nodes_twice.
  set (d := match masterGainNode s with Some _ => MasterGain | None => ContextDestination end).
  match goal with |- context [mbind ?k ?m] =>
    replace m with (gain_connect (S (next_node s1)) d) by (subst d; rewrite <- Hm; now destruct (masterGainNode s1))
  end.
  mstep ltac:(eapply gain_connect_ok; apply lookup_insert_eq).
  mstep ltac:(eapply update_source_ok; [apply lookup_insert_eq | reflexivity]).
  unfold modify at 1. unfold mbind at 1, M_bind at 1. cbv beta iota zeta. norm.
  mstep ltac:(eapply update_source_ok; [apply lookup_insert_eq | reflexivity]).
  rewrite !set_nodes_twice.
  eexists. split; [reflexivity|]. norm.
  rewrite Ha, Hnn, Hc, Hm, Hf, Ht, Hnt, Hts, Hntk, Hap, Hna.
  rewrite !lookup_insert_eq. unfold assign_value. norm.
  repeat split; [|exact Havail]. apply (right_id_L ∅ (∪)).
Qed.


Lemma play_decoded_no_nodes (audioBuffer : AudioBuffer) (volume : Q) (s : State) :
  nodes_available s = false →
  play_decoded audioBuffer volume s = (Throw NotSupportedError, snd (stopAllSounds s)).
Proof.
  intros Havail.
  destruct (stopAllSounds_spec s)
    as (s1 & Hstop & _ & _ & _ & _ & _ & _ & _ & _ & _ & _ & Hna & _).
  unfold play_decoded. rewrite (bind_ok _ _ _ _ _ Hstop), Hstop.
  unfold createBufferSource, mbind, M_bind. now rewrite Hna, Havail.
Qed.

(** ** [fadeOutAllSounds] *)

Lemma getAudioContext_spec (s : State) :
  ∃ ctx s0, getAudioContext s = (Ok ctx, s0) ∧ audioContext s0 = Some ctx ∧
    (audioContext s = Some ctx ∧ s0 = s
     ∨ audioContext s = None ∧ currentTime ctx = 0%Q ∧ is_Some (masterGainNode s0)) ∧
    activeSources s0 = activeSources s ∧ fadeTimeout s0 = fadeTimeout s ∧
    timers s0 = timers s ∧ next_timer s0 = next_timer s ∧ next_node s0 = next_node s ∧
    tasks s0 = tasks s ∧ next_task s0 = next_task s ∧
    autoplay_allowed s0 = autoplay_allowed s ∧ nodes_available s0 = nodes_available s ∧
    sources s0 = sources s ∧ gains s0 = gains s ∧ console s0 = console s.
Proof.
  unfold getAudioContext. destruct (audioContext s) as [ctx|] eqn:Hctx.
  - exists ctx, s. repeat split; auto.
  - eexists _, _. split; [reflexivity|]. cbn. repeat split; eauto.
Qed.

(** The three ways [fadeOutAllSounds] can go, after the audio context
    is obtained. *)
Lemma fadeOutAllSounds_spec (duration : Q) (s : State) :
  let s0 := snd (getAudioContext s) in
  ∃ s', fadeOutAllSounds duration s = (Ok (), s') ∧
    (activeSources s = ∅ ∧ s' = s0
     ∨ activeSources s ≠ ∅ ∧ (duration <= 5 # 100)%Q ∧ s' = snd (stopAllSounds s0)
     ∨ activeSources s ≠ ∅ ∧ ¬ (duration <= 5 # 100)%Q ∧
       same_control
         (set_fadeTimeout (Some (next_timer s))
            (set_timers (<[next_timer s := (duration * 1000)%Q]> (cleared s))
               (Pos.succ (next_timer s)) s0))
         s').
Proof.
  intros s0.
  destruct (getAudioContext_spec s)
    as (ctx & s0' & Hget & _ & _ & Ha & Hf & Ht & Hnt & _).
  assert (s0 = s0') as Hs0 by (unfold s0; now rewrite Hget). subst s0'.
  unfold fadeOutAllSounds. rewrite (bind_ok _ _ _ _ _ Hget).
  unfold get at 1. unfold mbind at 1, M_bind at 1. cbv beta iota. rewrite Ha.
  destruct (decide (size (activeSources s) = 0%nat)) as [Hsize|Hsize].
  { exists s0. split; [reflexivity|]. left. split; [|reflexivity].
    apply leibniz_equiv, size_empty_inv, Hsize. }
  assert (activeSources s ≠ ∅) as Hne by (intros He; apply Hsize; rewrite He; apply size_empty).
  destruct (Qle_bool duration (5 # 100)) eqn:Hshort.
  { destruct (stopAllSounds_spec s0) as (s' & Hstop & _).
    exists s'. split; [exact Hstop|]. right; left. rewrite Hstop.
    split; [exact Hne|]. split; [now apply Qle_bool_iff | reflexivity]. }
  rewrite (bind_ok _ _ _ _ _ (cancel_pending_fade_eq s0)).
  set (s1 := set_fadeTimeout None (set_timers (cleared s0) (next_timer s0) s0)).
  destruct (forEach_frame (activeSources s)
              (ramp_entry ctx (currentTime ctx + duration)%Q)
              (keeps_control_ramp_entry ctx _) (returns_ramp_entry ctx _) s1)
    as [Hok Hsame].
  destruct (forEach (activeSources s) (ramp_entry ctx (currentTime ctx + duration)%Q) s1)
    as [r s2] eqn:Hloop.
  cbn [fst snd] in Hok, Hsame. subst r.
  rewrite (bind_ok _ _ _ _ _ Hloop).
  unfold setTimeout, modify, mbind, M_bind. cbv beta iota zeta.
  eexists. split; [reflexivity|]. right; right.
  split; [exact Hne|]. split; [intros Hle; apply Qle_bool_iff in Hle; congruence|].
  destruct Hsame as (Hc2 & Hm2 & Ha2 & Hf2 & Ht2 & Hnt2 & Hnn2 & Hts2 & Hntk2 & Hap2 & Hna2).
  unfold same_control. norm. cbn [set_fadeTimeout set_timers] in *.
  rewrite Hc2, Hm2, Ha2, Ht2, Hnt2, Hnn2, Hts2, Hntk2, Hap2, Hna2.
  unfold s1. norm.
  replace (cleared s0) with (cleared s) by (unfold cleared; now rewrite Hf, Ht).
  rewrite Hnt. repeat split.
Qed.

(** ** The invariant of the reachable states *)

Lemma Inv_initial (autoplay nodes : bool) : Inv (initial autoplay nodes).
Proof.
  constructor; cbn.
  - rewrite size_empty. lia.
  - intros h [x Hx]. rewrite lookup_empty in Hx. discriminate.
  - intros h [x Hx]. rewrite lookup_empty in Hx. discriminate.
  - intros src g Hin. apply not_elem_of_empty in Hin as [].
  - intros ctx [=].
  - intros [x [=]].
  - intros id e. rewrite lookup_empty. discriminate.
Qed.

Lemma Inv_same_control (s s' : State) : same_control s s' → Inv s → Inv s'.
Proof.
  intros (Hc & Hm & Ha & Hf & Ht & Hnt & Hnn & Hts & Hntk & Hap & Hna) [].
  constructor; rewrite ?Hc, ?Hm, ?Ha, ?Hf, ?Ht, ?Hnt, ?Hnn, ?Hts; assumption.
Qed.

Lemma cleared_empty (s : State) :
  (∀ h, is_Some (timers s !! h) → fadeTimeout s = Some h) → cleared s = ∅.
Proof.
  intros Hpending. apply map_empty. intros h. unfold cleared.
  destruct (fadeTimeout s) as [h0|] eqn:Hf.
  - destruct (decide (h0 = h)) as [->|Hne]; [apply lookup_delete_eq|].
    rewrite lookup_delete_ne by exact Hne.
    destruct (timers s !! h) eqn:Hh; [|reflexivity].
    assert (Some h0 = Some h) as [= ?] by (apply Hpending; eauto). contradiction.
  - destruct (timers s !! h) eqn:Hh; [|reflexivity].
    assert (@None positive = Some h) by (apply Hpending; eauto). discriminate.
Qed.

Lemma Inv_getAudioContext (s : State) : Inv s → Inv (snd (getAudioContext s)).
Proof.
  intros HI.
  destruct (getAudioContext_spec s)
    as (ctx & s0 & -> & Hctx & Hcase & Ha & Hf & Ht & Hnt & Hnn & Hts & _).
  cbn [snd]. destruct Hcase as [[_ ->]|(Hnone & Hzero & Hmaster)]; [exact HI|].
  destruct HI. constructor; rewrite ?Ha, ?Hf, ?Ht, ?Hnt, ?Hnn, ?Hts; try assumption.
  - intros ctx' Hctx'. rewrite Hctx in Hctx'. injection Hctx' as <-. rewrite Hzero.
    apply Qle_refl.
  - intros _. exact Hmaster.
Qed.

Lemma Inv_stopAllSounds (s : State) : Inv s → Inv (snd (stopAllSounds s)).
Proof.
  intros [].
  destruct (stopAllSounds_spec s)
    as (s' & -> & Hc & Hm & Ha & Hf & Ht & Hnt & Hnn & Hts & _).
  cbn [snd]. pose proof (cleared_empty s inv_pending0) as Hcleared.
  constructor; rewrite ?Hc, ?Hm, ?Ha, ?Hf, ?Ht, ?Hnt, ?Hnn, ?Hts, ?Hcleared; try assumption.
  - rewrite size_empty. lia.
  - intros h [x Hx]. rewrite lookup_empty in Hx. discriminate.
  - intros h [x Hx]. rewrite lookup_empty in Hx. discriminate.
  - intros src g Hin. apply not_elem_of_empty in Hin as [].
Qed.

Lemma Inv_fadeOutAllSounds (duration : Q) (s : State) :
  Inv s → Inv (snd (fadeOutAllSounds duration s)).
Proof.
  intros HI. pose proof (Inv_getAudioContext s HI) as HI0.
  destruct (fadeOutAllSounds_spec duration s)
    as (s' & -> & [[_ ->]|[(_ & _ & ->)|(_ & _ & Hsame)]]); cbn [snd].
  - exact HI0.
  - apply Inv_stopAllSounds, HI0.
  - eapply Inv_same_control; [exact Hsame|].
    pose proof (cleared_empty s (inv_pending s HI)) as Hcleared.
    destruct HI0. constructor; norm; try assumption; rewrite Hcleared.
    + intros h [x Hx]. apply lookup_insert_Some in Hx as [[<- _]|[_ Hx]]; [reflexivity|].
      rewrite lookup_empty in Hx. discriminate.
    + intros h [x Hx]. apply lookup_insert_Some in Hx as [[<- _]|[_ Hx]]; [lia|].
      rewrite lookup_empty in Hx. discriminate.
Qed.

Lemma setMasterVolume_spec (volume : Q) (s : State) :
  ∀ ctx master s0,
    getAudioContext s = (Ok ctx, s0) → masterGainNode s0 = Some master →
    (0 <= currentTime ctx)%Q →
    setMasterVolume volume s
    = (Ok (), set_context (audioContext s0)
                (Some {| gain_param :=
                           schedule (SetTargetAtTime volume (currentTime ctx) (2 # 100))
                                    (gain_param master);
                         gain_output := gain_output master |}) s0).
Proof.
  intros ctx master s0 Hget Hmaster Hclock. unfold setMasterVolume.
  rewrite (bind_ok _ _ _ _ _ Hget).
  unfold get, lift, modify, mbind, M_bind. rewrite Hmaster.
  unfold setTargetAtTime, negative. apply Qle_bool_iff in Hclock. rewrite Hclock.
  reflexivity.
Qed.

Lemma Inv_setMasterVolume (volume : Q) (s : State) :
  Inv s → Inv (snd (setMasterVolume volume s)).
Proof.
  intros HI. pose proof (Inv_getAudioContext s HI) as HI0.
  destruct (getAudioContext_spec s) as (ctx & s0 & Hget & Hctx & _).
  rewrite Hget in HI0. cbn [snd] in HI0.
  destruct (inv_master s0 HI0) as [master Hmaster]; [rewrite Hctx; eauto|].
  rewrite (setMasterVolume_spec volume s ctx master s0 Hget Hmaster
             (inv_clock s0 HI0 ctx Hctx)).
  cbn [snd]. destruct HI0. constructor; norm; try assumption. eauto.
Qed.

Lemma Inv_console (c : list Exception) (s : State) : Inv s → Inv (set_console c s).
Proof. apply Inv_same_control. repeat split. Qed.

Lemma Inv_play_decoded (audioBuffer : AudioBuffer) (volume : Q) (s : State) :
  Inv s → Inv (snd (play_decoded audioBuffer volume s)).
Proof.
  intros HI. destruct (nodes_available s) eqn:Havail.
  - destruct (play_decoded_started audioBuffer volume s Havail)
      as (s' & -> & Ha & Hnn & _ & _ & Hc & Hm & Hf & Ht & Hnt & Hts & _).
    cbn [snd]. pose proof (cleared_empty s (inv_pending s HI)) as Hcleared.
    destruct HI.
    constructor; rewrite ?Hc, ?Hm, ?Ha, ?Hf, ?Ht, ?Hnt, ?Hnn, ?Hts, ?Hcleared;
      try assumption.
    + rewrite size_singleton. lia.
    + intros h [x Hx]. rewrite lookup_empty in Hx. discriminate.
    + intros h [x Hx]. rewrite lookup_empty in Hx. discriminate.
    + intros src g Hin. apply elem_of_singleton in Hin. injection Hin as -> ->. lia.
  - rewrite (play_decoded_no_nodes audioBuffer volume s Havail). cbn [snd].
    apply Inv_stopAllSounds, HI.
Qed.

Lemma Inv_catch_all (body : M PlayTask) (s : State) :
  Inv (snd (body s)) → Inv (snd (catch_all body s)).
Proof.
  intros HI. destruct (catch_all_ok body s) as (task & s' & -> & Hcase). cbn [snd].
  destruct Hcase as [Hbody|(e & s1 & Hbody & _ & ->)]; rewrite Hbody in HI; cbn [snd] in HI.
  - exact HI.
  - apply Inv_console, HI.
Qed.

Lemma Inv_context_resumed (s : State) : Inv s → Inv (snd (context_resumed s)).
Proof.
  intros HI. unfold context_resumed. destruct (audioContext s) as [ctx|] eqn:Hctx; [|exact HI].
  cbn [snd]. destruct HI. constructor; norm; try assumption.
  - intros ctx' [= <-]. cbn [currentTime]. apply inv_clock0, Hctx.
  - intros _. apply inv_master0. rewrite Hctx. eauto.
Qed.

Lemma Inv_respond (task : PlayTask) (o : Outcomes) (s : State) :
  Inv s → Inv (snd (respond task o s)).
Proof.
  intros HI. destruct task as [blob volume|blob volume|bytes volume|outcome]; cbn [respond].
  - apply Inv_catch_all. destruct (resume_outcome o); [|exact HI].
    unfold mbind, M_bind.
    pose proof (Inv_context_resumed s HI) as HI'.
    destruct (context_resumed s) as [[[]|e] s1]; exact HI'.
  - apply Inv_catch_all. destruct (arrayBuffer_outcome o); exact HI.
  - apply Inv_catch_all. destruct (decode_outcome o); [|exact HI].
    apply Inv_play_decoded, HI.
  - exact HI.
Qed.

Lemma Inv_store_task (id n : nat) (task : PlayTask) (s : State) :
  (∀ e, task ≠ Settled (Throw e)) → Inv s → Inv (set_tasks (<[id := task]> (tasks s)) n s).
Proof.
  intros Htask []. constructor; norm; try assumption.
  intros id' e. destruct (decide (id = id')) as [<-|Hne].
  - rewrite lookup_insert_eq. intros [= ->]. now apply (Htask e).
  - rewrite lookup_insert_ne by exact Hne. auto.
Qed.

Lemma Inv_source_ended (src : nat) (s : State) : Inv s → Inv (snd (source_ended src s)).
Proof.
  intros HI. unfold source_ended.
  destruct (sources s !! src) as [node|]; [|exact HI].
  destruct (src_playback node), (src_onended node) as [entry|]; try exact HI.
  cbn [snd]. destruct HI. constructor; norm; try assumption.
  - etransitivity; [apply subseteq_size|exact inv_solo0].
    apply subseteq_difference_l. reflexivity.
  - intros source gain Hin. apply inv_entries0.
    apply elem_of_difference in Hin as [Hin _]. exact Hin.
Qed.

Lemma Inv_timer_fires (handle : positive) (s : State) : Inv s → Inv (snd (timer_fires handle s)).
Proof.
  intros HI. unfold timer_fires. destruct (timers s !! handle); [|exact HI].
  unfold clearTimeout, modify, mbind, M_bind. cbv beta iota.
  apply Inv_stopAllSounds. destruct HI. constructor; norm; try assumption.
  - intros h [x Hx]. apply lookup_delete_Some in Hx as [_ Hx]. eauto.
  - intros h [x Hx]. apply lookup_delete_Some in Hx as [_ Hx]. eauto.
Qed.

Lemma Inv_tick (dt : Q) (s : State) : Inv s → Inv (snd (tick dt s)).
Proof.
  intros HI. unfold tick. destruct (audioContext s) as [[[] t]|] eqn:Hctx; try exact HI.
  destruct (negative dt) eqn:Hdt; [exact HI|].
  cbn [snd]. pose proof (inv_clock s HI _ Hctx) as Hclock. cbn [currentTime] in Hclock.
  destruct HI. constructor; norm; try assumption.
  - intros ctx' [= <-]. cbn [currentTime].
    apply negb_false_iff, Qle_bool_iff in Hdt.
    rewrite <- (Qplus_0_r 0). apply Qplus_le_compat; assumption.
  - intros _. apply inv_master0. rewrite Hctx. eauto.
Qed.

(** Every event keeps the invariant. *)
Lemma Inv_step (s : State) (ev : Event) : Inv s → Inv (step s ev).
Proof.
  intros HI. destruct ev as [volume| |d|blob volume|id o|src|src|handle|dt|g v|autoplay nodes];
    cbn [step].
  - apply Inv_setMasterVolume, HI.
  - apply Inv_stopAllSounds, HI.
  - apply Inv_fadeOutAllSounds, HI.
  - set (s1 := set_tasks (tasks s) (S (next_task s)) s).
    assert (Inv s1) as HI1 by (destruct HI; constructor; assumption).
    destruct (playAudioBlob_ok blob volume s1) as (task & -> & Htask).
    cbn [store_task]. apply Inv_store_task.
    + intros e ->. destruct Htask; discriminate.
    + apply Inv_getAudioContext, HI1.
  - destruct (tasks s !! id) as [task|] eqn:Htask; [|exact HI].
    pose proof (Inv_respond task o s HI) as HI'.
    destruct (respond_ok task o s) as (task' & s' & Hr & Hkeep).
    rewrite Hr in *. cbn [store_task snd] in *. apply Inv_store_task; [|exact HI'].
    apply Hkeep. intros e ->. exact (inv_tasks s HI id e Htask).
  - unfold source_finishes.
    pose proof (keeps_control_update_source src stop s) as Hsame.
    destruct (update_source src stop s) as [r s']. cbn [snd] in *.
    eapply Inv_same_control; [exact Hsame | exact HI].
  - apply Inv_source_ended, HI.
  - apply Inv_timer_fires, HI.
  - apply Inv_tick, HI.
  - unfold rendered.
    pose proof (keeps_control_update_gain g (fun p => Ok (assign_value v p)) s) as Hsame.
    destruct (update_gain g _ s) as [r s']. cbn [snd] in *.
    eapply Inv_same_control; [exact Hsame | exact HI].
  - destruct HI. constructor; assumption.
Qed.

Lemma Inv_run (trace : list Event) : ∀ s, Inv s → Inv (run s trace).
Proof.
  induction trace as [|ev trace IH]; intros s HI; [exact HI|].
  apply IH, Inv_step, HI.
Qed.

Lemma Inv_reachable (autoplay nodes : bool) (trace : list Event) :
  Inv (run (initial autoplay nodes) trace).
Proof. apply Inv_run, Inv_initial. Qed.

(** ** The solo invariant (claim C1) *)

(** C1: in every state reached by any sequence of events (calls of
    the four operations, promises settling, sources ending, timers
    firing), the registry holds at most one voice; the
    solo-enforcement step of [playAudioBlob] empties the registry, and
    when the invocation completes the registry holds at most one
    voice, the newly created one, and none of the voices registered
    before, whatever their state. *)
Theorem solo_invariant (autoplay nodes : bool) (trace : list Event) :
  let s := run (initial autoplay nodes) trace in
  (size (activeSources s) ≤ 1)%nat ∧
  activeSources (snd (stopAllSounds s)) = ∅ ∧
  ∀ audioBuffer volume,
    let s' := snd (play_decoded audioBuffer volume s) in
    let new : AudioSourceEntry := (next_node s, S (next_node s)) in
    (size (activeSources s') ≤ 1)%nat ∧
    (∀ entry, entry ∈ activeSources s' → entry = new) ∧
    (∀ old, old ∈ activeSources s → old ∉ activeSources s') ∧
    (nodes_available s = true →
     activeSources s' = {[new]} ∧
     ∃ node, sources s' !! new.1 = Some node ∧ src_playback node = Playing ∧
             src_buffer node = Some audioBuffer).
Proof.
  intros s. pose proof (Inv_reachable autoplay nodes trace) as HI. fold s in HI.
  split; [exact (inv_solo s HI)|]. split.
  { destruct (stopAllSounds_spec s) as (s' & -> & _ & _ & Ha & _). exact Ha. }
  intros audioBuffer volume s' new.
  pose proof (inv_solo _ (Inv_play_decoded audioBuffer volume s HI)) as Hsolo.
  fold s' in Hsolo. split; [exact Hsolo|].
  destruct (nodes_available s) eqn:Havail.
  - destruct (play_decoded_started audioBuffer volume s Havail)
      as (s'' & Hrun & Ha & _ & Hsrc & _).
    assert (s' = s'') as -> by (unfold s'; now rewrite Hrun).
    rewrite Ha. split; [|split].
    + intros entry Hin. now apply elem_of_singleton in Hin.
    + intros [src g] Hold Hin. apply elem_of_singleton in Hin.
      destruct (inv_entries s HI src g Hold) as [Hlt _].
      unfold new in Hin. injection Hin as -> _. lia.
    + intros _. split; [reflexivity|]. eexists. split; [exact Hsrc|]. split; reflexivity.
  - assert (activeSources s' = ∅) as Hempty.
    { unfold s'. rewrite (play_decoded_no_nodes audioBuffer volume s Havail). cbn [snd].
      destruct (stopAllSounds_spec s) as (s1 & -> & _ & _ & Ha & _). exact Ha. }
    rewrite Hempty. split; [|split; [|discriminate]].
    + intros entry Hin. apply not_elem_of_empty in Hin as [].
    + intros old _. apply not_elem_of_empty.
Qed.

(** ** The pending fade (claim C3) *)

Lemma pending_at_most_one (s : State) :
  (∀ h, is_Some (timers s !! h) → fadeTimeout s = Some h) → (size (timers s) ≤ 1)%nat.
Proof.
  intros Hpending. rewrite <- size_dom.
  set (X := match fadeTimeout s with Some h => {[h]} | None => ∅ end : gset positive).
  transitivity (size X).
  - apply subseteq_size. intros h Hh. apply elem_of_dom in Hh.
    apply Hpending in Hh. unfold X. rewrite Hh. now apply elem_of_singleton.
  - unfold X. destruct (fadeTimeout s); [rewrite size_singleton | rewrite size_empty]; lia.
Qed.

Lemma timers_after_stopAllSounds (s : State) :
  Inv s → timers (snd (stopAllSounds s)) = ∅.
Proof.
  intros HI. destruct (stopAllSounds_spec s) as (s' & -> & _ & _ & _ & _ & Ht & _).
  cbn [snd]. rewrite Ht. apply cleared_empty, (inv_pending s HI).
Qed.

(** C3: in every state reached by any sequence of events there is at
    most one active timer, and it is the one recorded in
    [fadeTimeout]; [stopAllSounds] leaves no active timer; a call of
    [fadeOutAllSounds] either schedules nothing (and then adds no
    timer) or leaves exactly one active timer, the newly created one,
    whose handle was not active before, so the previous one is
    cancelled; and after [fadeOutAllSounds] followed by
    [stopAllSounds] there is no active timer, so no deferred stop
    fires later. *)
Theorem pending_fade_invariant (autoplay nodes : bool) (trace : list Event) :
  let s := run (initial autoplay nodes) trace in
  (size (timers s) ≤ 1)%nat ∧
  (∀ handle, is_Some (timers s !! handle) → fadeTimeout s = Some handle) ∧
  timers (snd (stopAllSounds s)) = ∅ ∧
  ∀ duration,
    let s' := snd (fadeOutAllSounds duration s) in
    (size (timers s') ≤ 1)%nat ∧
    (timers s' = timers s
     ∨ timers s' = ∅
     ∨ timers s' = {[next_timer s := (duration * 1000)%Q]} ∧
       fadeTimeout s' = Some (next_timer s) ∧ timers s !! next_timer s = None) ∧
    timers (snd (stopAllSounds s')) = ∅ ∧
    ∀ handle, timer_fires handle (snd (stopAllSounds s')) = (Ok (), snd (stopAllSounds s')).
Proof.
  intros s. pose proof (Inv_reachable autoplay nodes trace) as HI. fold s in HI.
  split; [apply pending_at_most_one, (inv_pending s HI)|].
  split; [exact (inv_pending s HI)|].
  split; [apply timers_after_stopAllSounds, HI|].
  intros duration s'.
  pose proof (Inv_fadeOutAllSounds duration s HI) as HI'. fold s' in HI'.
  split; [apply pending_at_most_one, (inv_pending s' HI')|].
  pose proof (timers_after_stopAllSounds s' HI') as Hnone.
  split; [|split; [exact Hnone|]].
  - destruct (fadeOutAllSounds_spec duration s)
      as (s'' & Hrun & [[_ Heq]|[(_ & _ & Heq)|(_ & _ & Hsame)]]);
      assert (s' = s'') as Hs' by (unfold s'; now rewrite Hrun); rewrite Hs'.
    + left. rewrite Heq. unfold getAudioContext. now destruct (audioContext s).
    + right; left. rewrite Heq. apply timers_after_stopAllSounds, Inv_getAudioContext, HI.
    + right; right.
      destruct Hsame as (_ & _ & _ & Hf & Ht & _). norm. cbn [set_fadeTimeout] in Hf, Ht.
      rewrite Ht, Hf, (cleared_empty s (inv_pending s HI)).
      split; [reflexivity|]. split; [reflexivity|].
      destruct (timers s !! next_timer s) eqn:Hold; [|reflexivity].
      pose proof (inv_handles s HI (next_timer s) ltac:(eauto)). lia.
  - intros handle. unfold timer_fires. now rewrite Hnone, lookup_empty.
Qed.

(** ** The master volume (claim C8) *)

(** In a state that satisfies the invariant, [setMasterVolume]
    returns normally and its only effect on the master gain is one
    appended [setTargetAtTime] event. *)
Lemma setMasterVolume_effect (level : Q) (s : State) :
  Inv s →
  ∃ ctx master master',
    audioContext (snd (getAudioContext s)) = Some ctx ∧
    masterGainNode (snd (getAudioContext s)) = Some master ∧
    fst (setMasterVolume level s) = Ok () ∧
    masterGainNode (snd (setMasterVolume level s)) = Some master' ∧
    gain_output master' = gain_output master ∧
    smooth_transition (gain_param master) (gain_param master') level (currentTime ctx) ∧
    scheduled_target (gain_param master') = Some level.
Proof.
  intros HI. pose proof (Inv_getAudioContext s HI) as HI0.
  destruct (getAudioContext_spec s) as (ctx & s0 & Hget & Hctx & _).
  rewrite Hget in *. cbn [snd] in *.
  destruct (inv_master s0 HI0) as [master Hmaster]; [rewrite Hctx; eauto|].
  rewrite (setMasterVolume_spec level s ctx master s0 Hget Hmaster
             (inv_clock s0 HI0 ctx Hctx)).
  exists ctx, master. eexists. norm.
  split; [exact Hctx|]. split; [exact Hmaster|]. split; [reflexivity|].
  split; [reflexivity|]. norm. split; [reflexivity|]. split.
  - unfold smooth_transition, schedule. norm. repeat split.
  - unfold scheduled_target, schedule. norm. now rewrite last_snoc.
Qed.

(** C8: in every reachable state and for every level,
    [setMasterVolume] returns normally and moves the master gain
    towards the level by a [setTargetAtTime] transition starting now
    with the time constant 0.02 s: the value of the gain is not
    assigned and no other event is scheduled. Called a second time
    with the same level it schedules a transition to the target the
    gain is already heading to, and the value is again untouched. *)
Theorem setMasterVolume_smooth (autoplay nodes : bool) (trace : list Event) (level : Q) :
  let s := run (initial autoplay nodes) trace in
  let s1 := snd (setMasterVolume level s) in
  let s2 := snd (setMasterVolume level s1) in
  ∃ ctx master master1 master2,
    audioContext (snd (getAudioContext s)) = Some ctx ∧
    masterGainNode (snd (getAudioContext s)) = Some master ∧
    fst (setMasterVolume level s) = Ok () ∧
    masterGainNode s1 = Some master1 ∧
    smooth_transition (gain_param master) (gain_param master1) level (currentTime ctx) ∧
    scheduled_target (gain_param master1) = Some level ∧
    fst (setMasterVolume level s1) = Ok () ∧
    masterGainNode s2 = Some master2 ∧
    smooth_transition (gain_param master1) (gain_param master2) level (currentTime ctx) ∧
    param_value (gain_param master2) = param_value (gain_param master).
Proof.
  intros s s1 s2. pose proof (Inv_reachable autoplay nodes trace) as HI. fold s in HI.
  pose proof (Inv_setMasterVolume level s HI) as HI1. fold s1 in HI1.
  destruct (setMasterVolume_effect level s HI)
    as (ctx & master & master1 & Hctx & Hmaster & Hok & Hmaster1 & _ & Hsmooth & Htarget).
  fold s1 in Hmaster1.
  destruct (setMasterVolume_effect level s1 HI1)
    as (ctx' & master' & master2 & Hctx' & Hmaster' & Hok' & Hmaster2 & _ & Hsmooth' & _).
  fold s2 in Hmaster2.
  assert (audioContext s1 = Some ctx) as Hctx1.
  { destruct (getAudioContext_spec s) as (c & s0 & Hget & Hc & _).
    pose proof (Inv_getAudioContext s HI) as HI0. rewrite Hget in HI0, Hctx.
    cbn [snd] in HI0, Hctx.
    destruct (inv_master s0 HI0) as [m Hm]; [rewrite Hc; eauto|].
    unfold s1.
    rewrite (setMasterVolume_spec level s c m s0 Hget Hm (inv_clock s0 HI0 c Hc)).
    norm. exact Hctx. }
  assert (snd (getAudioContext s1) = s1) as Hsame
    by (unfold getAudioContext; now rewrite Hctx1).
  rewrite Hsame in Hctx', Hmaster'.
  assert (ctx' = ctx) as -> by congruence.
  assert (master' = master1) as -> by congruence.
  exists ctx, master, master1, master2.
  repeat (split; [assumption|]).
  destruct Hsmooth as (Hv & _), Hsmooth' as (Hv' & _). congruence.
Qed.

(** ** [playAudioBlob] never rejects (claim C10) *)

(** The stores after a completed [play_decoded]: apart from the two
    new nodes they are the stores [stopAllSounds] leaves. *)
Lemma play_decoded_stores (audioBuffer : AudioBuffer) (volume : Q) (s : State) :
  nodes_available s = true →
  ∃ s1 s',
    stopAllSounds s = (Ok (), s1) ∧
    play_decoded audioBuffer volume s = (Ok (Settled (Ok ())), s') ∧
    (∀ id, id ≠ next_node s → sources s' !! id = sources s1 !! id) ∧
    (∀ g, g ≠ S (next_node s) → gains s' !! g = gains s1 !! g) ∧
    console s' = console s1.
Proof.
  intros Havail.
  destruct (stopAllSounds_spec s)
    as (s1 & Hstop & Hc & Hm & Ha & Hf & Ht & Hnt & Hnn & Hts & Hntk & Hap & Hna & _).
  exists s1. unfold play_decoded.
  rewrite (bind_ok _ _ _ _ _ Hstop).
  unfold createBufferSource at 1. unfold mbind at 1, M_bind at 1.
  rewrite Hna, Havail. cbv beta iota zeta.
  mstep ltac:(eapply update_source_ok; [apply lookup_insert_eq | reflexivity]).
  unfold createGain at 1. unfold mbind at 1, M_bind at 1. norm.
  rewrite Hna, Havail. cbv beta iota zeta.
  mstep ltac:(eapply update_gain_ok; [apply lookup_insert_eq | reflexivity]).
  mstep ltac:(eapply update_source_ok; [apply lookup_insert_eq | reflexivity]).
  unfold get at 1. unfold mbind at 1, M_bind at 1. cbv beta iota zeta. norm.
  rewrite !set_nodes_twice.
  set (d := match masterGainNode s with Some _ => MasterGain | None => ContextDestination end).
  match goal with |- context [mbind ?k ?m] =>
    replace m with (gain_connect (S (next_node s1)) d)
      by (subst d; rewrite <- Hm; now destruct (masterGainNode s1))
  end.
  mstep ltac:(eapply gain_connect_ok; apply lookup_insert_eq).
  mstep ltac:(eapply update_source_ok; [apply lookup_insert_eq | reflexivity]).
  unfold modify at 1. unfold mbind at 1, M_bind at 1. cbv beta iota zeta. norm.
  mstep ltac:(eapply update_source_ok; [apply lookup_insert_eq | reflexivity]).
  rewrite !set_nodes_twice.
  eexists. split; [exact Hstop|]. split; [reflexivity|]. norm. rewrite Hnn.
  split; [|split; [|reflexivity]].
  - intros id Hid. now rewrite !lookup_insert_ne by (intros Heq; apply Hid; now symmetry).
  - intros g Hg. now rewrite !lookup_insert_ne by (intros Heq; apply Hg; now symmetry).
Qed.

Lemma stop_entry_console (entry : AudioSourceEntry) (s : State) :
  console (snd (stop_entry entry s)) = console s.
Proof.
  destruct entry as [src g].
  unfold stop_entry, try_catch, mbind, M_bind, update_gain, update_source, mret, M_ret.
  destruct (gains s !! g) as [gnode|]; [|reflexivity].
  destruct (cancelScheduledValues 0 (gain_param gnode)); [|reflexivity].
  cbn [sources set_nodes].
  destruct (sources s !! src) as [node|]; [|reflexivity].
  destruct (stop node); reflexivity.
Qed.

(** [stopAllSounds] logs nothing: the errors of voices that are
    already stopped are ignored silently. *)
Lemma stopAllSounds_console (s : State) : console (snd (stopAllSounds s)) = console s.
Proof.
  unfold stopAllSounds.
  rewrite (bind_ok _ _ _ _ _ (cancel_pending_fade_eq s)).
  set (s0 := set_fadeTimeout None (set_timers (cleared s) (next_timer s) s)).
  unfold get at 1. unfold mbind at 1, M_bind at 1. cbv beta iota.
  destruct (forEach_establishes (fun s1 => console s1 = console s0) (fun _ _ => True)
              (activeSources s0) stop_entry) with (s := s0) as (Hok & Hconsole & _).
  - intros k s1 _ Hs1. destruct (returns_stop_entry k s1) as [[] Hr].
    split; [exact Hr|]. split; [now rewrite stop_entry_console|]. auto.
  - reflexivity.
  - destruct (forEach (activeSources s0) stop_entry s0) as [r s1] eqn:Hloop.
    cbn [fst snd] in *. subst r. rewrite (bind_ok _ _ _ s1 _ Hloop).
    unfold modify. cbn [snd console set_activeSources]. exact Hconsole.
Qed.

(** What one resumption returns and logs: a failure is logged, once,
    and the promise is fulfilled; without a failure nothing is
    logged. *)
Lemma respond_logs (task : PlayTask) (o : Outcomes) (s : State) :
  ∃ task' s', respond task o s = (Ok task', s') ∧ next_of task task' ∧
    match failure_of task o s with
    | Some e => task' = Settled (Ok ()) ∧ console s' = console s ++ [e]
    | None => console s' = console s
    end.
Proof.
  destruct (respond_progress task o s) as (task' & s' & Hrespond & Hnext).
  exists task', s'. split; [exact Hrespond|]. split; [exact Hnext|].
  destruct task as [blob volume|blob volume|bytes volume|outcome];
    cbn [respond failure_of] in *.
  - unfold catch_all, try_catch, mbind, M_bind, context_resumed, console_error, modify,
      throw, mret, M_ret in Hrespond.
    destruct (resume_outcome o) as [[]|e]; [destruct (audioContext s)|];
      injection Hrespond as <- <-; auto.
  - unfold catch_all, try_catch, mbind, M_bind, console_error, modify, throw, mret, M_ret
      in Hrespond.
    destruct (arrayBuffer_outcome o) as [[]|e]; injection Hrespond as <- <-; auto.
  - destruct (decode_outcome o) as [audioBuffer|e].
    + destruct (nodes_available s) eqn:Havail.
      * destruct (play_decoded_stores audioBuffer volume s Havail)
          as (s1 & s2 & Hstop & Hplay & _ & _ & Hconsole).
        unfold catch_all, try_catch in Hrespond. rewrite Hplay in Hrespond.
        injection Hrespond as <- <-. rewrite Hconsole.
        pose proof (stopAllSounds_console s) as Hquiet. now rewrite Hstop in Hquiet.
      * unfold catch_all, try_catch in Hrespond.
        rewrite (play_decoded_no_nodes audioBuffer volume s Havail) in Hrespond.
        unfold console_error, modify, mbind, M_bind, mret, M_ret in Hrespond.
        injection Hrespond as <- <-. cbn [console set_console].
        now rewrite stopAllSounds_console.
    + unfold catch_all, try_catch, console_error, modify, throw, mbind, M_bind, mret, M_ret
        in Hrespond.
      injection Hrespond as <- <-. auto.
  - injection Hrespond as <- <-. reflexivity.
Qed.

(** C10: whatever the blob, the volume, the state and the answers of
    the platform (resume, read or decoding rejected, nodes not
    available), the promise of [playAudioBlob] is fulfilled, with the
    same value in every case, and a failure leaves its trace in the
    console only: an uninterrupted invocation logs at most one entry;
    no segment of the function throws; a segment that meets a failure
    logs exactly that failure and fulfils the promise, a segment that
    meets none logs nothing; a rejected [await] changes nothing but
    the console; and in no reachable state is the promise of an
    invocation rejected. *)
Theorem playAudioBlob_always_fulfilled :
  (∀ blob volume o s,
     ∃ s', playAudioBlob_uninterrupted blob volume o s = (Ok (Settled (Ok ())), s') ∧
           (console s' = console s ∨ ∃ e, console s' = console s ++ [e])) ∧
  (∀ blob volume s,
     ∃ task s', playAudioBlob blob volume s = (Ok task, s') ∧ console s' = console s) ∧
  (∀ task o s,
     ∃ task' s', respond task o s = (Ok task', s') ∧
       match failure_of task o s with
       | Some e => task' = Settled (Ok ()) ∧ console s' = console s ++ [e]
       | None => console s' = console s
       end) ∧
  (∀ blob volume o s e,
     (resume_outcome o = Throw e →
      respond (AwaitResume blob volume) o s
      = (Ok (Settled (Ok ())), set_console (console s ++ [e]) s)) ∧
     (arrayBuffer_outcome o = Throw e →
      respond (AwaitArrayBuffer blob volume) o s
      = (Ok (Settled (Ok ())), set_console (console s ++ [e]) s)) ∧
     (decode_outcome o = Throw e →
      respond (AwaitDecode (blob_bytes blob) volume) o s
      = (Ok (Settled (Ok ())), set_console (console s ++ [e]) s))) ∧
  (∀ autoplay nodes trace id e,
     tasks (run (initial autoplay nodes) trace) !! id ≠ Some (Settled (Throw e))).
Proof.
  split; [|split; [|split; [|split]]].
  - intros blob volume o s. unfold playAudioBlob_uninterrupted.
    destruct (playAudioBlob_ok blob volume s) as (t0 & H0 & Ht0).
    rewrite (bind_ok _ _ _ _ _ H0).
    assert (console (snd (getAudioContext s)) = console s) as Hc0.
    { destruct (getAudioContext_spec s)
        as (ctx & s0 & -> & _ & _ & _ & _ & _ & _ & _ & _ & _ & _ & _ & _ & _ & Hc).
      exact Hc. }
    destruct (respond_logs t0 o (snd (getAudioContext s))) as (t1 & s1 & H1 & Hn1 & Hl1).
    rewrite (bind_ok _ _ _ _ _ H1).
    destruct (respond_logs t1 o s1) as (t2 & s2 & H2 & Hn2 & Hl2).
    rewrite (bind_ok _ _ _ _ _ H2).
    destruct (respond_logs t2 o s2) as (t3 & s3 & H3 & Hn3 & Hl3).
    exists s3. rewrite H3.
    assert (t3 = Settled (Ok ())) as ->.
    { destruct Ht0 as [-> | ->]; cbn [next_of] in Hn1;
        destruct Hn1 as [-> | ->]; cbn [next_of] in Hn2;
        try destruct Hn2 as [-> | ->]; try subst t2; cbn [next_of] in Hn3;
        try destruct Hn3 as [-> | ->]; try subst t3; reflexivity. }
    split; [reflexivity|].
    destruct (failure_of t0 o _) as [e1|].
    + destruct Hl1 as [-> Hl1]. cbn [respond failure_of] in *.
      injection H2 as <- <-. injection H3 as <-. right. exists e1. congruence.
    + destruct (failure_of t1 o s1) as [e2|].
      * destruct Hl2 as [-> Hl2]. cbn [respond failure_of] in *.
        injection H3 as <-. right. exists e2. congruence.
      * destruct (failure_of t2 o s2) as [e3|].
        -- destruct Hl3 as [_ Hl3]. right. exists e3. congruence.
        -- left. congruence.
  - intros blob volume s. destruct (playAudioBlob_ok blob volume s) as (task & H & _).
    exists task, (snd (getAudioContext s)). split; [exact H|].
    destruct (getAudioContext_spec s)
      as (ctx & s0 & -> & _ & _ & _ & _ & _ & _ & _ & _ & _ & _ & _ & _ & _ & Hc).
    exact Hc.
  - intros task o s. destruct (respond_logs task o s) as (task' & s' & H & _ & Hlog). eauto.
  - intros blob volume o s e. repeat split; intros Hrejected; cbn [respond];
      rewrite Hrejected; reflexivity.
  - intros autoplay nodes trace. apply inv_tasks, Inv_reachable.
Qed.

(** * Further properties of the coordinator *)

(** ** The stores of nodes *)

#[global] Instance heap_stable_refl : Reflexive heap_stable.
Proof. intros s. split; [auto | eauto]. Qed.

#[global] Instance heap_stable_trans : Transitive heap_stable.
Proof.
  intros s1 s2 s3 [Hg12 Hs12] [Hg23 Hs23]. split; [auto|].
  intros id node3 H3. destruct (Hs23 id node3 H3) as (node2 & H2 & Heq23).
  destruct (Hs12 id node2 H2) as (node1 & H1 & Heq12).
  exists node1. split; [exact H1 | congruence].
Qed.

Lemma keeps_heap_bind {A B} (m : M A) (f : A → M B) :
  keeps_heap m → (∀ a, keeps_heap (f a)) → keeps_heap (m ≫= f).
Proof.
  intros Hm Hf s. specialize (Hm s). unfold mbind, M_bind.
  destruct (m s) as [[a|e] s1]; cbn [snd] in *; [|exact Hm].
  etransitivity; [exact Hm | apply Hf].
Qed.

Lemma keeps_heap_try {A} (body : M A) (h : Exception → M A) :
  keeps_heap body → (∀ e, keeps_heap (h e)) → keeps_heap (try_catch body h).
Proof.
  intros Hm Hh s. specialize (Hm s). unfold try_catch.
  destruct (body s) as [[a|e] s1]; cbn [snd] in *; [exact Hm|].
  etransitivity; [exact Hm | apply Hh].
Qed.

Lemma heap_stable_same_nodes (s s' : State) :
  sources s' = sources s → gains s' = gains s → heap_stable s s'.
Proof. intros Hs Hg. split; rewrite ?Hs, ?Hg; eauto. Qed.

Lemma keeps_heap_update_gain (g : nat) (f : AudioParam → Result AudioParam) :
  keeps_heap (update_gain g f).
Proof.
  intros s. unfold update_gain.
  destruct (gains s !! g) as [node|] eqn:Hg; [destruct (f (gain_param node))|];
    cbn [snd]; try reflexivity.
  split; norm; [|eauto].
  intros g' Hg'. destruct (decide (g = g')) as [<-|Hne].
  - rewrite lookup_insert_eq. eauto.
  - now rewrite lookup_insert_ne.
Qed.

Lemma keeps_heap_update_source (src : nat) (f : SourceNode → Result SourceNode) :
  (∀ node node', f node = Ok node' → src_onended node' = src_onended node) →
  keeps_heap (update_source src f).
Proof.
  intros Hf s. unfold update_source.
  destruct (sources s !! src) as [node|] eqn:Hsrc; [destruct (f node) as [node'|] eqn:Hfn|];
    cbn [snd]; try reflexivity.
  split; norm; [auto|].
  intros id n'. destruct (decide (src = id)) as [<-|Hne].
  - rewrite lookup_insert_eq. intros [= <-]. exists node. split; [exact Hsrc | eauto].
  - rewrite lookup_insert_ne by exact Hne. eauto.
Qed.

Lemma stop_keeps_handler (node node' : SourceNode) :
  stop node = Ok node' → src_onended node' = src_onended node.
Proof. unfold stop. destruct (src_playback node); intros [= <-]; reflexivity. Qed.

Lemma keeps_heap_stop_entry (entry : AudioSourceEntry) : keeps_heap (stop_entry entry).
Proof.
  destruct entry as [src g]. apply keeps_heap_try.
  - apply keeps_heap_bind; [apply keeps_heap_update_gain|].
    intros _. apply keeps_heap_update_source, stop_keeps_handler.
  - intros _ s. reflexivity.
Qed.

Lemma keeps_heap_ramp_entry ctx endTime (entry : AudioSourceEntry) :
  keeps_heap (ramp_entry ctx endTime entry).
Proof.
  destruct entry as [src g]. apply keeps_heap_try.
  - repeat first [ apply keeps_heap_bind; [|intros ?] | apply keeps_heap_update_gain ].
    intros s. unfold gain_value. destruct (gains s !! g); reflexivity.
  - intros e s. now apply heap_stable_same_nodes.
Qed.

Lemma forEach_keeps_heap (X : gset AudioSourceEntry) (f : AudioSourceEntry → M unit) :
  (∀ k, keeps_heap (f k)) → (∀ k, returns (f k)) → keeps_heap (forEach X f).
Proof.
  intros Hkeep Hret s.
  destruct (forEach_establishes (heap_stable s) (fun _ _ => True) X f) with (s := s)
    as (_ & Hstable & _); [|reflexivity|exact Hstable].
  intros k s1 _ Hs1. destruct (Hret k s1) as [[] Hr].
  split; [exact Hr|]. split; [etransitivity; [exact Hs1 | apply Hkeep]|]. auto.
Qed.

Lemma stopAllSounds_heap (s : State) : heap_stable s (snd (stopAllSounds s)).
Proof.
  unfold stopAllSounds.
  rewrite (bind_ok _ _ _ _ _ (cancel_pending_fade_eq s)).
  set (s0 := set_fadeTimeout None (set_timers (cleared s) (next_timer s) s)).
  unfold get at 1. unfold mbind at 1, M_bind at 1. cbv beta iota.
  pose proof (forEach_keeps_heap (activeSources s0) stop_entry keeps_heap_stop_entry
                returns_stop_entry s0) as Hloop.
  destruct (forEach_frame (activeSources s0) stop_entry keeps_control_stop_entry
              returns_stop_entry s0) as [Hok _].
  destruct (forEach (activeSources s0) stop_entry s0) as [r s1] eqn:Hrun.
  cbn [fst snd] in *. subst r. rewrite (bind_ok _ _ _ s1 _ Hrun).
  unfold modify. cbn [snd].
  transitivity s0; [apply heap_stable_same_nodes; reflexivity|].
  transitivity s1; [exact Hloop|]. apply heap_stable_same_nodes; reflexivity.
Qed.

Lemma fadeOutAllSounds_heap (duration : Q) (s : State) :
  heap_stable s (snd (fadeOutAllSounds duration s)).
Proof.
  destruct (getAudioContext_spec s)
    as (ctx & s0 & Hget & _ & _ & _ & _ & _ & _ & _ & _ & _ & _ & _ & Hsrc & Hgain & _).
  assert (heap_stable s s0) as H0 by now apply heap_stable_same_nodes.
  etransitivity; [exact H0|].
  unfold fadeOutAllSounds. rewrite (bind_ok _ _ _ _ _ Hget).
  unfold get at 1. unfold mbind at 1, M_bind at 1. cbv beta iota.
  destruct (decide (size (activeSources s0) = 0%nat)); [reflexivity|].
  destruct (Qle_bool duration (5 # 100)); [apply stopAllSounds_heap|].
  rewrite (bind_ok _ _ _ _ _ (cancel_pending_fade_eq s0)).
  set (s1 := set_fadeTimeout None (set_timers (cleared s0) (next_timer s0) s0)).
  pose proof (forEach_keeps_heap (activeSources s0)
                (ramp_entry ctx (currentTime ctx + duration)%Q)
                (keeps_heap_ramp_entry ctx _) (returns_ramp_entry ctx _) s1) as Hloop.
  destruct (forEach_frame (activeSources s0)
              (ramp_entry ctx (currentTime ctx + duration)%Q)
              (keeps_control_ramp_entry ctx _) (returns_ramp_entry ctx _) s1) as [Hok _].
  destruct (forEach (activeSources s0) (ramp_entry ctx (currentTime ctx + duration)%Q) s1)
    as [r s2] eqn:Hrun.
  cbn [fst snd] in *. subst r. rewrite (bind_ok _ _ _ s2 _ Hrun).
  unfold setTimeout, modify, mbind, M_bind. cbn [snd].
  transitivity s1; [apply heap_stable_same_nodes; reflexivity|].
  transitivity s2; [exact Hloop|]. apply heap_stable_same_nodes; reflexivity.
Qed.

Lemma play_decoded_heap (audioBuffer : AudioBuffer) (volume : Q) (s : State) :
  let s' := snd (play_decoded audioBuffer volume s) in
  (∀ g, is_Some (gains s !! g) → is_Some (gains s' !! g)) ∧
  (handlers_own s → handlers_own s').
Proof.
  intros s'. subst s'. pose proof (stopAllSounds_heap s) as [Hgains Hsources].
  destruct (nodes_available s) eqn:Havail.
  - destruct (play_decoded_started audioBuffer volume s Havail)
      as (s' & Hrun & _ & _ & Hsrc & Hgain & _).
    destruct (play_decoded_stores audioBuffer volume s Havail)
      as (s1 & s'' & Hstop & Hrun' & Hs & Hg & _).
    assert (s'' = s') as -> by congruence.
    rewrite Hstop in Hgains, Hsources. rewrite Hrun. cbn [snd] in *. split.
    + intros g Hsome. destruct (decide (g = S (next_node s))) as [->|Hne].
      * rewrite Hgain. eauto.
      * rewrite Hg by exact Hne. auto.
    + intros Hown id node entry Hnode Hended.
      destruct (decide (id = next_node s)) as [->|Hne].
      * rewrite Hsrc in Hnode. injection Hnode as <-. cbn in Hended. congruence.
      * rewrite Hs in Hnode by exact Hne.
        destruct (Hsources id node Hnode) as (node0 & Hnode0 & Heq).
        apply (Hown id node0 entry Hnode0). congruence.
  - rewrite (play_decoded_no_nodes audioBuffer volume s Havail). cbn [snd].
    split; [exact Hgains|].
    intros Hown id node entry Hnode Hended.
    destruct (Hsources id node Hnode) as (node0 & Hnode0 & Heq).
    apply (Hown id node0 entry Hnode0). congruence.
Qed.

Lemma handlers_own_stable (s s' : State) : heap_stable s s' → handlers_own s → handlers_own s'.
Proof.
  intros [_ Hsources] Hown id node entry Hnode Hended.
  destruct (Hsources id node Hnode) as (node0 & Hnode0 & Heq).
  apply (Hown id node0 entry Hnode0). congruence.
Qed.

Lemma entries_valid_stable (s s' : State) :
  heap_stable s s' → activeSources s' ⊆ activeSources s → entries_valid s → entries_valid s'.
Proof. intros [Hgains _] Hsub Hvalid src g Hin. apply Hgains, (Hvalid src g), Hsub, Hin. Qed.

(** ** What the segments of [playAudioBlob] before the decoding leave alone *)

Lemma untouched_refl (s : State) : untouched s s.
Proof. repeat split. Qed.

Lemma untouched_console (c : list Exception) (s s' : State) :
  untouched s s' → untouched s (set_console c s').
Proof. intros H. exact H. Qed.

Lemma catch_all_state (body : M PlayTask) (s : State) :
  snd (catch_all body s) = snd (body s)
  ∨ ∃ c, snd (catch_all body s) = set_console c (snd (body s)).
Proof.
  destruct (catch_all_ok body s) as (task & s' & -> & [Hbody|(e & s1 & Hbody & _ & ->)]);
    rewrite Hbody; cbn [snd]; eauto.
Qed.

Lemma playAudioBlob_untouched (blob : Blob) (volume : Q) (s : State) :
  untouched s (snd (playAudioBlob blob volume s)).
Proof.
  destruct (playAudioBlob_ok blob volume s) as (task & -> & _). cbn [snd].
  unfold getAudioContext. destruct (audioContext s); repeat split.
Qed.

Lemma respond_before_decoding (task : PlayTask) (o : Outcomes) (s : State) :
  (∀ bytes volume, task ≠ AwaitDecode bytes volume) →
  untouched s (snd (respond task o s)) ∧
  masterGainNode (snd (respond task o s)) = masterGainNode s.
Proof.
  intros Htask.
  destruct task as [blob volume|blob volume|bytes volume|outcome]; cbn [respond].
  - unfold catch_all, try_catch, mbind, M_bind, context_resumed, console_error, modify,
      throw, mret, M_ret.
    destruct (resume_outcome o), (audioContext s); cbn; repeat split.
  - unfold catch_all, try_catch, console_error, modify, throw, mbind, M_bind, mret, M_ret.
    destruct (arrayBuffer_outcome o); cbn; repeat split.
  - now destruct (Htask bytes volume).
  - split; [apply untouched_refl | reflexivity].
Qed.

(** ** The stores in the reachable states *)

Lemma Wired_initial (autoplay nodes : bool) : Wired (initial autoplay nodes).
Proof.
  constructor.
  - intros id node entry Hnode. unfold initial in Hnode. cbn [sources] in Hnode.
    rewrite lookup_empty in Hnode. discriminate.
  - intros src g Hin. unfold initial in Hin. cbn [activeSources] in Hin.
    apply not_elem_of_empty in Hin as [].
  - intros H. now destruct H.
Qed.

Lemma Wired_untouched (s s' : State) :
  untouched s s' → (is_Some (masterGainNode s) → is_Some (masterGainNode s')) →
  Wired s → Wired s'.
Proof.
  intros (Ha & Hs & Hg & _ & _ & _ & _ & Ht & _) Hmaster [Hown Hvalid Hm].
  constructor.
  - unfold handlers_own. rewrite Hs. exact Hown.
  - unfold entries_valid. rewrite Ha, Hg. exact Hvalid.
  - rewrite Ht. auto.
Qed.

Lemma Wired_stable (s s' : State) :
  heap_stable s s' → activeSources s' ⊆ activeSources s → tasks s' = tasks s →
  (is_Some (masterGainNode s) → is_Some (masterGainNode s')) →
  Wired s → Wired s'.
Proof.
  intros Hheap Hsub Ht Hmaster [Hown Hvalid Hm]. constructor.
  - eapply handlers_own_stable; eassumption.
  - eapply entries_valid_stable; eassumption.
  - rewrite Ht. auto.
Qed.

Lemma setMasterVolume_untouched (volume : Q) (s : State) :
  untouched s (snd (setMasterVolume volume s)) ∧
  (is_Some (masterGainNode s) → is_Some (masterGainNode (snd (setMasterVolume volume s)))).
Proof.
  unfold setMasterVolume, getAudioContext, get, lift, modify, mbind, M_bind.
  destruct (audioContext s) as [ctx|].
  - destruct (masterGainNode s) as [node|] eqn:Hnode; cbn; rewrite ?Hnode;
      [|split; [repeat split | intros [? [=]]]].
    destruct (setTargetAtTime volume (currentTime ctx) (2 # 100) (gain_param node));
      cbn; rewrite ?Hnode; split; repeat split; eauto.
  - cbn.
    match goal with |- context [setTargetAtTime ?a ?b ?c ?d] =>
      destruct (setTargetAtTime a b c d) end; cbn; split; repeat split; eauto.
Qed.

Lemma Wired_stopAllSounds (s : State) : Wired s → Wired (snd (stopAllSounds s)).
Proof.
  intros HW. pose proof (stopAllSounds_heap s) as Hheap.
  destruct (stopAllSounds_spec s) as (s' & Hrun & _ & Hm & Ha & _ & _ & _ & _ & Hts & _).
  rewrite Hrun in *. cbn [snd] in *.
  eapply Wired_stable; try eassumption.
  - rewrite Ha. apply empty_subseteq.
  - now rewrite Hm.
Qed.

Lemma Wired_console (c : list Exception) (s : State) : Wired s → Wired (set_console c s).
Proof. intros [Hown Hvalid Hm]. constructor; assumption. Qed.

Lemma Wired_getAudioContext (s : State) : Wired s → Wired (snd (getAudioContext s)).
Proof.
  apply Wired_untouched.
  - unfold getAudioContext. destruct (audioContext s); repeat split.
  - unfold getAudioContext. destruct (audioContext s); cbn; eauto.
Qed.

Lemma Wired_fadeOutAllSounds (duration : Q) (s : State) :
  Wired s → Wired (snd (fadeOutAllSounds duration s)).
Proof.
  intros HW. pose proof (Wired_getAudioContext s HW) as HW0.
  destruct (fadeOutAllSounds_spec duration s)
    as (s' & Hrun & [[_ ->]|[(_ & _ & ->)|(_ & _ & Hsame)]]).
  - rewrite Hrun. exact HW0.
  - rewrite Hrun. apply Wired_stopAllSounds, HW0.
  - pose proof (fadeOutAllSounds_heap duration s) as Hheap. rewrite Hrun in *.
    cbn [snd] in *.
    destruct Hsame as (_ & Hm & Ha & _ & _ & _ & _ & Hts & _).
    destruct (getAudioContext_spec s)
      as (ctx & s0 & Hget & _ & Hcase & Ha0 & _ & _ & _ & _ & Hts0 & _).
    rewrite Hget in *. cbn [snd] in *.
    cbn [masterGainNode activeSources tasks set_fadeTimeout set_timers] in Hm, Ha, Hts.
    eapply Wired_stable; try exact HW; try exact Hheap.
    + rewrite Ha, Ha0. reflexivity.
    + now rewrite Hts, Hts0.
    + intros Hsome. rewrite Hm.
      destruct Hcase as [[_ ->]|(_ & _ & Hnew)]; [exact Hsome | exact Hnew].
Qed.

Lemma Wired_play_decoded (audioBuffer : AudioBuffer) (volume : Q) (s : State) :
  Wired s → Wired (snd (play_decoded audioBuffer volume s)).
Proof.
  intros [Hown Hvalid Hm].
  destruct (play_decoded_heap audioBuffer volume s) as [Hgains Hhandlers].
  destruct (nodes_available s) eqn:Havail.
  - destruct (play_decoded_started audioBuffer volume s Havail)
      as (s' & Hrun & Ha & _ & _ & Hgain & _ & Hmaster & _ & _ & _ & Hts & _).
    rewrite Hrun in *. cbn [snd] in *. constructor.
    + auto.
    + intros src g Hin. rewrite Ha in Hin. apply elem_of_singleton in Hin.
      injection Hin as -> ->. rewrite Hgain. eauto.
    + rewrite Hts, Hmaster. exact Hm.
  - rewrite (play_decoded_no_nodes audioBuffer volume s Havail) in *. cbn [snd] in *.
    apply Wired_stopAllSounds. constructor; assumption.
Qed.

Lemma Wired_respond (task : PlayTask) (o : Outcomes) (s : State) :
  Wired s → Wired (snd (respond task o s)).
Proof.
  intros HW.
  assert ((∃ bytes volume, task = AwaitDecode bytes volume)
          ∨ ∀ bytes volume, task ≠ AwaitDecode bytes volume) as [(bytes & volume & ->)|Hother]
    by (destruct task; eauto; right; discriminate).
  - cbn [respond].
    destruct (catch_all_state
                (match decode_outcome o with
                 | Ok audioBuffer => play_decoded audioBuffer volume
                 | Throw e => throw e
                 end) s) as [->|[c ->]]; [|apply Wired_console];
      (destruct (decode_outcome o); [apply Wired_play_decoded, HW | exact HW]).
  - destruct (respond_before_decoding task o s Hother) as [Hquiet Hmaster].
    eapply Wired_untouched; [exact Hquiet | now rewrite Hmaster | exact HW].
Qed.

Lemma respond_tasks (task : PlayTask) (o : Outcomes) (s : State) :
  tasks (snd (respond task o s)) = tasks s.
Proof.
  assert ((∃ bytes volume, task = AwaitDecode bytes volume)
          ∨ ∀ bytes volume, task ≠ AwaitDecode bytes volume) as [(bytes & volume & ->)|Hother]
    by (destruct task; eauto; right; discriminate).
  - cbn [respond].
    assert (tasks (snd (match decode_outcome o with
                        | Ok audioBuffer => play_decoded audioBuffer volume
                        | Throw e => throw e
                        end s)) = tasks s) as Hbody.
    { destruct (decode_outcome o) as [audioBuffer|e]; [|reflexivity].
      destruct (nodes_available s) eqn:Havail.
      - destruct (play_decoded_started audioBuffer volume s Havail)
          as (s' & -> & _ & _ & _ & _ & _ & _ & _ & _ & _ & Hts & _). exact Hts.
      - rewrite (play_decoded_no_nodes audioBuffer volume s Havail). cbn [snd].
        destruct (stopAllSounds_spec s) as (s' & -> & _ & _ & _ & _ & _ & _ & _ & Hts & _).
        exact Hts. }
    destruct (catch_all_state
                (match decode_outcome o with
                 | Ok audioBuffer => play_decoded audioBuffer volume
                 | Throw e => throw e
                 end) s) as [->|[c ->]]; exact Hbody.
  - destruct (respond_before_decoding task o s Hother) as [(_ & _ & _ & _ & _ & _ & _ & Ht & _) _].
    exact Ht.
Qed.

Lemma Wired_set_tasks (ts : gmap nat PlayTask) (n : nat) (s : State) :
  is_Some (masterGainNode s) → Wired s → Wired (set_tasks ts n s).
Proof. intros Hmaster [Hown Hvalid _]. constructor; auto. Qed.

(** Every event keeps the stores well formed. *)
Lemma Wired_step (s : State) (ev : Event) : Inv s → Wired s → Wired (step s ev).
Proof.
  intros HI HW.
  destruct ev as [volume| |d|blob volume|id o|src|src|handle|dt|g v|autoplay nodes];
    cbn [step].
  - destruct (setMasterVolume_untouched volume s) as [Hquiet Hmaster].
    eapply Wired_untouched; eassumption.
  - apply Wired_stopAllSounds, HW.
  - apply Wired_fadeOutAllSounds, HW.
  - set (s1 := set_tasks (tasks s) (S (next_task s)) s).
    assert (Inv s1) as HI1 by (destruct HI; constructor; assumption).
    assert (Wired s1) as HW1 by (destruct HW; constructor; assumption).
    destruct (playAudioBlob_ok blob volume s1) as (task & -> & _).
    cbn [store_task]. apply Wired_set_tasks; [|apply Wired_getAudioContext, HW1].
    destruct (getAudioContext_spec s1) as (ctx & s0 & Hget & Hctx & _).
    pose proof (Inv_getAudioContext s1 HI1) as HI0. rewrite Hget in *. cbn [snd] in *.
    apply (inv_master s0 HI0). rewrite Hctx. eauto.
  - destruct (tasks s !! id) as [task|] eqn:Htask; [|exact HW].
    pose proof (Wired_respond task o s HW) as HW'.
    pose proof (respond_tasks task o s) as Hts.
    destruct (respond_ok task o s) as (task' & s' & Hr & _).
    rewrite Hr in *. cbn [store_task snd] in *. apply Wired_set_tasks; [|exact HW'].
    apply (wired_master s' HW'). rewrite Hts. intros Hempty.
    rewrite Hempty, lookup_empty in Htask. discriminate.
  - unfold source_finishes.
    pose proof (keeps_control_update_source src stop s) as Hsame.
    pose proof (keeps_heap_update_source src stop stop_keeps_handler s) as Hheap.
    destruct (update_source src stop s) as [r s']. cbn [snd] in *.
    destruct Hsame as (_ & Hm & Ha & _ & _ & _ & _ & Hts & _).
    eapply Wired_stable; try eassumption; [now rewrite Ha | now rewrite Hm].
  - unfold source_ended.
    destruct (sources s !! src) as [node|]; [|exact HW].
    destruct (src_playback node), (src_onended node) as [entry|]; try exact HW.
    cbn [snd]. eapply Wired_stable; try exact HW; norm; auto.
    + now apply heap_stable_same_nodes.
    + apply subseteq_difference_l. reflexivity.
  - unfold timer_fires. destruct (timers s !! handle); [|exact HW].
    unfold clearTimeout, modify, mbind, M_bind. cbv beta iota.
    apply Wired_stopAllSounds. destruct HW. constructor; assumption.
  - eapply Wired_untouched; [| |exact HW]; unfold tick;
      destruct (audioContext s) as [[[] t]|]; try destruct (negative dt);
      cbn; repeat split; auto.
  - unfold rendered.
    pose proof (keeps_control_update_gain g (fun p => Ok (assign_value v p)) s) as Hsame.
    pose proof (keeps_heap_update_gain g (fun p => Ok (assign_value v p)) s) as Hheap.
    destruct (update_gain g _ s) as [r s']. cbn [snd] in *.
    destruct Hsame as (_ & Hm & Ha & _ & _ & _ & _ & Hts & _).
    eapply Wired_stable; try eassumption; [now rewrite Ha | now rewrite Hm].
  - destruct HW. constructor; assumption.
Qed.

Lemma Wired_run (trace : list Event) : ∀ s, Inv s → Wired s → Wired (run s trace).
Proof.
  induction trace as [|ev trace IH]; intros s HI HW; [exact HW|].
  apply IH; [apply Inv_step, HI | apply Wired_step; assumption].
Qed.

Lemma Wired_reachable (autoplay nodes : bool) (trace : list Event) :
  Wired (run (initial autoplay nodes) trace).
Proof. apply Wired_run; [apply Inv_initial | apply Wired_initial]. Qed.

(** ** Repeating [stopAllSounds] *)

Lemma stopAllSounds_nothing_to_stop (s : State) :
  activeSources s = ∅ → fadeTimeout s = None → stopAllSounds s = (Ok (), s).
Proof.
  intros Ha Hf.
  assert (cancel_pending_fade s = (Ok (), s)) as Hcancel
    by (unfold cancel_pending_fade, get, mbind, M_bind; now rewrite Hf).
  unfold stopAllSounds. rewrite (bind_ok _ _ _ _ _ Hcancel).
  unfold get at 1. unfold mbind at 1, M_bind at 1. cbv beta iota.
  rewrite Ha. unfold forEach. rewrite elements_empty. cbn [foldr].
  unfold mret, M_ret, modify, mbind, M_bind. cbv beta iota. f_equal.
  destruct s. cbn in *. now subst.
Qed.

(** X1: [stopAllSounds] is idempotent: a second call right after the
    first returns normally and changes nothing. *)
Theorem stopAllSounds_idempotent (s : State) :
  stopAllSounds (snd (stopAllSounds s)) = (Ok (), snd (stopAllSounds s)).
Proof.
  destruct (stopAllSounds_spec s) as (s' & -> & _ & _ & Ha & Hf & _). cbn [snd].
  now apply stopAllSounds_nothing_to_stop.
Qed.

(** ** What a fade schedules *)

Lemma registry_singleton (s : State) :
  Inv s → activeSources s ≠ ∅ → ∃ src g, activeSources s = {[(src, g)]}.
Proof.
  intros HI Hne.
  assert (size (activeSources s) = 1%nat) as Hsize.
  { pose proof (inv_solo s HI).
    assert (size (activeSources s) ≠ 0%nat)
      by (intros Hz; apply Hne, leibniz_equiv, size_empty_inv, Hz).
    lia. }
  apply size_1_elem_of in Hsize as [[src g] Heq]. apply leibniz_equiv in Heq. eauto.
Qed.

Lemma ramp_entry_spec (ctx : AudioContext) (duration : Q) (src g : nat) (s : State)
    (node : GainNode) :
  gains s !! g = Some node → (0 <= currentTime ctx)%Q → (0 <= duration)%Q →
  ramp_entry ctx (currentTime ctx + duration)%Q (src, g) s
  = (Ok (), set_nodes (sources s)
              (<[g := {| gain_param := ramped (currentTime ctx) duration (gain_param node);
                         gain_output := gain_output node |}]> (gains s))
              (next_node s) s).
Proof.
  intros Hg Hnow Hd.
  assert (negative (currentTime ctx) = false) as Hn
    by (unfold negative; apply negb_false_iff, Qle_bool_iff, Hnow).
  assert (negative (currentTime ctx + duration) = false) as Hn'.
  { unfold negative. apply negb_false_iff, Qle_bool_iff.
    rewrite <- (Qplus_0_r 0). now apply Qplus_le_compat. }
  unfold ramp_entry. erewrite try_ok; [reflexivity|].
  mstep ltac:(eapply update_gain_ok;
              [exact Hg | unfold cancelScheduledValues; rewrite Hn; reflexivity]).
  unfold gain_value at 1. unfold mbind at 1, M_bind at 1. norm.
  rewrite lookup_insert_eq. cbv beta iota. norm.
  mstep ltac:(eapply update_gain_ok;
              [apply lookup_insert_eq | unfold setValueAtTime; rewrite Hn; reflexivity]).
  erewrite update_gain_ok;
    [|apply lookup_insert_eq | unfold linearRampToValueAtTime; rewrite Hn'; reflexivity].
  norm. rewrite !set_nodes_twice, !insert_insert_eq.
  unfold ramped, schedule. norm. now rewrite <- app_assoc.
Qed.

(** The whole of a fade with a duration above 0.05 on the one
    registered voice. *)
Lemma fadeOutAllSounds_one_voice (duration : Q) (s : State) (src g : nat) (node : GainNode)
    (ctx : AudioContext) :
  activeSources s = {[(src, g)]} → gains s !! g = Some node →
  audioContext (snd (getAudioContext s)) = Some ctx → (0 <= currentTime ctx)%Q →
  ¬ (duration <= 5 # 100)%Q →
  ∃ s', fadeOutAllSounds duration s = (Ok (), s') ∧
    gains s'
    = <[g := {| gain_param := ramped (currentTime ctx) duration (gain_param node);
                gain_output := gain_output node |}]> (gains s) ∧
    sources s' = sources s ∧ activeSources s' = activeSources s ∧
    fadeTimeout s' = Some (next_timer s) ∧
    timers s' = <[next_timer s := (duration * 1000)%Q]> (cleared s) ∧
    next_timer s' = Pos.succ (next_timer s) ∧ console s' = console s.
Proof.
  intros Ha Hg Hctx Hnow Hlong.
  destruct (getAudioContext_spec s)
    as (ctx' & s0 & Hget & Hctx0 & _ & Ha0 & Hf0 & Ht0 & Hnt0 & _ & _ & _ & _ & _ &
        Hs0 & Hg0 & Hc0).
  rewrite Hget in Hctx. cbn [snd] in Hctx. assert (ctx' = ctx) as -> by congruence.
  assert (0 <= duration)%Q as Hd.
  { apply Qlt_le_weak, Qnot_le_lt. intros Hle. apply Hlong.
    eapply Qle_trans; [exact Hle|]. discriminate. }
  unfold fadeOutAllSounds. rewrite (bind_ok _ _ _ _ _ Hget).
  unfold get at 1. unfold mbind at 1, M_bind at 1. cbv beta iota.
  rewrite Ha0, Ha, size_singleton. cbn [decide_rel decide].
  rewrite decide_False by discriminate.
  assert (Qle_bool duration (5 # 100) = false) as ->.
  { destruct (Qle_bool duration (5 # 100)) eqn:Hb; [|reflexivity].
    apply Qle_bool_iff in Hb. contradiction. }
  rewrite (bind_ok _ _ _ _ _ (cancel_pending_fade_eq s0)).
  set (s1 := set_fadeTimeout None (set_timers (cleared s0) (next_timer s0) s0)).
  assert (gains s1 !! g = Some node) as Hg1 by (unfold s1; norm; now rewrite Hg0).
  pose proof (ramp_entry_spec ctx duration src g s1 node Hg1 Hnow Hd) as Hramp.
  assert (forEach {[(src, g)]} (ramp_entry ctx (currentTime ctx + duration)%Q) s1
          = (Ok (), set_nodes (sources s1)
                      (<[g := {| gain_param :=
                                   ramped (currentTime ctx) duration (gain_param node);
                                 gain_output := gain_output node |}]> (gains s1))
                      (next_node s1) s1)) as Hloop.
  { unfold forEach. rewrite elements_singleton. cbn [foldr].
    now rewrite (bind_ok _ _ _ _ _ Hramp). }
  rewrite (bind_ok _ _ _ _ _ Hloop).
  unfold setTimeout, modify, mbind, M_bind. cbv beta iota zeta. unfold s1. norm.
  eexists. split; [reflexivity|]. norm.
  rewrite Hg0, Hs0, Ha0, Hnt0, Hc0.
  replace (cleared s0) with (cleared s) by (unfold cleared; now rewrite Hf0, Ht0).
  repeat split; exact Ha.
Qed.

(** X2: in every reachable state with a voice registered,
    [fadeOutAllSounds] with a duration above 0.05 returns normally,
    leaves the voice registered and its source as it is, and schedules
    on the voice's gain a linear ramp that starts from the gain's
    current value at the current time and reaches 0 at current time +
    duration; it records the one timer that will stop everything
    after duration x 1000 milliseconds. *)
Theorem fadeOutAllSounds_ramps_from_current_gain
    (autoplay nodes : bool) (trace : list Event) (duration : Q) :
  let s := run (initial autoplay nodes) trace in
  activeSources s ≠ ∅ → ¬ (duration <= 5 # 100)%Q →
  ∃ src g node ctx s',
    activeSources s = {[(src, g)]} ∧ gains s !! g = Some node ∧
    audioContext (snd (getAudioContext s)) = Some ctx ∧
    fadeOutAllSounds duration s = (Ok (), s') ∧
    gains s'
    = <[g := {| gain_param := ramped (currentTime ctx) duration (gain_param node);
                gain_output := gain_output node |}]> (gains s) ∧
    sources s' = sources s ∧ activeSources s' = activeSources s ∧
    fadeTimeout s' = Some (next_timer s) ∧
    timers s' = {[next_timer s := (duration * 1000)%Q]} ∧
    console s' = console s.
Proof.
  intros s Hne Hlong.
  pose proof (Inv_reachable autoplay nodes trace) as HI. fold s in HI.
  pose proof (Wired_reachable autoplay nodes trace) as HW. fold s in HW.
  destruct (registry_singleton s HI Hne) as (src & g & Ha).
  destruct (wired_entries s HW src g) as [node Hg]; [rewrite Ha; now apply elem_of_singleton|].
  destruct (getAudioContext_spec s) as (ctx & s0 & Hget & Hctx & _).
  pose proof (Inv_getAudioContext s HI) as HI0. rewrite Hget in HI0. cbn [snd] in HI0.
  destruct (fadeOutAllSounds_one_voice duration s src g node ctx Ha Hg)
    as (s' & Hrun & Hgains & Hsources & Hactive & Hfade & Htimers & _ & Hconsole).
  { rewrite Hget. exact Hctx. }
  { exact (inv_clock s0 HI0 ctx Hctx). }
  { exact Hlong. }
  exists src, g, node, ctx, s'. rewrite Hget. cbn [snd].
  repeat (split; [assumption|]). split; [|exact Hconsole].
  rewrite Htimers, (cleared_empty s (inv_pending s HI)). reflexivity.
Qed.

Lemma fadeOutAllSounds_ramps_from_current_gain_witness :
  ∃ src g node ctx s',
    activeSources playing_state = {[(src, g)]} ∧ gains playing_state !! g = Some node ∧
    audioContext (snd (getAudioContext playing_state)) = Some ctx ∧
    fadeOutAllSounds 5 playing_state = (Ok (), s') ∧
    gains s'
    = <[g := {| gain_param := ramped (currentTime ctx) 5 (gain_param node);
                gain_output := gain_output node |}]> (gains playing_state) ∧
    sources s' = sources playing_state ∧ activeSources s' = activeSources playing_state ∧
    fadeTimeout s' = Some (next_timer playing_state) ∧
    timers s' = {[next_timer playing_state := (5 * 1000)%Q]} ∧
    console s' = console playing_state.
Proof.
  apply (fadeOutAllSounds_ramps_from_current_gain true true
           [CallPlayAudioBlob sample_blob 1; Settle 0 all_fulfilled; Settle 0 all_fulfilled] 5).
  - intros H. apply (f_equal size) in H. vm_compute in H. discriminate.
  - intros H. vm_compute in H. apply H. reflexivity.
Defined.

Lemma run_snoc (s : State) (trace : list Event) (ev : Event) :
  run s (trace ++ [ev]) = step (run s trace) ev.
Proof. unfold run. now rewrite foldl_app. Qed.

(** *** The sources of the registered voices *)

Lemma started_same_voices (s s' : State) :
  activeSources s' ⊆ activeSources s → sources s' = sources s →
  voices_started s → voices_started s'.
Proof.
  intros Hsub Hsources Hstarted src g Hk. rewrite Hsources. apply (Hstarted src g), Hsub, Hk.
Qed.

Lemma started_untouched (s s' : State) :
  untouched s s' → voices_started s → voices_started s'.
Proof.
  intros (Ha & Hs & _). apply started_same_voices; [now rewrite Ha | exact Hs].
Qed.

Lemma started_empty (s : State) : activeSources s = ∅ → voices_started s.
Proof. intros Hempty src g Hk. rewrite Hempty in Hk. now apply not_elem_of_empty in Hk. Qed.

Lemma started_stopAllSounds (s : State) : voices_started (snd (stopAllSounds s)).
Proof.
  destruct (stopAllSounds_spec s) as (s' & -> & _ & _ & Ha & _). now apply started_empty.
Qed.

Lemma started_play_decoded (audioBuffer : AudioBuffer) (volume : Q) (s : State) :
  voices_started (snd (play_decoded audioBuffer volume s)).
Proof.
  destruct (nodes_available s) eqn:Havail.
  - destruct (play_decoded_started audioBuffer volume s Havail)
      as (s' & -> & Ha & _ & Hsource & _).
    cbn [snd]. intros src g Hk. rewrite Ha in Hk. apply elem_of_singleton in Hk.
    injection Hk as -> ->. rewrite Hsource. eexists. split; [reflexivity | discriminate].
  - rewrite (play_decoded_no_nodes audioBuffer volume s Havail). cbn [snd].
    apply started_stopAllSounds.
Qed.

Lemma started_respond (task : PlayTask) (o : Outcomes) (s : State) :
  voices_started s → voices_started (snd (respond task o s)).
Proof.
  intros Hstarted.
  assert ((∃ bytes volume, task = AwaitDecode bytes volume)
          ∨ ∀ bytes volume, task ≠ AwaitDecode bytes volume) as [(bytes & volume & ->)|Hother]
    by (destruct task; eauto; right; discriminate).
  - cbn [respond].
    assert (voices_started (snd (match decode_outcome o with
                                 | Ok audioBuffer => play_decoded audioBuffer volume
                                 | Throw e => throw e
                                 end s))) as Hbody.
    { destruct (decode_outcome o); [apply started_play_decoded | exact Hstarted]. }
    destruct (catch_all_state
                (match decode_outcome o with
                 | Ok audioBuffer => play_decoded audioBuffer volume
                 | Throw e => throw e
                 end) s) as [->|[c ->]]; exact Hbody.
  - destruct (respond_before_decoding task o s Hother) as [Hquiet _].
    eapply started_untouched; eassumption.
Qed.

Lemma started_fadeOutAllSounds (duration : Q) (s : State) :
  Inv s → Wired s → voices_started s → voices_started (snd (fadeOutAllSounds duration s)).
Proof.
  intros HI HW Hstarted.
  destruct (getAudioContext_spec s)
    as (ctx & s0 & Hget & Hctx & _ & Ha0 & _ & _ & _ & _ & _ & _ & _ & _ & Hs0 & _).
  assert (voices_started s0) as Hstarted0.
  { apply (started_same_voices s); [|exact Hs0|exact Hstarted]. now rewrite Ha0. }
  destruct (fadeOutAllSounds_spec duration s)
    as (s' & Hrun & [[_ ->]|[(_ & _ & ->)|(Hne & Hlong & _)]]).
  - rewrite Hrun, Hget. exact Hstarted0.
  - rewrite Hrun. apply started_stopAllSounds.
  - destruct (registry_singleton s HI Hne) as (src & g & Ha).
    destruct (wired_entries s HW src g) as [node Hg];
      [rewrite Ha; now apply elem_of_singleton|].
    pose proof (Inv_getAudioContext s HI) as HI0. rewrite Hget in HI0. cbn [snd] in HI0.
    destruct (fadeOutAllSounds_one_voice duration s src g node ctx Ha Hg)
      as (s'' & Hrun' & _ & Hsources & Hactive & _).
    { rewrite Hget. exact Hctx. }
    { exact (inv_clock s0 HI0 ctx Hctx). }
    { exact Hlong. }
    rewrite Hrun'. cbn [snd].
    apply (started_same_voices s); [|exact Hsources|exact Hstarted]. now rewrite Hactive.
Qed.

Lemma started_step (s : State) (ev : Event) :
  Inv s → Wired s → voices_started s → voices_started (step s ev).
Proof.
  intros HI HW Hstarted.
  destruct ev as [volume| |d|blob volume|id o|src|src|handle|dt|g v|autoplay nodes];
    cbn [step].
  - destruct (setMasterVolume_untouched volume s) as [Hquiet _].
    eapply started_untouched; eassumption.
  - apply started_stopAllSounds.
  - now apply started_fadeOutAllSounds.
  - set (s1 := set_tasks (tasks s) (S (next_task s)) s).
    destruct (playAudioBlob_ok blob volume s1) as (task & -> & _).
    cbn [store_task].
    destruct (getAudioContext_spec s1)
      as (ctx & s0 & -> & _ & _ & Ha0 & _ & _ & _ & _ & _ & _ & _ & _ & Hs0 & _).
    cbn [snd]. intros src g Hk. cbn [activeSources sources set_tasks] in *.
    rewrite Ha0 in Hk. rewrite Hs0. exact (Hstarted src g Hk).
  - destruct (tasks s !! id) as [task|]; [|exact Hstarted].
    pose proof (started_respond task o s Hstarted) as Hnext.
    destruct (respond_ok task o s) as (task' & s' & Hr & _).
    rewrite Hr in *. exact Hnext.
  - unfold source_finishes, update_source.
    destruct (sources s !! src) as [node|] eqn:Hnode; [|exact Hstarted].
    destruct (stop node) as [node'|e] eqn:Hstop; [|exact Hstarted].
    cbn [snd]. intros x g Hk. cbn [activeSources sources set_nodes] in *.
    destruct (decide (src = x)) as [->|Hne].
    + rewrite lookup_insert_eq. eexists. split; [reflexivity|].
      unfold stop in Hstop. destruct (src_playback node); try discriminate.
      injection Hstop as <-. discriminate.
    + rewrite lookup_insert_ne by exact Hne. exact (Hstarted x g Hk).
  - unfold source_ended.
    destruct (sources s !! src) as [node|]; [|exact Hstarted].
    destruct (src_playback node), (src_onended node) as [entry|]; try exact Hstarted.
    cbn [snd]. apply (started_same_voices s); [|reflexivity|exact Hstarted].
    cbn [activeSources set_activeSources]. apply subseteq_difference_l. reflexivity.
  - unfold timer_fires. destruct (timers s !! handle); [|exact Hstarted].
    unfold clearTimeout, modify, mbind, M_bind. cbv beta iota.
    apply started_stopAllSounds.
  - unfold tick. destruct (audioContext s) as [[[] t]|]; try destruct (negative dt);
      exact Hstarted.
  - unfold rendered, update_gain.
    destruct (gains s !! g) as [gnode|]; exact Hstarted.
  - exact Hstarted.
Qed.

Lemma started_reachable (autoplay nodes : bool) (trace : list Event) :
  voices_started (run (initial autoplay nodes) trace).
Proof.
  induction trace as [|ev trace IH] using rev_ind.
  - now apply started_empty.
  - rewrite run_snoc. apply started_step;
      [apply Inv_reachable | apply Wired_reachable | exact IH].
Qed.

(** X3: a fade runs to its end: in every reachable state with a voice
    registered, after [fadeOutAllSounds] with a duration above 0.05
    the voice is still registered, and when the timer it scheduled
    fires the registry is empty, neither a pending fade nor a timer
    is left, and every voice has been stopped: its source node is
    still in the store, is the node it was during the fade after
    [stop()], and has finished; its gain node is still in the store
    and is the ramped gain node with its schedule cancelled; every
    other node is as it was. *)
Theorem fade_completes_with_a_stop
    (autoplay nodes : bool) (trace : list Event) (duration : Q) :
  let s := run (initial autoplay nodes) trace in
  let s1 := step s (CallFadeOutAllSounds duration) in
  let s2 := step s1 (TimerFires (next_timer s)) in
  activeSources s ≠ ∅ → ¬ (duration <= 5 # 100)%Q →
  activeSources s1 = activeSources s ∧
  timers s1 !! next_timer s = Some (duration * 1000)%Q ∧
  activeSources s2 = ∅ ∧ fadeTimeout s2 = None ∧ timers s2 = ∅ ∧
  (∀ entry, entry ∈ activeSources s → silenced s2 entry) ∧
  voices_stopped (activeSources s) s1 s2 ∧
  (∀ source gain, (source, gain) ∈ activeSources s →
     ∃ node gnode,
       sources s1 !! source = Some node ∧ gains s1 !! gain = Some gnode ∧
       sources s2 !! source = Some (stopped node) ∧
       src_playback (stopped node) = Finished ∧
       gains s2 !! gain = Some (cancelled gnode)).
Proof.
  intros s s1 s2 Hne Hlong.
  pose proof (Inv_reachable autoplay nodes trace) as HI. fold s in HI.
  pose proof (Inv_reachable autoplay nodes (trace ++ [CallFadeOutAllSounds duration])) as HI1.
  pose proof (Wired_reachable autoplay nodes (trace ++ [CallFadeOutAllSounds duration])) as HW1.
  pose proof (started_reachable autoplay nodes (trace ++ [CallFadeOutAllSounds duration]))
    as HS1.
  rewrite run_snoc in HI1, HW1, HS1. fold s s1 in HI1, HW1, HS1.
  destruct (fadeOutAllSounds_spec duration s)
    as (s' & Hrun & [[Hempty _]|[(_ & Hshort & _)|(_ & _ & Hsame)]]);
    [contradiction | contradiction |].
  assert (s1 = s') as Hs1 by (unfold s1; cbn [step]; now rewrite Hrun).
  destruct Hsame as (_ & _ & Ha & _ & Ht & _).
  cbn [activeSources timers set_fadeTimeout set_timers] in Ha, Ht.
  assert (activeSources s1 = activeSources s) as Ha1.
  { rewrite Hs1, Ha. unfold getAudioContext. now destruct (audioContext s). }
  assert (timers s1 !! next_timer s = Some (duration * 1000)%Q) as Ht1
    by (rewrite Hs1, Ht; apply lookup_insert_eq).
  split; [exact Ha1|]. split; [exact Ht1|].
  unfold s2. cbn [step]. unfold timer_fires. rewrite Ht1.
  unfold clearTimeout, modify, mbind, M_bind. cbv beta iota.
  set (s1' := set_timers (delete (next_timer s) (timers s1)) (next_timer s1) s1).
  assert (∀ h, is_Some (timers s1' !! h) → fadeTimeout s1' = Some h) as Hpending.
  { intros h [x Hx]. unfold s1' in *. cbn [timers fadeTimeout set_timers] in *.
    apply lookup_delete_Some in Hx as [_ Hx]. apply (inv_pending s1 HI1). eauto. }
  assert (entries_valid s1') as Hvalid by exact (wired_entries s1 HW1).
  pose proof (stopAllSounds_stops_voices s1' Hvalid) as Hstopped.
  destruct (stopAllSounds_spec s1')
    as (s'' & Hstop & _ & _ & Ha2 & Hf2 & Ht2 & _ & _ & _ & _ & _ & _ & Hsilenced).
  rewrite Hstop in *. cbn [snd] in *.
  change (activeSources s1') with (activeSources s1) in Hstopped.
  rewrite Ha1 in Hstopped.
  split; [exact Ha2|]. split; [exact Hf2|].
  split; [rewrite Ht2; now apply cleared_empty|].
  split; [|split; [exact Hstopped|]].
  - intros entry Hentry. apply Hsilenced; [exact Hvalid|].
    unfold s1'. cbn [activeSources set_timers]. now rewrite Ha1.
  - intros src g Hk. destruct Hstopped as (Hnodes & _).
    destruct (Hnodes src g Hk) as [Hsource Hgain].
    change (sources s1') with (sources s1) in Hsource.
    change (gains s1') with (gains s1) in Hgain.
    rewrite <- Ha1 in Hk.
    destruct (HS1 src g Hk) as (node & Hnode & Hbegun).
    destruct (wired_entries s1 HW1 src g Hk) as [gnode Hgnode].
    exists node, gnode. rewrite Hsource, Hgain, Hnode, Hgnode.
    repeat split. now apply stopped_playback.
Qed.

Lemma fade_completes_with_a_stop_witness :
  let s := playing_state in
  let s1 := step s (CallFadeOutAllSounds 5) in
  let s2 := step s1 (TimerFires (next_timer s)) in
  activeSources s1 = activeSources s ∧
  timers s1 !! next_timer s = Some (5 * 1000)%Q ∧
  activeSources s2 = ∅ ∧ fadeTimeout s2 = None ∧ timers s2 = ∅ ∧
  (∀ entry, entry ∈ activeSources s → silenced s2 entry) ∧
  voices_stopped (activeSources s) s1 s2 ∧
  (∀ source gain, (source, gain) ∈ activeSources s →
     ∃ node gnode,
       sources s1 !! source = Some node ∧ gains s1 !! gain = Some gnode ∧
       sources s2 !! source = Some (stopped node) ∧
       src_playback (stopped node) = Finished ∧
       gains s2 !! gain = Some (cancelled gnode)).
Proof.
  apply (fade_completes_with_a_stop true true
           [CallPlayAudioBlob sample_blob 1; Settle 0 all_fulfilled; Settle 0 all_fulfilled] 5).
  - intros H. apply (f_equal size) in H. vm_compute in H. discriminate.
  - intros H. vm_compute in H. apply H. reflexivity.
Defined.

(** ** The [ended] event *)

(** X4: in every reachable state the [ended] event of a source removes
    from the registry at most the entry created with that source; every
    other registered voice stays registered, and nothing else
    changes. *)
Theorem ended_removes_only_its_own_entry
    (autoplay nodes : bool) (trace : list Event) (src : nat) :
  let s := run (initial autoplay nodes) trace in
  let s' := step s (SourceEnded src) in
  activeSources s' ⊆ activeSources s ∧
  (∀ entry, entry ∈ activeSources s → entry ≠ (src, S src) → entry ∈ activeSources s') ∧
  untouched (set_activeSources (activeSources s') s) s' ∧
  masterGainNode s' = masterGainNode s.
Proof.
  intros s s'.
  pose proof (Wired_reachable autoplay nodes trace) as HW. fold s in HW.
  unfold s'. cbn [step]. unfold source_ended.
  destruct (sources s !! src) as [node|] eqn:Hnode;
    [|split; [reflexivity|]; split; [auto|]; split; [repeat split | reflexivity]].
  destruct (src_playback node), (src_onended node) as [entry|] eqn:Hended; cbn [snd];
    try (split; [reflexivity|]; split; [auto|]; split; [repeat split | reflexivity]).
  pose proof (wired_handlers s HW src node entry Hnode Hended) as ->.
  norm. split; [apply subseteq_difference_l; reflexivity|].
  split; [|split; [repeat split | reflexivity]].
  intros entry Hin Hother. apply elem_of_difference. split; [exact Hin|].
  intros Heq. apply elem_of_singleton in Heq. contradiction.
Qed.

(** X5: a voice that plays to its end deregisters itself: once
    [playAudioBlob] has started a voice, the source reaching the end
    of its buffer leaves the voice registered until the [ended] event
    is dispatched, and that event empties the registry without
    touching the pending fade or the timers. *)
Theorem natural_end_deregisters (audioBuffer : AudioBuffer) (volume : Q) (s : State) :
  nodes_available s = true →
  let new : AudioSourceEntry := (next_node s, S (next_node s)) in
  let s1 := snd (play_decoded audioBuffer volume s) in
  let s2 := step s1 (SourceFinishes (next_node s)) in
  let s3 := step s2 (SourceEnded (next_node s)) in
  activeSources s1 = {[new]} ∧ activeSources s2 = {[new]} ∧ activeSources s3 = ∅ ∧
  fadeTimeout s3 = fadeTimeout s1 ∧ timers s3 = timers s1 ∧
  ∃ node, sources s3 !! next_node s = Some node ∧ src_playback node = Finished.
Proof.
  intros Havail new s1 s2 s3.
  destruct (play_decoded_started audioBuffer volume s Havail)
    as (s' & Hrun & Ha & _ & Hsrc & _).
  assert (s1 = s') as Hs1 by (unfold s1; now rewrite Hrun). clearbody s1. subst s'.
  split; [exact Ha|].
  assert (s2 = set_nodes (<[next_node s :=
                            {| src_buffer := Some audioBuffer; src_playback := Finished;
                               src_output := Some (S (next_node s));
                               src_onended := Some new |}]> (sources s1))
                 (gains s1) (next_node s1) s1) as Hs2.
  { unfold s2. cbn [step]. unfold source_finishes.
    now rewrite (update_source_ok _ stop s1 _ _ Hsrc eq_refl). }
  clearbody s2. subst s2.
  split; [exact Ha|].
  unfold s3. cbn [step]. unfold source_ended. norm.
  rewrite lookup_insert_eq. norm. rewrite Ha.
  split; [apply leibniz_equiv; set_unfold; tauto|].
  split; [reflexivity|]. split; [reflexivity|].
  rewrite lookup_insert_eq. eauto.
Qed.

Lemma natural_end_deregisters_witness :
  let s := initial true true in
  let new : AudioSourceEntry := (next_node s, S (next_node s)) in
  let s1 := snd (play_decoded sample_buffer 1 s) in
  let s2 := step s1 (SourceFinishes (next_node s)) in
  let s3 := step s2 (SourceEnded (next_node s)) in
  activeSources s1 = {[new]} ∧ activeSources s2 = {[new]} ∧ activeSources s3 = ∅ ∧
  fadeTimeout s3 = fadeTimeout s1 ∧ timers s3 = timers s1 ∧
  ∃ node, sources s3 !! next_node s = Some node ∧ src_playback node = Finished.
Proof. apply (natural_end_deregisters sample_buffer 1 (initial true true)). reflexivity. Defined.

(** ** The master gain is independent of the voices *)

Lemma play_decoded_master (audioBuffer : AudioBuffer) (volume : Q) (s : State) :
  masterGainNode (snd (play_decoded audioBuffer volume s)) = masterGainNode s ∧
  audioContext (snd (play_decoded audioBuffer volume s)) = audioContext s.
Proof.
  destruct (nodes_available s) eqn:Havail.
  - destruct (play_decoded_started audioBuffer volume s Havail)
      as (s' & -> & _ & _ & _ & _ & Hc & Hm & _). now split.
  - rewrite (play_decoded_no_nodes audioBuffer volume s Havail). cbn [snd].
    destruct (stopAllSounds_spec s) as (s' & -> & Hc & Hm & _). now split.
Qed.

Lemma respond_master (task : PlayTask) (o : Outcomes) (s : State) :
  masterGainNode (snd (respond task o s)) = masterGainNode s.
Proof.
  assert ((∃ bytes volume, task = AwaitDecode bytes volume)
          ∨ ∀ bytes volume, task ≠ AwaitDecode bytes volume) as [(bytes & volume & ->)|Hother]
    by (destruct task; eauto; right; discriminate).
  - cbn [respond].
    assert (masterGainNode (snd (match decode_outcome o with
                                 | Ok audioBuffer => play_decoded audioBuffer volume
                                 | Throw e => throw e
                                 end s)) = masterGainNode s) as Hbody
      by (destruct (decode_outcome o); [apply play_decoded_master | reflexivity]).
    destruct (catch_all_state
                (match decode_outcome o with
                 | Ok audioBuffer => play_decoded audioBuffer volume
                 | Throw e => throw e
                 end) s) as [->|[c ->]]; exact Hbody.
  - apply (respond_before_decoding task o s Hother).
Qed.

(** X6: once the audio context exists, no event other than a call of
    [setMasterVolume] changes the master gain node: playing, stopping,
    fading, sources ending and timers firing leave its value, its
    scheduled transitions and its wiring as they are. *)
Theorem master_gain_only_changed_by_setMasterVolume (s : State) (ev : Event) :
  is_Some (audioContext s) → (∀ volume, ev ≠ CallSetMasterVolume volume) →
  masterGainNode (step s ev) = masterGainNode s.
Proof.
  intros [ctx Hctx] Hev.
  assert (∀ s1, audioContext s1 = Some ctx → snd (getAudioContext s1) = s1) as Hget
    by (intros s1 H1; unfold getAudioContext; now rewrite H1).
  destruct ev as [volume| |d|blob volume|id o|src|src|handle|dt|g v|autoplay nodes];
    cbn [step].
  - now destruct (Hev volume).
  - destruct (stopAllSounds_spec s) as (s' & -> & _ & Hm & _). exact Hm.
  - destruct (fadeOutAllSounds_spec d s)
      as (s' & -> & [[_ ->]|[(_ & _ & ->)|(_ & _ & Hsame)]]); cbn [snd];
      rewrite (Hget s Hctx) in *.
    + reflexivity.
    + destruct (stopAllSounds_spec s) as (s' & -> & _ & Hm & _). exact Hm.
    + destruct Hsame as (_ & Hm & _). exact Hm.
  - destruct (playAudioBlob_ok blob volume (set_tasks (tasks s) (S (next_task s)) s))
      as (task & -> & _).
    cbn [store_task]. rewrite Hget by exact Hctx. reflexivity.
  - destruct (tasks s !! id) as [task|]; [|reflexivity].
    pose proof (respond_master task o s) as Hm.
    destruct (respond task o s) as [[task'|e] s']; exact Hm.
  - unfold source_finishes.
    pose proof (keeps_control_update_source src stop s) as (_ & Hm & _).
    destruct (update_source src stop s). exact Hm.
  - unfold source_ended. destruct (sources s !! src) as [node|]; [|reflexivity].
    destruct (src_playback node), (src_onended node); reflexivity.
  - unfold timer_fires. destruct (timers s !! handle); [|reflexivity].
    unfold clearTimeout, modify, mbind, M_bind. cbv beta iota.
    match goal with |- masterGainNode (snd (stopAllSounds ?s1)) = _ =>
      destruct (stopAllSounds_spec s1) as (s' & -> & _ & Hm & _) end.
    exact Hm.
  - unfold tick. rewrite Hctx. destruct (ctx_state ctx), (negative dt); reflexivity.
  - unfold rendered.
    pose proof (keeps_control_update_gain g (fun p => Ok (assign_value v p)) s) as (_ & Hm & _).
    destruct (update_gain g _ s). exact Hm.
  - reflexivity.
Qed.

Lemma master_gain_only_changed_by_setMasterVolume_witness :
  masterGainNode (step playing_state (CallFadeOutAllSounds 5)) = masterGainNode playing_state.
Proof.
  apply (master_gain_only_changed_by_setMasterVolume playing_state (CallFadeOutAllSounds 5)).
  - vm_compute. eauto.
  - discriminate.
Defined.

(** ** What a completed [playAudioBlob] leaves *)

Lemma settle_decoded (s : State) (id : nat) (o : Outcomes) (bytes : list byte)
    (volume : Q) (audioBuffer : AudioBuffer) :
  Inv s → Wired s →
  tasks s !! id = Some (AwaitDecode bytes volume) →
  decode_outcome o = Ok audioBuffer → nodes_available s = true →
  let s' := step s (Settle id o) in
  tasks s' = <[id := Settled (Ok ())]> (tasks s) ∧
  activeSources s' = {[(next_node s, S (next_node s))]} ∧
  next_node s' = S (S (next_node s)) ∧
  sources s' !! next_node s
  = Some {| src_buffer := Some audioBuffer; src_playback := Playing;
            src_output := Some (S (next_node s));
            src_onended := Some (next_node s, S (next_node s)) |} ∧
  gains s' !! S (next_node s)
  = Some {| gain_param := {| param_value := volume; param_events := [] |};
            gain_output := Some MasterGain |} ∧
  fadeTimeout s' = None ∧ timers s' = ∅ ∧ nodes_available s' = true.
Proof.
  intros HI HW Htask Hdecode Havail s'. subst s'. cbn [step]. rewrite Htask.
  cbn [respond]. rewrite Hdecode.
  destruct (play_decoded_started audioBuffer volume s Havail)
    as (s' & Hrun & Ha & Hnn & Hsrc & Hgain & _ & _ & Hf & Ht & _ & Hts & _ & _ & Hna).
  unfold catch_all. rewrite (try_ok _ _ _ _ _ Hrun). cbn [store_task]. norm.
  destruct (wired_master s HW) as [master Hmaster].
  { intros Hempty. rewrite Hempty, lookup_empty in Htask. discriminate. }
  rewrite Hmaster in Hgain. rewrite Hts, Hna, Ht, (cleared_empty s (inv_pending s HI)).
  repeat split; assumption.
Qed.

(** X7: in every reachable state, when the decoding awaited by an
    invocation of [playAudioBlob] is fulfilled and nodes can be
    created, the invocation's promise is fulfilled and exactly one
    voice is registered: its source plays the decoded buffer and feeds
    a new gain node whose value is the requested volume, with nothing
    scheduled on it, wired to the master gain (the fallback to the
    destination is never taken); no pending fade and no timer
    remain. *)
Theorem settled_play_registers_the_voice
    (autoplay nodes : bool) (trace : list Event) (id : nat) (o : Outcomes)
    (bytes : list byte) (volume : Q) (audioBuffer : AudioBuffer) :
  let s := run (initial autoplay nodes) trace in
  let s' := step s (Settle id o) in
  tasks s !! id = Some (AwaitDecode bytes volume) →
  decode_outcome o = Ok audioBuffer → nodes_available s = true →
  tasks s' !! id = Some (Settled (Ok ())) ∧
  activeSources s' = {[(next_node s, S (next_node s))]} ∧
  sources s' !! next_node s
  = Some {| src_buffer := Some audioBuffer; src_playback := Playing;
            src_output := Some (S (next_node s));
            src_onended := Some (next_node s, S (next_node s)) |} ∧
  gains s' !! S (next_node s)
  = Some {| gain_param := {| param_value := volume; param_events := [] |};
            gain_output := Some MasterGain |} ∧
  fadeTimeout s' = None ∧ timers s' = ∅.
Proof.
  intros s s' Htask Hdecode Havail.
  destruct (settle_decoded s id o bytes volume audioBuffer
              (Inv_reachable autoplay nodes trace) (Wired_reachable autoplay nodes trace)
              Htask Hdecode Havail)
    as (Hts & Ha & _ & Hsrc & Hgain & Hf & Ht & _).
  fold s' in Hts, Ha, Hsrc, Hgain, Hf, Ht.
  split; [rewrite Hts; apply lookup_insert_eq|]. repeat split; assumption.
Qed.

Lemma settled_play_registers_the_voice_witness :
  let s := run (initial true true)
             [CallPlayAudioBlob sample_blob (1 # 2); Settle 0 all_fulfilled] in
  let s' := step s (Settle 0 all_fulfilled) in
  tasks s' !! 0%nat = Some (Settled (Ok ())) ∧
  activeSources s' = {[(next_node s, S (next_node s))]} ∧
  sources s' !! next_node s
  = Some {| src_buffer := Some sample_buffer; src_playback := Playing;
            src_output := Some (S (next_node s));
            src_onended := Some (next_node s, S (next_node s)) |} ∧
  gains s' !! S (next_node s)
  = Some {| gain_param := {| param_value := 1 # 2; param_events := [] |};
            gain_output := Some MasterGain |} ∧
  fadeTimeout s' = None ∧ timers s' = ∅.
Proof.
  apply (settled_play_registers_the_voice true true
           [CallPlayAudioBlob sample_blob (1 # 2); Settle 0 all_fulfilled] 0 all_fulfilled
           [] (1 # 2) sample_buffer); reflexivity.
Defined.

(** X8: the decoding that settles last wins: when two invocations of
    [playAudioBlob] are both waiting for their decoding and the
    platform fulfils one and then the other, the registry ends with
    exactly the voice of the one fulfilled last, playing its buffer
    at its volume; the voice of the other is no longer registered. *)
Theorem last_decoding_wins
    (autoplay nodes : bool) (trace : list Event) (a b : nat) (oa ob : Outcomes)
    (bytes_a bytes_b : list byte) (volume_a volume_b : Q) (buffer_a buffer_b : AudioBuffer) :
  let s := run (initial autoplay nodes) trace in
  let s1 := step s (Settle b ob) in
  let s2 := step s1 (Settle a oa) in
  a ≠ b →
  tasks s !! a = Some (AwaitDecode bytes_a volume_a) →
  tasks s !! b = Some (AwaitDecode bytes_b volume_b) →
  decode_outcome oa = Ok buffer_a → decode_outcome ob = Ok buffer_b →
  nodes_available s = true →
  activeSources s1 = {[(next_node s, S (next_node s))]} ∧
  activeSources s2 = {[(S (S (next_node s)), S (S (S (next_node s))))]} ∧
  ((next_node s, S (next_node s)) ∉ activeSources s2) ∧
  sources s2 !! S (S (next_node s))
  = Some {| src_buffer := Some buffer_a; src_playback := Playing;
            src_output := Some (S (S (S (next_node s))));
            src_onended := Some (S (S (next_node s)), S (S (S (next_node s)))) |} ∧
  gains s2 !! S (S (S (next_node s)))
  = Some {| gain_param := {| param_value := volume_a; param_events := [] |};
            gain_output := Some MasterGain |}.
Proof.
  intros s s1 s2 Hab Ha Hb Hda Hdb Havail.
  pose proof (Inv_reachable autoplay nodes trace) as HI.
  pose proof (Wired_reachable autoplay nodes trace) as HW. fold s in HI, HW.
  destruct (settle_decoded s b ob bytes_b volume_b buffer_b HI HW Hb Hdb Havail)
    as (Hts1 & Ha1 & Hnn1 & _ & _ & _ & _ & Havail1).
  fold s1 in Hts1, Ha1, Hnn1, Havail1.
  pose proof (Inv_reachable autoplay nodes (trace ++ [Settle b ob])) as HI1.
  pose proof (Wired_reachable autoplay nodes (trace ++ [Settle b ob])) as HW1.
  rewrite run_snoc in HI1, HW1. fold s s1 in HI1, HW1.
  assert (tasks s1 !! a = Some (AwaitDecode bytes_a volume_a)) as Ha'
    by (rewrite Hts1, lookup_insert_ne by (intros Heq; apply Hab; now symmetry); exact Ha).
  destruct (settle_decoded s1 a oa bytes_a volume_a buffer_a HI1 HW1 Ha' Hda Havail1)
    as (_ & Ha2 & _ & Hsrc2 & Hgain2 & _).
  fold s2 in Ha2, Hsrc2, Hgain2. rewrite Hnn1 in Ha2, Hsrc2, Hgain2.
  split; [exact Ha1|]. split; [exact Ha2|]. split; [|split; assumption].
  rewrite Ha2. intros Hin. apply elem_of_singleton in Hin. injection Hin as Heq _. lia.
Qed.

Lemma last_decoding_wins_witness :
  let s := run (initial true true)
             [CallPlayAudioBlob sample_blob 1; CallPlayAudioBlob sample_blob (1 # 2);
              Settle 0 all_fulfilled; Settle 1 all_fulfilled] in
  let s1 := step s (Settle 1 all_fulfilled) in
  let s2 := step s1 (Settle 0 all_fulfilled) in
  activeSources s1 = {[(next_node s, S (next_node s))]} ∧
  activeSources s2 = {[(S (S (next_node s)), S (S (S (next_node s))))]} ∧
  ((next_node s, S (next_node s)) ∉ activeSources s2) ∧
  sources s2 !! S (S (next_node s))
  = Some {| src_buffer := Some sample_buffer; src_playback := Playing;
            src_output := Some (S (S (S (next_node s))));
            src_onended := Some (S (S (next_node s)), S (S (S (next_node s)))) |} ∧
  gains s2 !! S (S (S (next_node s)))
  = Some {| gain_param := {| param_value := 1; param_events := [] |};
            gain_output := Some MasterGain |}.
Proof.
  apply (last_decoding_wins true true
           [CallPlayAudioBlob sample_blob 1; CallPlayAudioBlob sample_blob (1 # 2);
            Settle 0 all_fulfilled; Settle 1 all_fulfilled]
           0 1 all_fulfilled all_fulfilled [] [] 1 (1 # 2) sample_buffer sample_buffer);
    try reflexivity.
  discriminate.
Defined.

(** X9: starting a sound supersedes a fade: in every reachable state,
    once the synchronous tail of [playAudioBlob] has run there is no
    pending fade and no active timer, so the deferred stop of an
    earlier fade cannot fire: the firing of any timer handle leaves
    the state, and with it the new voice, as it is. *)
Theorem play_supersedes_pending_fade
    (autoplay nodes : bool) (trace : list Event) (audioBuffer : AudioBuffer) (volume : Q) :
  let s := run (initial autoplay nodes) trace in
  let s' := snd (play_decoded audioBuffer volume s) in
  fadeTimeout s' = None ∧ timers s' = ∅ ∧ ∀ handle, step s' (TimerFires handle) = s'.
Proof.
  intros s s'.
  pose proof (Inv_reachable autoplay nodes trace) as HI. fold s in HI.
  assert (fadeTimeout s' = None ∧ timers s' = cleared s) as [Hf Ht].
  { unfold s'. destruct (nodes_available s) eqn:Havail.
    - destruct (play_decoded_started audioBuffer volume s Havail)
        as (s'' & -> & _ & _ & _ & _ & _ & _ & Hf & Ht & _). now split.
    - rewrite (play_decoded_no_nodes audioBuffer volume s Havail). cbn [snd].
      destruct (stopAllSounds_spec s) as (s'' & -> & _ & _ & _ & Hf & Ht & _). now split. }
  rewrite (cleared_empty s (inv_pending s HI)) in Ht.
  split; [exact Hf|]. split; [exact Ht|].
  intros handle. cbn [step]. unfold timer_fires. now rewrite Ht, lookup_empty.
Qed.

(** X10: while an invocation of [playAudioBlob] has not reached the
    end of its decoding, it does not touch the voices: the call up to
    its first await and the resumptions after [resume] and
    [arrayBuffer], fulfilled or rejected, leave the registry, every
    node, the pending fade and the timers as they are, so a sound that
    is playing keeps playing until the new one is decoded. *)
Theorem pending_play_leaves_voices_alone (blob : Blob) (volume : Q) (o : Outcomes) (s : State) :
  untouched s (snd (playAudioBlob blob volume s)) ∧
  untouched s (snd (respond (AwaitResume blob volume) o s)) ∧
  untouched s (snd (respond (AwaitArrayBuffer blob volume) o s)).
Proof.
  split; [apply playAudioBlob_untouched|].
  split; apply respond_before_decoding; discriminate.
Qed.

(** * Binary strings, [base64ToBlob] and [generateSpeech] *)

Lemma length_list_ascii_of_string (s : string) :
  length (list_ascii_of_string s) = String.length s.
Proof. induction s as [|c s IH]; [reflexivity|]. cbn. now rewrite IH. Qed.

Lemma length_char_bytes (s : string) : length (char_bytes s) = String.length s.
Proof. unfold char_bytes. now rewrite length_map, length_list_ascii_of_string. Qed.

Lemma char_byte_value (c : ascii) :
  Z_of_byte (byte_of_Z (Z.of_N (N_of_ascii c))) = Z.of_N (N_of_ascii c).
Proof.
  rewrite Z_of_byte_of_Z. apply Z.mod_small.
  pose proof (N_ascii_bounded c). lia.
Qed.

Lemma ToUint8_charCodeAt (c : ascii) :
  byte_of_Z (ToUint 8 (charCodeAt c)) = byte_of_Z (Z.of_N (N_of_ascii c)).
Proof.
  unfold ToUint, charCodeAt. rewrite ToInteger_inject_Z.
  change (2 ^ 8) with 256. apply byte_of_Z_mod.
Qed.

Lemma fill_bytes_write (chars : list ascii) :
  ∀ i (bytes : list byte),
    fill_bytes chars i bytes
    = write_bytes bytes i (map (fun c => byte_of_Z (Z.of_N (N_of_ascii c))) chars).
Proof.
  induction chars as [|c chars IH]; intros i bytes; cbn [fill_bytes write_bytes map];
    [reflexivity|].
  now rewrite IH, ToUint8_charCodeAt.
Qed.

(** The loop of [generateSpeech] fills the zeroed array with the bytes
    of the binary string. *)
Lemma fill_bytes_all (s : string) :
  fill_bytes (list_ascii_of_string s) 0 (replicate (String.length s) "000"%byte)
  = char_bytes s.
Proof.
  rewrite fill_bytes_write.
  change (replicate (String.length s) "000"%byte)
    with ([] ++ replicate (String.length s) "000"%byte).
  change 0%nat with (length (@nil byte)).
  rewrite write_bytes_app_r; [reflexivity|].
  now rewrite length_replicate, length_map, length_list_ascii_of_string.
Qed.

Lemma fill_numbers_app (chars : list ascii) :
  ∀ (done : list (option Q)),
    fill_numbers chars (length done) (done ++ replicate (length chars) None)
    = done ++ map (fun c => Some (charCodeAt c)) chars.
Proof.
  induction chars as [|c chars IH]; intros done; cbn [fill_numbers map replicate length].
  - reflexivity.
  - rewrite insert_app_r_alt by lia. rewrite Nat.sub_diag.
    change (<[0%nat := Some (charCodeAt c)]> (None :: replicate (length chars) None))
      with (Some (charCodeAt c) :: replicate (length chars) (@None Q)).
    replace (done ++ Some (charCodeAt c) :: replicate (length chars) None)
      with ((done ++ [Some (charCodeAt c)]) ++ replicate (length chars) None)
      by now rewrite <- app_assoc.
    replace (S (length done)) with (length (done ++ [Some (charCodeAt c)]))
      by (rewrite length_app; cbn; lia).
    rewrite IH. now rewrite <- app_assoc.
Qed.

(** The array of [base64ToBlob], converted, holds the bytes of the
    binary string. *)
Lemma Uint8Array_from_filled (s : string) :
  Uint8Array_from
    (fill_numbers (list_ascii_of_string s) 0 (replicate (String.length s) None))
  = char_bytes s.
Proof.
  rewrite <- length_list_ascii_of_string.
  pose proof (fill_numbers_app (list_ascii_of_string s) []) as Hfill.
  cbn [length app] in Hfill. rewrite Hfill.
  unfold Uint8Array_from, char_bytes. rewrite map_map.
  apply map_ext. intros c. apply ToUint8_charCodeAt.
Qed.

(** X11: [base64ToBlob] throws exactly when [atob] throws; otherwise
    it returns a blob of the requested type (audio/mp3 when none is
    given) with one byte per character of the decoded binary string,
    in order, each byte being the character's code: nothing is lost or
    altered by the intermediate array of numbers. *)
Theorem base64ToBlob_bytes (atob : string → option string) (base64 : string)
    (type : option string) :
  match atob base64 with
  | None => base64ToBlob atob base64 type = Threw InvalidCharacterError
  | Some binary =>
      ∃ blob, base64ToBlob atob base64 type = Returned blob ∧
        blob_type blob = default "audio/mp3"%string type ∧
        length (blob_bytes blob) = String.length binary ∧
        map Z_of_byte (blob_bytes blob)
        = map (fun c => Z.of_N (N_of_ascii c)) (list_ascii_of_string binary)
  end.
Proof.
  unfold base64ToBlob. destruct (atob base64) as [binary|]; [|reflexivity].
  eexists. split; [reflexivity|]. cbn [blob_type blob_bytes].
  rewrite Uint8Array_from_filled. split; [reflexivity|].
  split; [apply length_char_bytes|].
  unfold char_bytes. rewrite map_map. apply map_ext. intros c. apply char_byte_value.
Qed.

Lemma find_first_match {A} (f : A → bool) (before after : list A) (x : A) :
  Forall (fun y => f y = false) before → f x = true →
  find f (before ++ x :: after) = Some x.
Proof.
  intros Hbefore Hx. induction Hbefore as [|y before Hy _ IH]; cbn [app find].
  - now rewrite Hx.
  - now rewrite Hy.
Qed.

Lemma find_no_match {A} (f : A → bool) (l : list A) :
  Forall (fun y => f y = false) l → find f l = None.
Proof. intros H. induction H as [|y l Hy _ IH]; cbn [find]; [reflexivity | now rewrite Hy]. Qed.

(** X12: when the API key is set and the model answers, [generateSpeech]
    uses the first candidate only and, in it, the first part whose
    MIME type starts with "audio": if that part carries non-empty
    base64 data that [atob] accepts, the result is a blob of type
    audio/wav made of the 44-byte header for 24000 Hz, mono, 16 bit
    followed by exactly the decoded bytes, whatever the later parts
    and the other candidates hold. *)
Theorem generateSpeech_wraps_first_audio_part
    (atob : string → option string)
    (generateContent : GenerateContentRequest → Outcome GenerateContentResponse)
    (apiKey text : string) (voice : option string)
    (others : list Candidate) (before after : list Part)
    (type base64 binary : string) :
  apiKey ≠ ""%string →
  generateContent {| request_apiKey := apiKey;
                     request_model := "gemini-2.5-flash-preview-tts";
                     request_text := text;
                     request_voiceName := default "Kore"%string voice |}
  = Returned {| candidates :=
                  Some ({| content :=
                             Some {| parts :=
                                       Some (before
                                             ++ {| inlineData :=
                                                     Some {| mimeType := Some type;
                                                             data := Some base64 |} |}
                                             :: after) |} |}
                        :: others) |} →
  Forall (fun p => is_audio_part p = false) before →
  String.prefix "audio" type = true →
  base64 ≠ ""%string → atob base64 = Some binary →
  generateSpeech atob generateContent (Some apiKey) text voice
  = Returned {| blob_bytes := wav_header (char_bytes binary) 24000 1 16 ++ char_bytes binary;
                blob_type := "audio/wav" |}
  ∧ length (wav_header (char_bytes binary) 24000 1 16 ++ char_bytes binary)
    = (44 + String.length binary)%nat.
Proof.
  intros Hkey Hresponse Hbefore Htype Hdata Hatob. split.
  - unfold generateSpeech.
    apply String.eqb_neq in Hkey. rewrite Hkey, Hresponse. cbn [candidates content parts].
    rewrite (find_first_match is_audio_part before after _ Hbefore)
      by (unfold is_audio_part; cbn [inlineData mimeType]; exact Htype).
    cbn [inlineData data falsy]. apply String.eqb_neq in Hdata. rewrite Hdata.
    change (default ""%string (Some base64)) with base64.
    rewrite Hatob, fill_bytes_all, createWavFile_bytes. reflexivity.
  - now rewrite length_app, length_wav_header, length_char_bytes.
Qed.

Lemma generateSpeech_wraps_first_audio_part_witness :
  generateSpeech sample_atob audio_in_second_part (Some "key"%string) "hello" None
  = Returned {| blob_bytes := wav_header (char_bytes "ABC") 24000 1 16 ++ char_bytes "ABC";
                blob_type := "audio/wav" |}
  ∧ length (wav_header (char_bytes "ABC") 24000 1 16 ++ char_bytes "ABC")
    = (44 + String.length "ABC")%nat.
Proof.
  apply (generateSpeech_wraps_first_audio_part sample_atob audio_in_second_part
           "key" "hello" None [] [sample_part "text/plain" "QQ=="] [] "audio/L16" "QUJD" "ABC").
  - discriminate.
  - reflexivity.
  - repeat constructor.
  - reflexivity.
  - discriminate.
  - reflexivity.
Defined.

(** X13: [generateSpeech] never looks past the first candidate and the
    first audio part: when the first candidate's first audio part, if
    it has one at all, carries no data or empty data, the call throws
    "No audio data found in the response." even if other candidates
    or later parts hold audio. *)
Theorem generateSpeech_first_candidate_only
    (atob : string → option string)
    (generateContent : GenerateContentRequest → Outcome GenerateContentResponse)
    (apiKey text : string) (voice : option string)
    (first : Candidate) (others : list Candidate) :
  apiKey ≠ ""%string →
  generateContent {| request_apiKey := apiKey;
                     request_model := "gemini-2.5-flash-preview-tts";
                     request_text := text;
                     request_voiceName := default "Kore"%string voice |}
  = Returned {| candidates := Some (first :: others) |} →
  (∀ c ps p d, content first = Some c → parts c = Some ps →
               find is_audio_part ps = Some p → inlineData p = Some d →
               falsy (data d) = true) →
  generateSpeech atob generateContent (Some apiKey) text voice
  = Threw (JsError "No audio data found in the response.").
Proof.
  intros Hkey Hresponse Hfirst. unfold generateSpeech.
  apply String.eqb_neq in Hkey. rewrite Hkey, Hresponse. cbn [candidates].
  destruct (content first) as [c|] eqn:Hcontent; [|reflexivity].
  destruct (parts c) as [ps|] eqn:Hparts; [|reflexivity].
  destruct (find is_audio_part ps) as [p|] eqn:Hfind; [|reflexivity].
  destruct (inlineData p) as [d|] eqn:Hinline; [|reflexivity].
  now rewrite (Hfirst c ps p d eq_refl Hparts Hfind Hinline).
Qed.

Lemma generateSpeech_first_candidate_only_witness :
  generateSpeech sample_atob audio_in_second_candidate (Some "key"%string) "hello" None
  = Threw (JsError "No audio data found in the response.").
Proof.
  apply (generateSpeech_first_candidate_only sample_atob audio_in_second_candidate
           "key" "hello" None (sample_candidate [sample_part "text/plain" "QUJD"])
           [sample_candidate [sample_part "audio/L16" "QUJD"]]).
  - discriminate.
  - reflexivity.
  - intros c ps p d [= <-] [= <-] Hfind. cbn in Hfind. discriminate.
Defined.

(** X14: every call of [generateSpeech] ends in one of six ways:
    it returns an audio/wav blob that is the 44-byte header followed
    by the bytes [atob] decoded, or it throws one of its three guard
    errors (missing API key, no candidates, no audio data), or the
    error of [atob], or the error of the request to the model. The
    buffer code that wraps the decoded bytes never fails by itself:
    no out-of-range write is among the outcomes. *)
Theorem generateSpeech_outcomes
    (atob : string → option string)
    (generateContent : GenerateContentRequest → Outcome GenerateContentResponse)
    (API_KEY : option string) (text : string) (voice : option string) :
  (∃ base64 binary,
      atob base64 = Some binary ∧
      generateSpeech atob generateContent API_KEY text voice
      = Returned {| blob_bytes := wav_header (char_bytes binary) 24000 1 16
                                  ++ char_bytes binary;
                    blob_type := "audio/wav" |})
  ∨ (falsy API_KEY = true ∧
     generateSpeech atob generateContent API_KEY text voice
     = Threw (JsError "API Key is missing. Please check your environment configuration."))
  ∨ generateSpeech atob generateContent API_KEY text voice
    = Threw (JsError "No candidates returned from Gemini API")
  ∨ generateSpeech atob generateContent API_KEY text voice
    = Threw (JsError "No audio data found in the response.")
  ∨ (∃ base64, atob base64 = None ∧
       generateSpeech atob generateContent API_KEY text voice = Threw InvalidCharacterError)
  ∨ (∃ request t, generateContent request = Threw t ∧
       generateSpeech atob generateContent API_KEY text voice = Threw t).
Proof.
  unfold generateSpeech.
  destruct API_KEY as [apiKey|]; [|right; left; split; reflexivity].
  cbn [falsy]. destruct (String.eqb apiKey ""); [right; left; split; reflexivity|].
  match goal with |- context [generateContent ?r] =>
    destruct (generateContent r) as [response|t] eqn:Hrequest end;
    [|do 5 right; eauto].
  destruct (candidates response) as [[|first others]|];
    [right; right; left; reflexivity| |right; right; left; reflexivity].
  match goal with |- context [falsy ?d] => destruct (falsy d) end;
    [right; right; right; left; reflexivity|].
  match goal with |- context [atob ?d] => destruct (atob d) as [binary|] eqn:Hatob end;
    [|do 4 right; left; eauto].
  rewrite fill_bytes_all, createWavFile_bytes. left. eauto.
Qed.

(** * The user interface *)

(** ** Keyboard shortcuts: the recorder and the global listener *)

Lemma concat_last_nonempty (sep : string) (parts : list string) (k : string) :
  k ≠ ""%string → String.concat sep (parts ++ [k]) ≠ ""%string.
Proof.
  intros Hk. induction parts as [|p parts IH]; cbn [app String.concat]; [exact Hk|].
  destruct (parts ++ [k]) as [|q rest] eqn:Hrest.
  - now destruct parts.
  - destruct p; cbn; [|discriminate].
    destruct sep; cbn; [exact IH | discriminate].
Qed.

Lemma find_shortcut (combo : string) (before after : list Types.SoundPadData)
    (pad : Types.SoundPadData) :
  Forall (fun p => Types.shortcut p ≠ Some combo) before →
  Types.shortcut pad = Some combo →
  find (fun p => match Types.shortcut p with
                 | Some s => String.eqb s combo
                 | None => false
                 end) (before ++ pad :: after) = Some pad.
Proof.
  intros Hbefore Hpad. apply find_first_match.
  - eapply Forall_impl; [exact Hbefore|]. intros p Hp. cbn beta.
    destruct (Types.shortcut p) as [s|] eqn:Hs; [|reflexivity].
    apply String.eqb_neq. intros ->. now apply Hp.
  - rewrite Hpad. apply String.eqb_refl.
Qed.

(** X15: the shortcut recorder of the edit modal and the global
    keyboard listener agree. Whatever combination the recorder stores
    for a key press (a key that is neither a standalone modifier nor
    Backspace or Delete), the same press outside a form field finds
    the first pad, in grid order, that carries that shortcut; if the
    pad has audio the listener highlights it, schedules the end of
    the highlight after 200 ms and plays the pad's audio at the pad's
    volume. The edit mode and the open modal do not matter. *)
Theorem recorded_shortcut_triggers_pad (toUpperCase : string → string)
    (e : KeyboardEvent) (modal : EditModal.Modal) (app : App.AppState)
    (before after : list Types.SoundPadData) (pad : Types.SoundPadData) (blob : Blob) :
  let recorded := EditModal.shortcut (fst (EditModal.handleShortcutKeyDown toUpperCase e modal)) in
  let pressed := {| key := key e; ctrlKey := ctrlKey e; shiftKey := shiftKey e;
                    altKey := altKey e; metaKey := metaKey e; target := OtherTarget |} in
  includes ["Control"; "Shift"; "Alt"; "Meta"]%string (key e) = false →
  key e ≠ "Backspace"%string → key e ≠ "Delete"%string →
  App.padsRef app = before ++ pad :: after →
  Forall (fun p => Types.shortcut p ≠ Some recorded) before →
  Types.shortcut pad = Some recorded →
  Types.audioBlob pad = Some blob →
  App.handleGlobalKeyDown toUpperCase pressed app
  = (App.setTriggeredPadId (Some (Types.id pad)) app,
     [PreventDefault; SetTimeout ResetTriggeredPadId 200;
      PlayAudioBlob blob (Types.volume pad)]).
Proof.
  intros recorded pressed Hmodifier Hbackspace Hdelete Hpads Hbefore Hpad Hblob.
  subst recorded. unfold EditModal.handleShortcutKeyDown in Hbefore, Hpad.
  apply String.eqb_neq in Hbackspace, Hdelete.
  rewrite Hmodifier, Hbackspace, Hdelete in Hbefore, Hpad.
  cbn [orb fst EditModal.shortcut EditModal.setShortcut EditModal.setIsRecordingShortcut]
    in Hbefore, Hpad.
  unfold App.handleGlobalKeyDown, pressed.
  cbn [key ctrlKey shiftKey altKey metaKey target]. rewrite Hmodifier, Hpads.
  rewrite (find_shortcut _ before after pad Hbefore Hpad), Hblob. reflexivity.
Qed.

Lemma recorded_shortcut_triggers_pad_witness :
  App.handleGlobalKeyDown sample_toUpperCase
    {| key := "a"; ctrlKey := true; shiftKey := false; altKey := false; metaKey := false;
       target := OtherTarget |}
    (sample_app [sample_pad 0 None None;
                 sample_pad 1 (Some "Ctrl+A"%string) (Some sample_blob);
                 sample_pad 2 (Some "Ctrl+A"%string) None])
  = (App.setTriggeredPadId (Some "pad-1"%string)
       (sample_app [sample_pad 0 None None;
                    sample_pad 1 (Some "Ctrl+A"%string) (Some sample_blob);
                    sample_pad 2 (Some "Ctrl+A"%string) None]),
     [PreventDefault; SetTimeout ResetTriggeredPadId 200; PlayAudioBlob sample_blob 1]).
Proof.
  apply (recorded_shortcut_triggers_pad sample_toUpperCase sample_press sample_modal
           (sample_app [sample_pad 0 None None;
                        sample_pad 1 (Some "Ctrl+A"%string) (Some sample_blob);
                        sample_pad 2 (Some "Ctrl+A"%string) None])
           [sample_pad 0 None None] [sample_pad 2 (Some "Ctrl+A"%string) None]
           (sample_pad 1 (Some "Ctrl+A"%string) (Some sample_blob)) sample_blob).
  - reflexivity.
  - discriminate.
  - discriminate.
  - reflexivity.
  - repeat constructor. discriminate.
  - reflexivity.
  - reflexivity.
Defined.

Lemma handleShortcutKeyDown_records (toUpperCase : string → string) (e : KeyboardEvent)
    (modal : EditModal.Modal) :
  includes ["Control"; "Shift"; "Alt"; "Meta"]%string (key e) = false →
  key e ≠ "Backspace"%string → key e ≠ "Delete"%string →
  EditModal.shortcut (fst (EditModal.handleShortcutKeyDown toUpperCase e modal))
  = combination toUpperCase e.
Proof.
  intros Hmodifier Hbackspace Hdelete. unfold EditModal.handleShortcutKeyDown.
  apply String.eqb_neq in Hbackspace, Hdelete. now rewrite Hmodifier, Hbackspace, Hdelete.
Qed.

Lemma combination_nonempty (toUpperCase : string → string) (e : KeyboardEvent) :
  (∀ s, String.length s = 1%nat → toUpperCase s ≠ ""%string) →
  key e ≠ ""%string → combination toUpperCase e ≠ ""%string.
Proof.
  intros Hupper Hkey. unfold combination. apply concat_last_nonempty.
  destruct (String.eqb (key e) " ") eqn:Hspace; cbn [String.length Nat.eqb].
  - discriminate.
  - destruct (String.length (key e) =? 1)%nat eqn:Hlength; [|exact Hkey].
    apply Hupper. now apply Nat.eqb_eq.
Qed.

(** X16: the keyboard plays the audio of a pad only through a shortcut
    that is not empty. For every key press with a key name, either
    the listener does nothing at all, or the grid holds a pad whose
    shortcut is the non-empty combination of the press and which has
    audio, and that pad's audio is what is played. A pad that was
    never given a shortcut, or that was saved with the empty shortcut
    of the modal, is never triggered by a key. The only assumption is
    that the upper case of a one-character string is not empty. *)
Theorem keyboard_needs_a_shortcut (toUpperCase : string → string) (e : KeyboardEvent)
    (app : App.AppState) :
  (∀ s, String.length s = 1%nat → toUpperCase s ≠ ""%string) →
  key e ≠ ""%string →
  App.handleGlobalKeyDown toUpperCase e app = (app, [])
  ∨ ∃ pad combo blob,
      pad ∈ App.padsRef app ∧ Types.shortcut pad = Some combo ∧ combo ≠ ""%string ∧
      combo = combination toUpperCase e ∧
      Types.audioBlob pad = Some blob ∧
      App.handleGlobalKeyDown toUpperCase e app
      = (App.setTriggeredPadId (Some (Types.id pad)) app,
         [PreventDefault; SetTimeout ResetTriggeredPadId 200;
          PlayAudioBlob blob (Types.volume pad)]).
Proof.
  intros Hupper Hkey. unfold App.handleGlobalKeyDown.
  destruct (target e); [now left | now left |].
  destruct (includes _ (key e)); [now left|].
  fold (combination toUpperCase e).
  destruct (find _ (App.padsRef app)) as [pad|] eqn:Hfind; [|now left].
  destruct (Types.audioBlob pad) as [blob|] eqn:Hblob; [|now left].
  apply find_some in Hfind as [Hin Hmatch].
  destruct (Types.shortcut pad) as [combo|] eqn:Hshortcut; [|discriminate].
  apply String.eqb_eq in Hmatch. right. exists pad, combo, blob.
  repeat split; try assumption.
  - now apply list_elem_of_In.
  - rewrite Hmatch. now apply combination_nonempty.
Qed.

Lemma keyboard_needs_a_shortcut_witness :
  App.handleGlobalKeyDown sample_toUpperCase
    {| key := "a"; ctrlKey := false; shiftKey := false; altKey := false; metaKey := false;
       target := OtherTarget |}
    (sample_app [sample_pad 0 (Some ""%string) (Some sample_blob)])
  = (sample_app [sample_pad 0 (Some ""%string) (Some sample_blob)], []).
Proof.
  destruct (keyboard_needs_a_shortcut sample_toUpperCase
              {| key := "a"; ctrlKey := false; shiftKey := false; altKey := false;
                 metaKey := false; target := OtherTarget |}
              (sample_app [sample_pad 0 (Some ""%string) (Some sample_blob)]))
    as [Hnothing | (pad & combo & blob & Hin & Hshortcut & Hcombo & _)].
  - intros [|c [|c' s]]; [discriminate | | discriminate]. intros _.
    unfold sample_toUpperCase. repeat case_match; discriminate.
  - discriminate.
  - exact Hnothing.
  - apply list_elem_of_singleton in Hin. subst pad. cbn in Hshortcut. congruence.
Defined.

(** ** The grid of pads *)

Lemma skeleton_ids :
  map Types.id App.skeletonPads
  = ["pad-0"; "pad-1"; "pad-2"; "pad-3"; "pad-4"; "pad-5"; "pad-6"; "pad-7";
     "pad-8"; "pad-9"; "pad-10"; "pad-11"; "pad-12"; "pad-13"; "pad-14"; "pad-15"]%string.
Proof. reflexivity. Qed.

Lemma skeleton_lookup (k : nat) :
  (k < App.TOTAL_PADS)%nat →
  App.skeletonPads !! k
  = Some {| Types.id := String.append "pad-" (App.decimal k); Types.name := "Empty";
            Types.color := Types.PadColor.SLATE; Types.volume := 1;
            Types.shortcut := None; Types.audioBlob := None |}.
Proof.
  intros Hk. unfold App.skeletonPads.
  rewrite list_lookup_fmap, lookup_seq_lt by exact Hk. reflexivity.
Qed.

Lemma merged_ids (storedPads skeleton : list Types.SoundPadData) :
  map Types.id
    (map (fun sk => match find (fun sp => String.eqb (Types.id sp) (Types.id sk)) storedPads with
                    | Some found => found
                    | None => sk
                    end) skeleton)
  = map Types.id skeleton.
Proof.
  rewrite map_map. apply map_ext. intros sk.
  destruct (find _ storedPads) as [found|] eqn:Hfind; [|reflexivity].
  apply find_some in Hfind as [_ Hid]. now apply String.eqb_eq in Hid.
Qed.

Lemma initPads_shaped (answer : Outcome (list Types.SoundPadData)) (app : App.AppState) :
  grid_shaped (App.pads (fst (App.initPads answer app))).
Proof.
  unfold grid_shaped.
  destruct answer as [storedPads|e]; cbn [App.initPads fst App.pads App.setPads];
    [|reflexivity].
  apply merged_ids.
Qed.

(** X17: whatever the database answers when the page loads, a failure
    or any list of stored pads (with unknown, repeated or missing
    identifiers), the grid has exactly the sixteen pads [pad-0] to
    [pad-15], in this order. *)
Theorem initPads_grid (answer : Outcome (list Types.SoundPadData)) (app : App.AppState) :
  map Types.id (App.pads (fst (App.initPads answer app)))
  = ["pad-0"; "pad-1"; "pad-2"; "pad-3"; "pad-4"; "pad-5"; "pad-6"; "pad-7";
     "pad-8"; "pad-9"; "pad-10"; "pad-11"; "pad-12"; "pad-13"; "pad-14"; "pad-15"]%string.
Proof. rewrite <- skeleton_ids. apply initPads_shaped. Qed.

(** X18: a stored pad comes back where it belongs. If the database
    answers with stored pads among which [stored] is the first with
    its identifier, and this identifier is [pad-k] for a [k] below
    sixteen, then the grid shows [stored], with all its data, at
    position [k]. *)
Theorem initPads_restores_stored_pad (app : App.AppState)
    (before after : list Types.SoundPadData) (stored : Types.SoundPadData) (k : nat) :
  (k < 16)%nat →
  Types.id stored = String.append "pad-" (App.decimal k) →
  Forall (fun sp => Types.id sp ≠ Types.id stored) before →
  App.pads (fst (App.initPads (Returned (before ++ stored :: after)) app)) !! k
  = Some stored.
Proof.
  intros Hk Hid Hbefore. cbn [App.initPads fst App.pads App.setPads].
  rewrite list_lookup_fmap, (skeleton_lookup k Hk). cbn [fmap option_fmap option_map Types.id].
  rewrite find_first_match; [reflexivity | |].
  - eapply Forall_impl; [exact Hbefore|]. intros sp Hsp. cbn beta.
    apply String.eqb_neq. now rewrite <- Hid.
  - rewrite Hid. apply String.eqb_refl.
Qed.

Lemma initPads_restores_stored_pad_witness :
  App.pads (fst (App.initPads
                   (Returned [sample_pad 3 None None;
                              sample_pad 11 (Some "Ctrl+A"%string) (Some sample_blob);
                              sample_pad 11 None None])
                   App.mount)) !! 11%nat
  = Some (sample_pad 11 (Some "Ctrl+A"%string) (Some sample_blob)).
Proof.
  apply (initPads_restores_stored_pad App.mount [sample_pad 3 None None]
           [sample_pad 11 None None]
           (sample_pad 11 (Some "Ctrl+A"%string) (Some sample_blob)) 11).
  - lia.
  - reflexivity.
  - repeat constructor. discriminate.
Defined.

(** ** Saving and clearing a pad *)

Lemma replace_pad_ids (id : string) (pad : Types.SoundPadData)
    (pads : list Types.SoundPadData) :
  Types.id pad = id → map Types.id (replace_pad id pad pads) = map Types.id pads.
Proof.
  intros Hid. unfold replace_pad. rewrite map_map. apply map_ext. intros p.
  destruct (String.eqb (Types.id p) id) eqn:Heq; [|reflexivity].
  apply String.eqb_eq in Heq. congruence.
Qed.

Lemma replace_pad_absent (id : string) (pad : Types.SoundPadData)
    (pads : list Types.SoundPadData) :
  Forall (fun p => Types.id p ≠ id) pads → replace_pad id pad pads = pads.
Proof.
  intros Hpads. induction Hpads as [|p pads Hp _ IH]; [reflexivity|].
  cbn [replace_pad map] in *. apply String.eqb_neq in Hp. rewrite Hp. now f_equal.
Qed.

Lemma unique_id_elsewhere (pads : list Types.SoundPadData) (i : nat)
    (p : Types.SoundPadData) :
  NoDup (map Types.id pads) → pads !! i = Some p →
  Forall (fun q => Types.id q ≠ Types.id p) (take i pads)
  ∧ Forall (fun q => Types.id q ≠ Types.id p) (drop (S i) pads).
Proof.
  intros Hnodup Hi.
  rewrite <- (take_drop_middle pads i p Hi), map_app in Hnodup. cbn [map] in Hnodup.
  apply NoDup_app in Hnodup as (_ & Hleft & Hright).
  apply NoDup_cons in Hright as [Hright _]. split; apply Forall_forall; intros q Hq Heq.
  - apply (Hleft (Types.id q)).
    + apply list_elem_of_fmap. now exists q.
    + rewrite Heq. apply list_elem_of_here.
  - apply Hright. rewrite <- Heq. apply list_elem_of_fmap. now exists q.
Qed.

Lemma replace_pad_insert (pads : list Types.SoundPadData) (i : nat)
    (p pad : Types.SoundPadData) :
  NoDup (map Types.id pads) → pads !! i = Some p →
  replace_pad (Types.id p) pad pads = <[i := pad]> pads.
Proof.
  intros Hnodup Hi. destruct (unique_id_elsewhere pads i p Hnodup Hi) as [Hleft Hright].
  assert (i < length pads)%nat as Hlt by (apply lookup_lt_is_Some; eauto).
  rewrite <- (take_drop_middle pads i p Hi) at 1 2.
  unfold replace_pad. rewrite map_app. cbn [map]. rewrite String.eqb_refl.
  fold (replace_pad (Types.id p) pad (take i pads)).
  fold (replace_pad (Types.id p) pad (drop (S i) pads)).
  rewrite !replace_pad_absent by assumption.
  replace i with (length (take i pads) + 0)%nat at 3 by (rewrite length_take; lia).
  now rewrite insert_app_r.
Qed.

Lemma find_by_id (pads : list Types.SoundPadData) (i : nat) (p : Types.SoundPadData) :
  NoDup (map Types.id pads) → pads !! i = Some p →
  find (fun q => String.eqb (Types.id q) (Types.id p)) pads = Some p.
Proof.
  intros Hnodup Hi. destruct (unique_id_elsewhere pads i p Hnodup Hi) as [Hleft _].
  rewrite <- (take_drop_middle pads i p Hi). apply find_first_match.
  - eapply Forall_impl; [exact Hleft|]. intros q Hq. now apply String.eqb_neq.
  - apply String.eqb_refl.
Qed.

(** X19: saving changes exactly one pad and never loses its audio. In
    a grid whose identifiers are distinct, with the pad at position
    [i] being edited, [handleSavePad] replaces that pad, and no
    other, by one with the same identifier, the name, colour, volume
    and shortcut given, and as audio the new blob if there is one,
    otherwise the audio the pad had; and it asks the database to
    store exactly this pad. *)
Theorem handleSavePad_updates_one_pad (name color : string) (blob : option Blob)
    (volume : Q) (shortcut : option string) (app : App.AppState) (i : nat)
    (existing : Types.SoundPadData) (audio : Blob) :
  let pad := {| Types.id := Types.id existing; Types.name := name; Types.color := color;
                Types.volume := volume; Types.shortcut := shortcut;
                Types.audioBlob := Some audio |} in
  NoDup (map Types.id (App.pads app)) →
  App.pads app !! i = Some existing →
  App.editingPadId app = Some (Types.id existing) →
  Types.id existing ≠ ""%string →
  App.or_else blob (Types.audioBlob existing) = Some audio →
  App.handleSavePad name color blob volume shortcut app
  = (App.setPads (<[i := pad]> (App.pads app)) app, [SavePadToDB pad]).
Proof.
  intros pad Hnodup Hi Hediting Hid Haudio. unfold App.handleSavePad.
  rewrite Hediting. cbn [falsy default from_option]. apply String.eqb_neq in Hid.
  rewrite Hid. change (id (Types.id existing)) with (Types.id existing).
  rewrite (find_by_id _ i existing Hnodup Hi). cbn [mbind option_bind].
  rewrite Haudio. fold pad. fold (replace_pad (Types.id existing) pad (App.pads app)).
  now rewrite (replace_pad_insert _ i existing pad Hnodup Hi).
Qed.

Lemma handleSavePad_updates_one_pad_witness :
  App.handleSavePad "Horn" Types.PadColor.RED None (1 # 2) (Some "Ctrl+A"%string)
    (App.handleEditPad "pad-1"
       (sample_app [sample_pad 0 None None; sample_pad 1 None (Some sample_blob)]))
  = (App.setPads
       [sample_pad 0 None None;
        {| Types.id := "pad-1"; Types.name := "Horn"; Types.color := Types.PadColor.RED;
           Types.volume := 1 # 2; Types.shortcut := Some "Ctrl+A"%string;
           Types.audioBlob := Some sample_blob |}]
       (App.handleEditPad "pad-1"
          (sample_app [sample_pad 0 None None; sample_pad 1 None (Some sample_blob)])),
     [SavePadToDB
        {| Types.id := "pad-1"; Types.name := "Horn"; Types.color := Types.PadColor.RED;
           Types.volume := 1 # 2; Types.shortcut := Some "Ctrl+A"%string;
           Types.audioBlob := Some sample_blob |}]).
Proof.
  apply (handleSavePad_updates_one_pad "Horn" Types.PadColor.RED None (1 # 2)
           (Some "Ctrl+A"%string)
           (App.handleEditPad "pad-1"
              (sample_app [sample_pad 0 None None; sample_pad 1 None (Some sample_blob)]))
           1 (sample_pad 1 None (Some sample_blob)) sample_blob).
  - apply NoDup_cons. split; [|apply NoDup_singleton].
    rewrite list_elem_of_singleton. discriminate.
  - reflexivity.
  - reflexivity.
  - discriminate.
  - reflexivity.
Defined.

(** X20: a save without audio is dropped without a word. With the
    modal open, if the active tab of the modal holds no audio (a file
    chosen under the other tab does not count) and the pad being
    edited has none either, a click on Save closes the modal and that
    is all: the grid is unchanged, nothing is asked of the database,
    nothing is reported, and the name, colour, volume and shortcut
    entered are lost. *)
Theorem save_without_audio_is_dropped (toUpperCase : string → string)
    (modal : EditModal.Modal) (app : App.AppState) :
  App.isModalOpen app = true →
  (EditModal.activeTab modal = Types.UPLOAD → EditModal.selectedFile modal = None) →
  (EditModal.activeTab modal = Types.AI_GENERATE → EditModal.generatedBlob modal = None) →
  (∀ p, p ∈ App.pads app → Some (Types.id p) = App.editingPadId app →
        Types.audioBlob p = None) →
  App.handle toUpperCase (App.ClickSave modal) app = (App.setIsModalOpen false app, []).
Proof.
  intros Hopen Hupload Hgenerate Hsilent. unfold App.handle. rewrite Hopen.
  assert (snd (EditModal.handleSave modal)
          = [OnSave (EditModal.name modal) (EditModal.color modal) None
               (EditModal.volume modal) (Some (EditModal.shortcut modal)); OnClose]) as ->.
  { unfold EditModal.handleSave. cbn [snd].
    destruct (EditModal.activeTab modal).
    - now rewrite Hupload.
    - rewrite Hgenerate by reflexivity. now destruct (EditModal.selectedFile modal). }
  cbn [App.deliver]. unfold App.handleSavePad.
  destruct (App.editingPadId app) as [editing|] eqn:Hediting; cbn [falsy]; [|reflexivity].
  destruct (String.eqb editing ""); [reflexivity|].
  cbn [App.or_else default from_option]. change (id editing) with editing.
  destruct (find _ (App.pads app)) as [existing|] eqn:Hfind; [|reflexivity].
  apply find_some in Hfind as [Hin Hid]. apply String.eqb_eq in Hid.
  cbn [mbind option_bind]. rewrite (Hsilent existing); [reflexivity | | congruence].
  now apply list_elem_of_In.
Qed.

Lemma save_without_audio_is_dropped_witness :
  App.handle sample_toUpperCase
    (App.ClickSave
       (EditModal.setName "Horn"
          (EditModal.setActiveTab Types.AI_GENERATE
             (EditModal.setSelectedFile
                (Some {| EditModal.file_name := "horn.mp3";
                         EditModal.file_blob := sample_blob |})
                sample_modal))))
    (App.handleEditPad "pad-0" (sample_app [sample_pad 0 None None]))
  = (App.setIsModalOpen false
       (App.handleEditPad "pad-0" (sample_app [sample_pad 0 None None])), []).
Proof.
  apply (save_without_audio_is_dropped sample_toUpperCase
           (EditModal.setName "Horn"
              (EditModal.setActiveTab Types.AI_GENERATE
                 (EditModal.setSelectedFile
                    (Some {| EditModal.file_name := "horn.mp3";
                             EditModal.file_blob := sample_blob |})
                    sample_modal)))
           (App.handleEditPad "pad-0" (sample_app [sample_pad 0 None None]))).
  - reflexivity.
  - discriminate.
  - reflexivity.
  - intros p Hp _. apply list_elem_of_singleton in Hp. now subst p.
Defined.

(** X21: a cleared pad is silent. In edit mode, on a grid with
    distinct identifiers, a confirmed click on the delete button of a
    pad with audio resets that pad, and no other, to the empty pad
    and asks the database to delete it. Afterwards a click on the
    pad in play mode asks for nothing, and no key press triggers it:
    a key either does nothing or triggers another pad of the grid.
    Without the confirmation nothing changes. *)
Theorem cleared_pad_is_silent (toUpperCase : string → string) (app : App.AppState)
    (i : nat) (pad : Types.SoundPadData) :
  let emptyPad := {| Types.id := Types.id pad; Types.name := "Empty";
                     Types.color := Types.PadColor.SLATE; Types.volume := 1;
                     Types.shortcut := None; Types.audioBlob := None |} in
  let cleared := App.commit (App.setPads (<[i := emptyPad]> (App.pads app)) app) in
  NoDup (map Types.id (App.pads app)) →
  App.pads app !! i = Some pad →
  App.isEditMode app = true →
  is_Some (Types.audioBlob pad) →
  App.handle toUpperCase (App.ClickDelete i true) app
  = (App.setPads (<[i := emptyPad]> (App.pads app)) app,
     [StopPropagation; DeletePadFromDB (Types.id pad)])
  ∧ App.handle toUpperCase (App.ClickDelete i false) app = (app, [StopPropagation])
  ∧ (∀ local, App.handle toUpperCase (App.ClickPad i local)
                (App.setIsEditMode false cleared)
              = (App.setIsEditMode false cleared, []))
  ∧ (∀ e, App.handleGlobalKeyDown toUpperCase e cleared = (cleared, [])
          ∨ ∃ other blob,
              other ∈ App.pads app ∧ Types.id other ≠ Types.id pad ∧
              Types.audioBlob other = Some blob ∧
              App.handleGlobalKeyDown toUpperCase e cleared
              = (App.setTriggeredPadId (Some (Types.id other)) cleared,
                 [PreventDefault; SetTimeout ResetTriggeredPadId 200;
                  PlayAudioBlob blob (Types.volume other)])).
Proof.
  intros emptyPad cleared Hnodup Hi Hedit Haudio.
  assert (i < length (App.pads app))%nat as Hlt by (apply lookup_lt_is_Some; eauto).
  assert (∀ confirmed, App.handle toUpperCase (App.ClickDelete i confirmed) app
            = let '(app', out) := App.handleDeletePad (Types.id pad) confirmed app in
              (app', StopPropagation :: out)) as Hdelete.
  { intros confirmed. unfold App.handle. rewrite Hi. unfold Pad.delete_rendered.
    cbn [Pad.isEditMode Pad.data]. rewrite Hedit, bool_decide_eq_true_2 by exact Haudio.
    cbn [andb App.deliver Pad.handleDeleteClick].
    destruct (App.handleDeletePad (Types.id pad) confirmed app) as [app' out].
    cbn [List.app]. now rewrite app_nil_r. }
  repeat split.
  - rewrite Hdelete. unfold App.handleDeletePad. cbn [negb]. fold emptyPad.
    fold (replace_pad (Types.id pad) emptyPad (App.pads app)).
    now rewrite (replace_pad_insert _ i pad emptyPad Hnodup Hi).
  - now rewrite Hdelete.
  - intros local. unfold App.handle, cleared.
    cbn [App.pads App.setIsEditMode App.commit App.setPads App.isEditMode].
    rewrite list_lookup_insert_eq by exact Hlt.
    reflexivity.
  - intros e. unfold App.handleGlobalKeyDown.
    destruct (target e); [now left | now left |].
    destruct (includes _ (key e)); [now left|].
    destruct (find _ (App.padsRef cleared)) as [other|] eqn:Hfind; [|now left].
    destruct (Types.audioBlob other) as [blob|] eqn:Hblob; [|now left].
    right. exists other, blob. apply find_some in Hfind as [Hin _].
    apply list_elem_of_In, list_elem_of_lookup in Hin as [j Hj].
    unfold cleared in Hj. cbn [App.padsRef App.commit App.pads App.setPads] in Hj.
    destruct (decide (i = j)) as [<-|Hij].
    + rewrite list_lookup_insert_eq in Hj by exact Hlt.
      injection Hj as <-. discriminate.
    + rewrite list_lookup_insert_ne in Hj by exact Hij.
      repeat split; try assumption.
      * now apply list_elem_of_lookup_2 in Hj.
      * intros Hid. apply Hij.
        apply (NoDup_lookup (map Types.id (App.pads app)) i j (Types.id pad)); [exact Hnodup | |].
        -- now rewrite list_lookup_fmap, Hi.
        -- rewrite list_lookup_fmap, Hj. cbn. now rewrite Hid.
Qed.

Lemma cleared_pad_is_silent_witness :
  App.handle sample_toUpperCase (App.ClickDelete 0 true)
    (App.setIsEditMode true
       (sample_app [sample_pad 0 (Some "A"%string) (Some sample_blob); sample_pad 1 None None]))
  = (App.setPads
       [{| Types.id := "pad-0"; Types.name := "Empty"; Types.color := Types.PadColor.SLATE;
           Types.volume := 1; Types.shortcut := None; Types.audioBlob := None |};
        sample_pad 1 None None]
       (App.setIsEditMode true
          (sample_app [sample_pad 0 (Some "A"%string) (Some sample_blob);
                       sample_pad 1 None None])),
     [StopPropagation; DeletePadFromDB "pad-0"]).
Proof.
  refine (proj1 (cleared_pad_is_silent sample_toUpperCase
                   (App.setIsEditMode true
                      (sample_app [sample_pad 0 (Some "A"%string) (Some sample_blob);
                                   sample_pad 1 None None]))
                   0 (sample_pad 0 (Some "A"%string) (Some sample_blob)) _ _ _ _)).
  - apply NoDup_cons. split; [|apply NoDup_singleton].
    rewrite list_elem_of_singleton. discriminate.
  - reflexivity.
  - reflexivity.
  - eexists. reflexivity.
Defined.

(** ** Invariants of the page *)

(** What one action does to the pads: nothing, or it loads them, or it
    replaces the pads with one identifier by a pad with the same
    identifier that has audio or no shortcut. *)
Lemma handle_pads (toUpperCase : string → string) (a : App.Action) (app : App.AppState) :
  App.pads (fst (App.handle toUpperCase a app)) = App.pads app
  ∨ (∃ answer, a = App.PadsLoaded answer ∧
       App.pads (fst (App.handle toUpperCase a app))
       = App.pads (fst (App.initPads answer app)))
  ∨ (∃ pad, (is_Some (Types.shortcut pad) → is_Some (Types.audioBlob pad)) ∧
       App.pads (fst (App.handle toUpperCase a app))
       = replace_pad (Types.id pad) pad (App.pads app)).
Proof.
  destruct a as [answer|e|i local|i confirmed|modal|modal| |edit|val|val| | | | |callback];
    cbn [App.handle]; try (now left).
  - right. left. now exists answer.
  - left. unfold App.handleGlobalKeyDown.
    destruct (target e); try reflexivity.
    destruct (includes _ (key e)); [reflexivity|].
    destruct (find _ (App.padsRef app)) as [pad|]; [|reflexivity].
    now destruct (Types.audioBlob pad).
  - left. destruct (App.pads app !! i) as [pad|]; [|reflexivity].
    unfold Pad.handleClick, Pad.handlePlayClick. cbn [Pad.isEditMode Pad.data].
    destruct (App.isEditMode app); [reflexivity|].
    now destruct (Types.audioBlob pad).
  - destruct (App.pads app !! i) as [pad|]; [|now left].
    destruct (Pad.delete_rendered _); [|now left].
    destruct confirmed; [|now left].
    right. right. eexists {| Types.id := Types.id pad; Types.shortcut := None |}.
    split; [intros [? [=]]|]. reflexivity.
  - destruct (App.isModalOpen app); [|now left].
    cbn [EditModal.handleSave snd App.deliver]. unfold App.handleSavePad.
    destruct (falsy (App.editingPadId app)); [now left|].
    destruct (App.or_else _ _) as [finalBlob|]; [|now left].
    right. right. eexists {| Types.audioBlob := Some finalBlob |}.
    split; [intros _; eexists; reflexivity|]. reflexivity.
  - left. now destruct (App.isModalOpen app).
  - left. now destruct (App.isModalOpen app).
  - left. now destruct callback.
Qed.

Lemma handle_shaped (toUpperCase : string → string) (a : App.Action) (app : App.AppState) :
  App.pads app = [] ∨ grid_shaped (App.pads app) →
  App.pads (fst (App.handle toUpperCase a app)) = []
  ∨ grid_shaped (App.pads (fst (App.handle toUpperCase a app))).
Proof.
  intros Hshape.
  destruct (handle_pads toUpperCase a app) as [-> | [(answer & _ & ->) | (pad & _ & ->)]].
  - exact Hshape.
  - right. apply initPads_shaped.
  - destruct Hshape as [-> | Hshape]; [now left|]. right. unfold grid_shaped.
    now rewrite replace_pad_ids.
Qed.

Lemma initPads_audible (answer : Outcome (list Types.SoundPadData)) (app : App.AppState) :
  stored_audible (App.User (App.PadsLoaded answer)) →
  audible_shortcuts (App.pads (fst (App.initPads answer app))).
Proof.
  assert (audible_shortcuts App.skeletonPads) as Hskeleton.
  { unfold App.skeletonPads. apply Forall_fmap, Forall_forall. intros k _ [? [=]]. }
  destruct answer as [storedPads|e]; cbn [stored_audible App.initPads fst App.pads App.setPads];
    [|intros _; exact Hskeleton].
  intros Hstored. unfold audible_shortcuts in *. apply Forall_fmap.
  eapply Forall_impl; [exact Hskeleton|]. intros sk Hsk. cbn.
  destruct (find _ storedPads) as [found|] eqn:Hfind; [|exact Hsk].
  apply find_some in Hfind as [Hin _].
  rewrite Forall_forall in Hstored. apply Hstored. now apply list_elem_of_In.
Qed.

Lemma handle_audible (toUpperCase : string → string) (a : App.Action) (app : App.AppState) :
  stored_audible (App.User a) →
  audible_shortcuts (App.pads app) →
  audible_shortcuts (App.pads (fst (App.handle toUpperCase a app))).
Proof.
  intros Hstored Haudible.
  destruct (handle_pads toUpperCase a app) as [-> | [(answer & -> & ->) | (pad & Hpad & ->)]].
  - exact Haudible.
  - now apply initPads_audible.
  - unfold audible_shortcuts, replace_pad in *. apply Forall_fmap.
    eapply Forall_impl; [exact Haudible|]. intros p Hp. cbn.
    now destruct (String.eqb (Types.id p) (Types.id pad)).
Qed.

Lemma page_run_snoc (toUpperCase : string → string) (p : App.Page)
    (trace : list App.PageEvent) (ev : App.PageEvent) :
  App.page_run toUpperCase p (trace ++ [ev])
  = App.page_step toUpperCase (App.page_run toUpperCase p trace) ev.
Proof. unfold App.page_run. now rewrite foldl_app. Qed.

Lemma page_step_app (toUpperCase : string → string) (p : App.Page) (ev : App.PageEvent) :
  App.app (App.page_step toUpperCase p ev)
  = match ev with
    | App.User a => App.commit (fst (App.handle toUpperCase a (App.app p)))
    | App.Audio _ => App.app p
    end.
Proof.
  destruct ev as [a|ev]; cbn [App.page_step]; [|reflexivity].
  now destruct (App.handle toUpperCase a (App.app p)).
Qed.

(** X22: the grid keeps its shape. In every state the page reaches,
    by any sequence of user actions (loading, keys, clicks on pads,
    deletions, saves with any content of the modal, mode changes,
    sliders) and events of the audio platform, the grid is either
    still empty (not loaded) or consists of the sixteen pads [pad-0]
    to [pad-15] in this order; and the pads the keyboard listener
    sees are the pads shown. *)
Theorem grid_invariant (toUpperCase : string → string) (autoplay nodes : bool)
    (trace : list App.PageEvent) :
  let page := App.page_run toUpperCase (App.page_initial autoplay nodes) trace in
  (App.pads (App.app page) = [] ∨
   map Types.id (App.pads (App.app page))
   = ["pad-0"; "pad-1"; "pad-2"; "pad-3"; "pad-4"; "pad-5"; "pad-6"; "pad-7";
      "pad-8"; "pad-9"; "pad-10"; "pad-11"; "pad-12"; "pad-13"; "pad-14"; "pad-15"]%string)
  ∧ App.padsRef (App.app page) = App.pads (App.app page).
Proof.
  cbn zeta. rewrite <- skeleton_ids. fold (grid_shaped (App.pads (App.app
    (App.page_run toUpperCase (App.page_initial autoplay nodes) trace)))).
  induction trace as [|ev trace IH] using rev_ind.
  - split; [now left | reflexivity].
  - rewrite page_run_snoc, page_step_app. destruct ev as [a|ev]; [|exact IH].
    split; [|reflexivity]. cbn [App.commit App.pads]. apply handle_shaped, IH.
Qed.

(** X23: a pad with a shortcut has audio. If the stored pads the
    database answers with have this property, then so has every grid
    the page reaches: saving always stores audio with the pad, and
    clearing removes the shortcut together with the audio. Hence a
    pad without audio never takes a key press away from a later pad
    with the same shortcut. *)
Theorem shortcuts_have_audio (toUpperCase : string → string) (autoplay nodes : bool)
    (trace : list App.PageEvent) :
  Forall stored_audible trace →
  audible_shortcuts
    (App.pads (App.app (App.page_run toUpperCase (App.page_initial autoplay nodes) trace))).
Proof.
  induction trace as [|ev trace IH] using rev_ind; intros Hstored.
  - constructor.
  - apply Forall_app in Hstored as [Htrace Hev]. rewrite Forall_singleton in Hev.
    rewrite page_run_snoc, page_step_app. destruct ev as [a|ev]; [|now apply IH].
    cbn [App.commit App.pads]. apply handle_audible; [exact Hev | now apply IH].
Qed.

Lemma shortcuts_have_audio_witness :
  audible_shortcuts
    (App.pads (App.app
       (App.page_run sample_toUpperCase (App.page_initial true true)
          [App.User (App.PadsLoaded
                       (Returned [sample_pad 1 (Some "Ctrl+A"%string) (Some sample_blob)]));
           App.User (App.ClickMode true);
           App.User (App.ClickDelete 1 true)]))).
Proof.
  apply (shortcuts_have_audio sample_toUpperCase true true
           [App.User (App.PadsLoaded
                        (Returned [sample_pad 1 (Some "Ctrl+A"%string) (Some sample_blob)]));
            App.User (App.ClickMode true);
            App.User (App.ClickDelete 1 true)]).
  repeat constructor. intros _. eexists. reflexivity.
Defined.

Lemma page_audio_is_a_run (toUpperCase : string → string) (autoplay nodes : bool)
    (trace : list App.PageEvent) :
  ∃ events,
    App.audio (App.page_run toUpperCase (App.page_initial autoplay nodes) trace)
    = run (initial autoplay nodes) events.
Proof.
  induction trace as [|ev trace [events IH]] using rev_ind.
  - now exists [].
  - rewrite page_run_snoc. destruct ev as [a|ev]; cbn [App.page_step].
    + destruct (App.handle toUpperCase a _) as [app' requests]. cbn [App.audio].
      exists (events ++ App.audio_calls requests). unfold run in *. now rewrite foldl_app, IH.
    + cbn [App.audio]. exists (events ++ [ev]). unfold run in *. now rewrite foldl_app, IH.
Qed.

(** X24: the interface cannot break the solo playback of the
    coordinator, and solo is the coordinator's only. Whatever the
    user does, in any order and at any pace (keys, clicks on pads in
    either mode, saves, previews, deletions, the sliders, Fade and
    Stop All) and however the audio platform answers in between, the
    playback coordinator has at most one voice registered and at most
    one fade timer pending, and none of the calls of [playAudioBlob]
    the interface makes without handling their failure ends in a
    rejected promise. The Preview button of the modal plays through
    audio elements of its own: no event of the page, Stop All and
    Fade included, removes one of them, and a preview neither
    registers a voice nor stops one. *)
Theorem page_keeps_coordinator_solo (toUpperCase : string → string) (autoplay nodes : bool)
    (trace : list App.PageEvent) :
  let page := App.page_run toUpperCase (App.page_initial autoplay nodes) trace in
  (size (activeSources (App.audio page)) ≤ 1)%nat
  ∧ (∀ h, is_Some (timers (App.audio page) !! h) → fadeTimeout (App.audio page) = Some h)
  ∧ (∀ id e, tasks (App.audio page) !! id ≠ Some (Settled (Throw e)))
  ∧ (∀ ev, App.previews page `prefix_of` App.previews (App.page_step toUpperCase page ev))
  ∧ (∀ modal, App.audio (App.page_step toUpperCase page (App.User (App.ClickPreview modal)))
              = App.audio page).
Proof.
  cbn zeta. split; [|split; [|split; [|split]]].
  - destruct (page_audio_is_a_run toUpperCase autoplay nodes trace) as [events ->].
    apply Inv_reachable.
  - destruct (page_audio_is_a_run toUpperCase autoplay nodes trace) as [events ->].
    apply Inv_reachable.
  - destruct (page_audio_is_a_run toUpperCase autoplay nodes trace) as [events ->].
    apply Inv_reachable.
  - intros [a|ev]; cbn [App.page_step]; [|reflexivity].
    destruct (App.handle toUpperCase a _) as [app' requests]. cbn [App.previews].
    now apply prefix_app_r.
  - intros modal. cbn [App.page_step App.handle].
    destruct (App.isModalOpen _); [|reflexivity].
    unfold EditModal.handlePreviewClick.
    destruct (EditModal.activeTab modal), (EditModal.generatedBlob modal); reflexivity.
Qed.

Lemma page_ref_synchronised (toUpperCase : string → string) (autoplay nodes : bool)
    (trace : list App.PageEvent) :
  App.padsRef (App.app (App.page_run toUpperCase (App.page_initial autoplay nodes) trace))
  = App.pads (App.app (App.page_run toUpperCase (App.page_initial autoplay nodes) trace)).
Proof.
  induction trace as [|ev trace IH] using rev_ind; [reflexivity|].
  rewrite page_run_snoc, page_step_app. now destruct ev.
Qed.

Ltac members Hin :=
  repeat (apply elem_of_cons in Hin as [->|Hin]);
  try (now apply elem_of_nil in Hin); try exact I.

(** X25: what the interface plays is the grid, or a preview. In every
    state the page reaches, whatever action comes next, each play it
    asks of the playback coordinator carries the audio and the volume
    of a pad that is in the grid at that moment, so the audio of a
    cleared or replaced pad is never played again through that pad;
    and the only other sound it starts is the Preview of the modal:
    an audio element is handed a blob only by a click on Preview
    while the modal is open on the AI tab, and the blob is the one
    generated in the modal, whether saved to a pad or not. *)
Theorem played_audio_is_grid_or_preview (toUpperCase : string → string)
    (autoplay nodes : bool) (trace : list App.PageEvent) (a : App.Action) (r : Request) :
  let page := App.page_run toUpperCase (App.page_initial autoplay nodes) trace in
  r ∈ snd (App.handle toUpperCase a (App.app page)) →
  match r with
  | PlayAudioBlob blob volume =>
      ∃ pad, pad ∈ App.pads (App.app page) ∧
             Types.audioBlob pad = Some blob ∧ Types.volume pad = volume
  | AudioElementPlay blob =>
      ∃ modal, a = App.ClickPreview modal ∧ App.isModalOpen (App.app page) = true ∧
               EditModal.activeTab modal = Types.AI_GENERATE ∧
               EditModal.generatedBlob modal = Some blob
  | _ => True
  end.
Proof.
  cbn zeta. pose proof (page_ref_synchronised toUpperCase autoplay nodes trace) as Href.
  destruct (App.app (App.page_run toUpperCase (App.page_initial autoplay nodes) trace))
    as [pads isEditMode masterVolume fadeDuration triggeredPadId isModalOpen editingPadId padsRef].
  cbn [App.padsRef App.pads App.isModalOpen] in *. subst padsRef.
  destruct a as [answer|e|i local|i confirmed|modal|modal| |edit|val|val| | | | |callback];
    cbn [App.handle App.pads App.isEditMode App.isModalOpen].
  - destruct answer; cbn; intros Hin; members Hin.
  - unfold App.handleGlobalKeyDown. cbn [App.padsRef].
    destruct (target e); try (cbn; intros Hin; now apply elem_of_nil in Hin).
    destruct (includes _ (key e)); [cbn; intros Hin; now apply elem_of_nil in Hin|].
    destruct (find _ pads) as [pad|] eqn:Hfind;
      [|cbn; intros Hin; now apply elem_of_nil in Hin].
    destruct (Types.audioBlob pad) as [audio|] eqn:Haudio;
      [|cbn; intros Hin; now apply elem_of_nil in Hin].
    cbn [snd]. intros Hin. members Hin.
    exists pad. apply find_some in Hfind as [Hpad _].
    repeat split; [now apply list_elem_of_In | exact Haudio].
  - destruct (pads !! i) as [pad|] eqn:Hi; [|cbn; intros Hin; now apply elem_of_nil in Hin].
    unfold Pad.handleClick, Pad.handlePlayClick. cbn [Pad.isEditMode Pad.data].
    destruct isEditMode; [cbn; intros Hin; now apply elem_of_nil in Hin|].
    destruct (Types.audioBlob pad) as [audio|] eqn:Haudio;
      [|cbn; intros Hin; now apply elem_of_nil in Hin].
    cbn. intros Hin. members Hin.
    exists pad. repeat split; [now apply list_elem_of_lookup_2 in Hi | exact Haudio].
  - destruct (pads !! i) as [pad|]; [|cbn; intros Hin; now apply elem_of_nil in Hin].
    destruct (Pad.delete_rendered _); [|cbn; intros Hin; now apply elem_of_nil in Hin].
    destruct confirmed; cbn; intros Hin; members Hin.
  - destruct isModalOpen; [|cbn; intros Hin; now apply elem_of_nil in Hin].
    cbn [EditModal.handleSave snd App.deliver]. unfold App.handleSavePad.
    cbn [App.editingPadId].
    destruct (falsy editingPadId); [cbn; intros Hin; now apply elem_of_nil in Hin|].
    destruct (App.or_else _ _); cbn; intros Hin; members Hin.
  - destruct isModalOpen; [|cbn; intros Hin; now apply elem_of_nil in Hin].
    unfold EditModal.handlePreviewClick.
    destruct (EditModal.activeTab modal) eqn:Htab,
      (EditModal.generatedBlob modal) as [generated|] eqn:Hgenerated;
      cbn; intros Hin; members Hin.
    exists modal. repeat split; assumption.
  - destruct isModalOpen; cbn; intros Hin; now apply elem_of_nil in Hin.
  - cbn; intros Hin; now apply elem_of_nil in Hin.
  - cbn; intros Hin. members Hin.
  - cbn; intros Hin; now apply elem_of_nil in Hin.
  - cbn; intros Hin. members Hin.
  - cbn; intros Hin. members Hin.
  - cbn; intros Hin. members Hin.
  - cbn; intros Hin. members Hin.
  - destruct callback; cbn; intros Hin; now apply elem_of_nil in Hin.
Qed.

Lemma played_audio_is_grid_or_preview_witness :
  ∃ modal,
    App.ClickPreview (EditModal.setGeneratedBlob (Some sample_blob)
                        (EditModal.setActiveTab Types.AI_GENERATE sample_modal))
    = App.ClickPreview modal
    ∧ App.isModalOpen (App.app
        (App.page_run sample_toUpperCase (App.page_initial true true)
           [App.User (App.PadsLoaded (Returned []));
            App.User (App.ClickMode true);
            App.User (App.ClickPad 0 {| Pad.isPlaying := false; Pad.isHovered := false |})]))
      = true
    ∧ EditModal.activeTab modal = Types.AI_GENERATE
    ∧ EditModal.generatedBlob modal = Some sample_blob.
Proof.
  apply (played_audio_is_grid_or_preview sample_toUpperCase true true
           [App.User (App.PadsLoaded (Returned []));
            App.User (App.ClickMode true);
            App.User (App.ClickPad 0 {| Pad.isPlaying := false; Pad.isHovered := false |})]
           (App.ClickPreview (EditModal.setGeneratedBlob (Some sample_blob)
                                (EditModal.setActiveTab Types.AI_GENERATE sample_modal)))
           (AudioElementPlay sample_blob)).
  apply list_elem_of_In. vm_compute. left; reflexivity.
Defined.

(** ** The edit modal *)

Lemma length_substring_0 (n : nat) : ∀ s,
  String.length (String.substring 0 n s) = Nat.min n (String.length s).
Proof.
  induction n as [|n IH]; intros [|c s]; cbn [String.substring String.length Nat.min];
    try reflexivity.
  now rewrite IH.
Qed.

Lemma substring_0_all (n : nat) : ∀ s,
  (String.length s ≤ n)%nat → String.substring 0 n s = s.
Proof.
  induction n as [|n IH]; intros [|c s]; cbn [String.substring String.length];
    try reflexivity; try lia.
  intros Hlength. rewrite IH by lia. reflexivity.
Qed.

Lemma length_append (s : string) : ∀ t,
  String.length (String.append s t) = (String.length s + String.length t)%nat.
Proof.
  induction s as [|c s IH]; intros t; [reflexivity|].
  change (S (String.length (String.append s t))
          = S (String.length s + String.length t)%nat).
  now rewrite IH.
Qed.

Lemma append_empty_r (s : string) : String.append s "" = s.
Proof.
  induction s as [|c s IH]; [reflexivity|].
  change (String c (String.append s "") = String c s). now rewrite IH.
Qed.

Lemma generateSpeech_returns_wav (atob : string → option string)
    (generateContent : GenerateContentRequest → Outcome GenerateContentResponse)
    (API_KEY : option string) (text : string) (voice : option string) (blob : Blob) :
  generateSpeech atob generateContent API_KEY text voice = Returned blob →
  blob_type blob = "audio/wav"%string.
Proof.
  unfold generateSpeech. destruct API_KEY as [apiKey|]; [|discriminate].
  destruct (String.eqb apiKey ""); [discriminate|].
  match goal with |- context [generateContent ?r] =>
    destruct (generateContent r) as [response|t] end; [|discriminate].
  destruct (candidates response) as [[|first others]|]; try discriminate.
  match goal with |- context [falsy ?d] => destruct (falsy d) end; [discriminate|].
  match goal with |- context [atob ?d] => destruct (atob d) as [binary|] end; [|discriminate].
  rewrite fill_bytes_all, createWavFile_bytes. intros Hblob.
  assert (blob = {| blob_bytes := wav_header (char_bytes binary) 24000 1 16
                                  ++ char_bytes binary;
                    blob_type := "audio/wav" |}) as -> by congruence.
  reflexivity.
Qed.

(** X26: a successful generation fills the modal. With a prompt
    entered and nothing else happening until [generateSpeech] has
    returned, a click on Generate leaves the modal holding the
    generated blob, of type audio/wav, with no error shown and the
    busy flag cleared. A name the user had entered is kept; an empty
    name is replaced by the prompt itself when it has at most 15
    characters and otherwise by its first 15 characters followed by
    three dots, 18 characters in all. On the AI tab a click on Save
    then hands this blob to the page. *)
Theorem generation_fills_the_modal (platform_message : Thrown → option string)
    (atob : string → option string)
    (generateContent : GenerateContentRequest → Outcome GenerateContentResponse)
    (API_KEY : option string) (st : EditModal.Modal) (blob : Blob) :
  let st' := EditModal.handleGenerate_uninterrupted platform_message atob generateContent
               API_KEY st in
  EditModal.prompt st ≠ ""%string →
  generateSpeech atob generateContent API_KEY (EditModal.prompt st)
                 (Some (EditModal.selectedVoice st)) = Returned blob →
  EditModal.generatedBlob st' = Some blob
  ∧ blob_type blob = "audio/wav"%string
  ∧ EditModal.aiError st' = None
  ∧ EditModal.isGenerating st' = false
  ∧ (EditModal.name st ≠ ""%string → EditModal.name st' = EditModal.name st)
  ∧ (EditModal.name st = ""%string →
     (String.length (EditModal.name st') ≤ 18)%nat
     ∧ ((String.length (EditModal.prompt st) ≤ 15)%nat →
        EditModal.name st' = EditModal.prompt st)
     ∧ ((15 < String.length (EditModal.prompt st))%nat →
        EditModal.name st'
        = String.append (String.substring 0 15 (EditModal.prompt st)) "..."))
  ∧ (EditModal.activeTab st = Types.AI_GENERATE →
     snd (EditModal.handleSave st')
     = [OnSave (EditModal.name st') (EditModal.color st) (Some blob) (EditModal.volume st)
          (Some (EditModal.shortcut st)); OnClose]).
Proof.
  intros st' Hprompt Hspeech. subst st'.
  unfold EditModal.handleGenerate_uninterrupted, EditModal.handleGenerate, blank.
  apply String.eqb_neq in Hprompt. rewrite Hprompt.
  cbn [EditModal.rendered_prompt EditModal.rendered_voice]. rewrite Hspeech.
  unfold EditModal.handleGenerate_settled, blank. cbn [EditModal.rendered_name
    EditModal.rendered_prompt].
  split; [|split; [|split; [|split; [|split; [|split]]]]].
  - now destruct (String.eqb (EditModal.name st) "").
  - exact (generateSpeech_returns_wav _ _ _ _ _ _ Hspeech).
  - now destruct (String.eqb (EditModal.name st) "").
  - reflexivity.
  - intros Hname. apply String.eqb_neq in Hname. now rewrite Hname.
  - intros Hname. rewrite Hname.
    destruct (15 <? String.length (EditModal.prompt st))%nat eqn:Hlong; cbn.
    + apply Nat.ltb_lt in Hlong. split; [|split; [lia | reflexivity]].
      rewrite length_append, length_substring_0.
      change (String.length "...") with 3%nat. lia.
    + apply Nat.ltb_ge in Hlong. rewrite append_empty_r, substring_0_all by exact Hlong.
      split; [lia | split; [reflexivity | lia]].
  - intros Htab. unfold EditModal.handleSave.
    destruct (String.eqb (EditModal.name st) ""); cbn; now rewrite Htab.
Qed.

Lemma generation_fills_the_modal_witness :
  EditModal.generatedBlob
    (EditModal.handleGenerate_uninterrupted (fun _ => None) sample_atob audio_in_second_part
       (Some "key"%string) (EditModal.setPrompt "hello" sample_modal))
  = Some {| blob_bytes := wav_header (char_bytes "ABC") 24000 1 16 ++ char_bytes "ABC";
            blob_type := "audio/wav" |}.
Proof.
  refine (proj1
    (generation_fills_the_modal (fun _ => None) sample_atob audio_in_second_part
       (Some "key"%string) (EditModal.setPrompt "hello" sample_modal)
       {| blob_bytes := wav_header (char_bytes "ABC") 24000 1 16 ++ char_bytes "ABC";
          blob_type := "audio/wav" |} _ _)).
  - discriminate.
  - vm_compute. reflexivity.
Defined.

(** X27: a failed generation leaves the previous audio in place. If
    the modal already holds a generated blob and a new generation
    fails, the modal shows a non-empty error message and clears the
    busy flag, but keeps the name and the old blob; on the AI tab a
    click on Save then still hands the old blob to the page. *)
Theorem failed_generation_keeps_previous_audio (platform_message : Thrown → option string)
    (atob : string → option string)
    (generateContent : GenerateContentRequest → Outcome GenerateContentResponse)
    (API_KEY : option string) (st : EditModal.Modal) (previous : option Blob)
    (err : Thrown) :
  let st' := EditModal.handleGenerate_uninterrupted platform_message atob generateContent
               API_KEY st in
  EditModal.prompt st ≠ ""%string →
  EditModal.generatedBlob st = previous →
  generateSpeech atob generateContent API_KEY (EditModal.prompt st)
                 (Some (EditModal.selectedVoice st)) = Threw err →
  (∃ shown, EditModal.aiError st' = Some shown ∧ shown ≠ ""%string ∧
            (∀ m, err = JsError m → m ≠ ""%string → shown = m))
  ∧ EditModal.isGenerating st' = false
  ∧ EditModal.name st' = EditModal.name st
  ∧ EditModal.generatedBlob st' = previous
  ∧ (EditModal.activeTab st = Types.AI_GENERATE →
     snd (EditModal.handleSave st')
     = [OnSave (EditModal.name st) (EditModal.color st) previous (EditModal.volume st)
          (Some (EditModal.shortcut st)); OnClose]).
Proof.
  intros st' Hprompt Hprevious Hspeech. subst st'.
  unfold EditModal.handleGenerate_uninterrupted, EditModal.handleGenerate, blank.
  apply String.eqb_neq in Hprompt. rewrite Hprompt.
  cbn [EditModal.rendered_prompt EditModal.rendered_voice]. rewrite Hspeech.
  unfold EditModal.handleGenerate_settled.
  split; [|split; [|split; [|split]]]; try (cbn; congruence).
  - eexists. split; [reflexivity|]. split.
    + destruct (EditModal.message platform_message err) as [m|] eqn:Hmessage;
        cbn [falsy]; [|discriminate].
      destruct (String.eqb m "") eqn:Hm; [discriminate|].
      now apply String.eqb_neq in Hm.
    + intros m -> Hm. cbn [EditModal.message falsy]. apply String.eqb_neq in Hm.
      now rewrite Hm.
  - intros Htab. unfold EditModal.handleSave. cbn. rewrite Htab, Hprevious.
    now destruct previous.
Qed.

Lemma failed_generation_keeps_previous_audio_witness :
  EditModal.generatedBlob
    (EditModal.handleGenerate_uninterrupted (fun _ => None) sample_atob audio_in_second_part
       None (EditModal.setGeneratedBlob (Some sample_blob)
               (EditModal.setPrompt "hello" sample_modal)))
  = Some sample_blob.
Proof.
  refine (proj1 (proj2 (proj2 (proj2
    (failed_generation_keeps_previous_audio (fun _ => None) sample_atob audio_in_second_part
       None (EditModal.setGeneratedBlob (Some sample_blob)
               (EditModal.setPrompt "hello" sample_modal))
       (Some sample_blob)
       (JsError "API Key is missing. Please check your environment configuration.")
       _ _ _))))).
  - discriminate.
  - reflexivity.
  - reflexivity.
Defined.

(** *** The name taken from a file *)

Lemma extension_here_cons (c : ascii) (rest : string) :
  EditModal.extension_here (String c rest)
  = Ascii.eqb c "." && negb (blank rest) && plain rest.
Proof.
  destruct rest as [|c' rest].
  - destruct c as [[] [] [] [] [] [] [] []]; reflexivity.
  - destruct c as [[] [] [] [] [] [] [] []]; reflexivity.
Qed.

Lemma plain_with_dot (s t : string) : plain (String.append s (String "." t)) = false.
Proof.
  induction s as [|c s IH]; [reflexivity|].
  change (negb (Ascii.eqb c "/") && negb (Ascii.eqb c ".")
          && plain (String.append s (String "." t)) = false).
  rewrite IH. apply andb_false_r.
Qed.

Lemma remove_extension_cons (c : ascii) (s : string) :
  EditModal.remove_extension (String c s)
  = if EditModal.extension_here (String c s) then ""%string
    else String c (EditModal.remove_extension s).
Proof. reflexivity. Qed.

Lemma remove_extension_append (base ext : string) :
  ext ≠ ""%string → plain ext = true →
  EditModal.remove_extension (String.append base (String "." ext)) = base.
Proof.
  intros Hext Hplain. induction base as [|c base IH].
  - change (EditModal.remove_extension (String "." ext) = ""%string).
    rewrite remove_extension_cons, extension_here_cons, Hplain. unfold blank.
    apply String.eqb_neq in Hext. now rewrite Hext.
  - change (EditModal.remove_extension (String c (String.append base (String "." ext)))
            = String c base).
    rewrite remove_extension_cons, extension_here_cons, plain_with_dot, andb_false_r.
    now rewrite IH.
Qed.

(** X28: a chosen file names the pad by its base name. When the name
    field is empty and the first chosen file is called
    [base.ext], with a non-empty extension free of dots and slashes,
    [handleFileChange] selects the file and sets the name to [base],
    whatever [base] is (it may itself contain dots and slashes: only
    the last extension goes); when a name is already entered it is
    kept and only the file is selected. *)
Theorem handleFileChange_names_the_pad (st : EditModal.Modal) (file : EditModal.File)
    (others : list EditModal.File) (base ext : string) :
  EditModal.file_name file = String.append base (String "." ext) →
  ext ≠ ""%string → plain ext = true →
  EditModal.handleFileChange (Some (file :: others)) st
  = if blank (EditModal.name st)
    then EditModal.setName base (EditModal.setSelectedFile (Some file) st)
    else EditModal.setSelectedFile (Some file) st.
Proof.
  intros Hname Hext Hplain. unfold EditModal.handleFileChange.
  now rewrite Hname, remove_extension_append.
Qed.

Lemma handleFileChange_names_the_pad_witness :
  EditModal.handleFileChange
    (Some [{| EditModal.file_name := "take.2/horn.final.mp3";
              EditModal.file_blob := sample_blob |}]) sample_modal
  = EditModal.setName "take.2/horn.final"
      (EditModal.setSelectedFile
         (Some {| EditModal.file_name := "take.2/horn.final.mp3";
                  EditModal.file_blob := sample_blob |}) sample_modal).
Proof.
  apply (handleFileChange_names_the_pad sample_modal
           {| EditModal.file_name := "take.2/horn.final.mp3";
              EditModal.file_blob := sample_blob |} [] "take.2/horn.final" "mp3").
  - reflexivity.
  - discriminate.
  - reflexivity.
Defined.

(** X29: the name taken from a file is the file name minus, at most,
    one final extension. For every file name, what
    [name.replace(/\.[^/.]+$/, ...)] removes is either nothing or a
    suffix made of a dot followed by one or more characters that are
    neither dots nor slashes; so a name without a dot, a name ending
    in a dot and a name whose last dot is followed by a slash are
    kept whole. *)
Theorem remove_extension_removes_a_suffix (s : string) :
  ∃ removed,
    s = String.append (EditModal.remove_extension s) removed
    ∧ (removed = ""%string
       ∨ ∃ ext, removed = String "." ext ∧ ext ≠ ""%string ∧ plain ext = true).
Proof.
  induction s as [|c s (removed & Hs & Hremoved)].
  - exists ""%string. split; [reflexivity | now left].
  - rewrite remove_extension_cons.
    destruct (EditModal.extension_here (String c s)) eqn:Hhere.
    + exists (String c s). split; [reflexivity|]. right.
      rewrite extension_here_cons in Hhere.
      apply andb_prop in Hhere as [Hhere Hplain]. apply andb_prop in Hhere as [Hdot Hblank].
      apply Ascii.eqb_eq in Hdot. subst c. exists s. repeat split; [|exact Hplain].
      unfold blank in Hblank. apply negb_true_iff, String.eqb_neq in Hblank. exact Hblank.
    + exists removed. split; [|exact Hremoved].
      change (String c s = String c (String.append (EditModal.remove_extension s) removed)).
      now rewrite <- Hs.
Qed.
